(** * Auto_wechat-article-publisher: a shallow embedding of the draft
    session, the post-processor, the session store and the publisher's
    Markdown/HTML passes, with their specification. *)

From Stdlib Require Import ZArith List String Ascii Lia Bool.
From stdpp Require Import gmap.
Import ListNotations.
Open Scope Z_scope.

(** ** Go strings

    A Go [string] is a sequence of bytes; it is modelled as [list Z] with
    each element in [0, 255].  [s2b] turns an ASCII Rocq literal into it. *)

Definition gostring := list Z.

Definition s2b (s : string) : gostring :=
  map (fun c => Z.of_nat (nat_of_ascii c)) (list_ascii_of_string s).

(** A Go [error] value; only its message is kept. *)
Inductive error := Error (msg : gostring).

(** The [(T, error)] return convention of Go. *)
Inductive result (A : Type) :=
| Ok (a : A)
| Err (e : error).
Arguments Ok {A} a.
Arguments Err {A} e.

(** ** Generator data model (generator/types.go) *)

Record Spec := mkSpec {
  Topic : gostring;
  Outline : list gostring;
  Words : Z;
  Constraints : list gostring;
  Style : gostring
}.

Record Draft := mkDraft {
  Title : gostring;
  Digest : gostring;
  Markdown : gostring;
  CoverHint : gostring;
  InlineImageHints : list gostring
}.

(** The zero value [Draft{}]: a session "without a draft". *)
Definition zero_draft : Draft := mkDraft [] [] [] [] [].

Record Turn := mkTurn {
  Comment : gostring;
  TDraft : Draft;
  Summary : gostring;
  CreatedAt : Z
}.

(** ** Session (generator/session.go) *)

Record Session := mkSession {
  ID : gostring;
  SSpec : Spec;
  SDraft : Draft;
  History : list Turn
}.

(** "首稿" (initial draft) in UTF-8, the label of the first turn. *)
Definition shougao : gostring := [233; 166; 150; 231; 168; 191].
(** "修订" (revision) in UTF-8, the summary of a revision turn. *)
Definition xiuding : gostring := [228; 191; 174; 232; 174; 162].

Module SessionModel.

Section WithAgent.

(** [Agent.Generate(ctx, spec, prevDraft, history, comment)]: the prompt
    builder, the language-model call and the post-processor, taken as an
    arbitrary function (the model's answer is not determined by the code). *)
Variable Generate : Spec -> option Draft -> list Turn -> gostring -> result Draft.

(** [NewSession]: no draft, empty history. *)
Definition NewSession (id : gostring) (spec : Spec) : Session :=
  mkSession id spec zero_draft [].

(** [appendTurn]; [now] is the reading of [time.Now()]. *)
Definition appendTurn (s : Session) (comment : gostring) (draft : Draft)
    (summary : gostring) (now : Z) : Session :=
  mkSession (ID s) (SSpec s) (SDraft s)
    (History s ++ [mkTurn comment draft summary now]).

(** The assignment [s.Draft = draft]. *)
Definition setDraft (s : Session) (d : Draft) : Session :=
  mkSession (ID s) (SSpec s) d (History s).

(** [Propose]: the session is passed and returned explicitly. *)
Definition Propose (s : Session) (now : Z) : result Draft * Session :=
  match Generate (SSpec s) None (History s) [] with
  | Err e => (Err e, s)
  | Ok draft =>
      let s1 := setDraft s draft in
      let s2 := appendTurn s1 shougao draft shougao now in
      (Ok draft, s2)
  end.

(** [Revise]. *)
Definition Revise (s : Session) (comment : gostring) (now : Z)
    : result Draft * Session :=
  match Generate (SSpec s) (Some (SDraft s)) (History s) comment with
  | Err e => (Err e, s)
  | Ok draft =>
      let s1 := setDraft s draft in
      let s2 := appendTurn s1 comment draft xiuding now in
      (Ok draft, s2)
  end.

End WithAgent.

End SessionModel.

(** ** The parts of Go's [unicode/utf8], [unicode] and [strings] used here *)

Module GoStrings.

Definition RuneError : Z := 65533.

Definition in_range (lo hi b : Z) : bool := (lo <=? b) && (b <=? hi).

(** [utf8.DecodeRune]: the rune at the start of [s] and its width in bytes;
    [(RuneError, 1)] on an invalid encoding, [(RuneError, 0)] on "". *)
Definition DecodeRune (s : gostring) : Z * nat :=
  match s with
  | [] => (RuneError, 0%nat)
  | b0 :: t =>
    if b0 <? 128 then (b0, 1%nat) else
    let shape :=
      if in_range 194 223 b0 then Some (2%nat, 128, 191)
      else if b0 =? 224 then Some (3%nat, 160, 191)
      else if in_range 225 236 b0 then Some (3%nat, 128, 191)
      else if b0 =? 237 then Some (3%nat, 128, 159)
      else if in_range 238 239 b0 then Some (3%nat, 128, 191)
      else if b0 =? 240 then Some (4%nat, 144, 191)
      else if in_range 241 243 b0 then Some (4%nat, 128, 191)
      else if b0 =? 244 then Some (4%nat, 128, 143)
      else None in
    match shape with
    | None => (RuneError, 1%nat)
    | Some (sz, lo, hi) =>
      match t with
      | b1 :: t1 =>
        if negb (in_range lo hi b1) then (RuneError, 1%nat) else
        if (sz =? 2)%nat then
          (Z.lor (Z.shiftl (Z.land b0 31) 6) (Z.land b1 63), 2%nat) else
        match t1 with
        | b2 :: t2 =>
          if negb (in_range 128 191 b2) then (RuneError, 1%nat) else
          if (sz =? 3)%nat then
            (Z.lor (Z.lor (Z.shiftl (Z.land b0 15) 12) (Z.shiftl (Z.land b1 63) 6))
                   (Z.land b2 63), 3%nat) else
          match t2 with
          | b3 :: _ =>
            if negb (in_range 128 191 b3) then (RuneError, 1%nat) else
            (Z.lor (Z.lor (Z.lor (Z.shiftl (Z.land b0 7) 18) (Z.shiftl (Z.land b1 63) 12))
                          (Z.shiftl (Z.land b2 63) 6)) (Z.land b3 63), 4%nat)
          | [] => (RuneError, 1%nat)
          end
        | [] => (RuneError, 1%nat)
        end
      | [] => (RuneError, 1%nat)
      end
    end
  end.

(** The decoding of a string as Go's [for range] sees it: each rune with
    the bytes it was decoded from.  [fuel] bounds the number of runes. *)
Fixpoint chunks_fuel (fuel : nat) (s : gostring) : list (Z * gostring) :=
  match fuel with
  | O => []
  | S f =>
    match s with
    | [] => []
    | _ :: _ =>
      let (r, w) := DecodeRune s in
      (r, firstn w s) :: chunks_fuel f (skipn w s)
    end
  end.

Definition chunks (s : gostring) : list (Z * gostring) := chunks_fuel (length s) s.

(** [unicode.IsSpace]. *)
Definition IsSpace (r : Z) : bool :=
  (r =? 9) || (r =? 10) || (r =? 11) || (r =? 12) || (r =? 13) || (r =? 32)
  || (r =? 133) || (r =? 160) || (r =? 5760) || in_range 8192 8202 r
  || (r =? 8232) || (r =? 8233) || (r =? 8239) || (r =? 8287) || (r =? 12288).

Fixpoint drop_space (cs : list (Z * gostring)) : list (Z * gostring) :=
  match cs with
  | (r, _) :: t => if IsSpace r then drop_space t else cs
  | [] => []
  end.

(** [strings.TrimSpace]: drops the leading and the trailing runes that are
    [unicode.IsSpace].  The library decodes the tail backwards
    ([utf8.DecodeLastRune]); every space rune is a valid encoding whose
    first byte is never a continuation byte, so it is found at the same
    boundaries as in the forward decoding used here. *)
Definition TrimSpace (s : gostring) : gostring :=
  concat (map snd (rev (drop_space (rev (drop_space (chunks s)))))).

(** [strings.FieldsFunc(s, unicode.IsSpace)], which is what
    [strings.Fields] computes: the maximal runs of non-space runes. *)
Fixpoint fields_aux (cs : list (Z * gostring)) (cur : gostring) : list gostring :=
  match cs with
  | [] => match cur with [] => [] | _ => [cur] end
  | (r, b) :: t =>
    if IsSpace r then
      match cur with [] => fields_aux t [] | _ => cur :: fields_aux t [] end
    else fields_aux t (cur ++ b)
  end.

Definition Fields (s : gostring) : list gostring := fields_aux (chunks s) [].

(** [strings.Join]. *)
Fixpoint Join (xs : list gostring) (sep : gostring) : gostring :=
  match xs with
  | [] => []
  | [x] => x
  | x :: t => x ++ sep ++ Join t sep
  end.

(** [strings.Split(s, sep)] for a one-byte separator. *)
Fixpoint Split1 (s : gostring) (sep : Z) : list gostring :=
  match s with
  | [] => [[]]
  | c :: t =>
    if c =? sep then [] :: Split1 t sep
    else match Split1 t sep with
         | x :: xs => (c :: x) :: xs
         | [] => [[c]]
         end
  end.

Fixpoint HasPrefix (s p : gostring) {struct p} : bool :=
  match p, s with
  | [], _ => true
  | c :: p', d :: s' => (c =? d) && HasPrefix s' p'
  | _ :: _, [] => false
  end.

(** String equality [==]. *)
Definition streq (a b : gostring) : bool := bool_decide (a = b).

(** The slice expression [s[i:j]], for [i <= j <= len(s)]. *)
Definition slice (s : gostring) (i j : nat) : gostring := firstn (j - i) (skipn i s).

(** [fmt.Sprintf("%d", n)] for a natural number. *)
Fixpoint itoa_aux (fuel n : nat) (acc : gostring) : gostring :=
  match fuel with
  | O => acc
  | S f =>
    let acc' := (48 + Z.of_nat (n mod 10)) :: acc in
    if (n <? 10)%nat then acc' else itoa_aux f (n / 10) acc'
  end.

Definition itoa (n : nat) : gostring := itoa_aux (S n) n [].

End GoStrings.

(** ** The [regexp] package, for the patterns the program compiles

    Go's [regexp] returns the leftmost match and, among those, the one a
    backtracking matcher would choose.  [mt] is such a backtracking
    matcher, in continuation-passing style, over the fragment of the
    syntax the program's patterns use.  It runs on bytes: every pattern
    below delimits its groups with ASCII bytes, which never occur inside
    the encoding of a multi-byte rune, so matches and groups start and
    end at the same places as in Go's rune-wise matching. *)

Module Regexp.
Import GoStrings.

Inductive regex :=
| RByte (c : Z)                                (** a literal byte *)
| RClass (p : Z -> bool)                       (** a character class *)
| RCat (r1 r2 : regex)                         (** concatenation *)
| RRep (p : Z -> bool) (min : nat) (greedy : bool)
    (** [[..]*], [[..]+] (greedy) and [[..]*?] (lazy) on a class *)
| RGroup (n : nat) (r : regex)                 (** capturing group [n] *)
| RBol                                         (** [^] under the [m] flag *)
| REol.                                        (** [$] under the [m] flag *)

(** Group [n] spans bytes [[i, j)]. *)
Definition caps := nat -> option (nat * nat).
Definition nocaps : caps := fun _ => None.
Definition cap_set (n : nat) (v : nat * nat) (c : caps) : caps :=
  fun m => if (m =? n)%nat then Some v else c m.

(** Length of the longest prefix of [s] whose bytes satisfy [p]. *)
Fixpoint run_len (p : Z -> bool) (s : gostring) : nat :=
  match s with
  | c :: t => if p c then S (run_len p t) else O
  | [] => O
  end.

Fixpoint first_some {A} (f : nat -> option A) (l : list nat) : option A :=
  match l with
  | [] => None
  | j :: l' => match f j with Some x => Some x | None => first_some f l' end
  end.

Definition at_line_start (inp : gostring) (pos : nat) : bool :=
  match pos with
  | O => true
  | S p => match nth_error inp p with Some c => c =? 10 | None => false end
  end.

Definition at_line_end (inp : gostring) (pos : nat) : bool :=
  match nth_error inp pos with Some c => c =? 10 | None => true end.

Section Matcher.
Context {A : Type}.
Variable inp : gostring.

(** Match [r] at [pos]; on success hand the end position and the groups to
    [k], backtracking into [r] when [k] fails. *)
Fixpoint mt (r : regex) (pos : nat) (cp : caps) (k : nat -> caps -> option A)
    : option A :=
  match r with
  | RByte c =>
    match nth_error inp pos with
    | Some d => if c =? d then k (S pos) cp else None
    | None => None
    end
  | RClass p =>
    match nth_error inp pos with
    | Some d => if p d then k (S pos) cp else None
    | None => None
    end
  | RCat r1 r2 => mt r1 pos cp (fun pos' cp' => mt r2 pos' cp' k)
  | RRep p mn greedy =>
    let n := run_len p (skipn pos inp) in
    let lens := seq mn (S n - mn) in
    first_some (fun j => k (pos + j)%nat cp) (if greedy then rev lens else lens)
  | RGroup g r1 => mt r1 pos cp (fun pos' cp' => k pos' (cap_set g (pos, pos') cp'))
  | RBol => if at_line_start inp pos then k pos cp else None
  | REol => if at_line_end inp pos then k pos cp else None
  end.

End Matcher.

(** The match of [r] anchored at [pos]: its end and its groups. *)
Definition match_at (r : regex) (inp : gostring) (pos : nat) : option (nat * caps) :=
  mt inp r pos nocaps (fun e cp => Some (e, cp)).

(** [doExecute] from [pos]: the leftmost match starting at or after [pos]. *)
Fixpoint search_n (r : regex) (inp : gostring) (n pos : nat)
    : option (nat * nat * caps) :=
  match n with
  | O => None
  | S n' =>
    match match_at r inp pos with
    | Some (e, cp) => Some (pos, e, cp)
    | None => search_n r inp n' (S pos)
    end
  end.

Definition search (r : regex) (inp : gostring) (pos : nat) : option (nat * nat * caps) :=
  search_n r inp (S (length inp - pos)) pos.

(** Width of the rune at [pos], as [utf8.DecodeRuneInString(s[pos:])]. *)
Definition width_at (inp : gostring) (pos : nat) : nat := snd (DecodeRune (skipn pos inp)).

(** [allMatches]: the loop behind every [FindAll*] method with [n = -1].
    [prevEnd] is [prevMatchEnd] ([None] for its initial [-1]).  The
    position grows at every round, so [length inp + 2] rounds suffice. *)
Fixpoint all_n (r : regex) (inp : gostring) (n pos : nat) (prevEnd : option nat)
    : list (nat * nat * caps) :=
  match n with
  | O => []
  | S n' =>
    if (length inp <? pos)%nat then [] else
    match search r inp pos with
    | None => []
    | Some (a, e, cp) =>
      let empty := (e =? pos)%nat in
      let accept := negb (empty && match prevEnd with
                                   | Some pe => (a =? pe)%nat
                                   | None => false end) in
      let w := width_at inp pos in
      let pos' := if empty then (if (0 <? w)%nat then pos + w else S (length inp))%nat
                  else e in
      let rest := all_n r inp n' pos' (Some e) in
      if accept then (a, e, cp) :: rest else rest
    end
  end.

Definition allMatches (r : regex) (inp : gostring) : list (nat * nat * caps) :=
  all_n r inp (S (S (length inp))) 0 None.

(** The text of group [g] ([""] when it did not take part). *)
Definition group_text (inp : gostring) (cp : caps) (g : nat) : gostring :=
  match cp g with Some (i, j) => slice inp i j | None => [] end.

(** [FindStringSubmatch] for a pattern with [ng] groups. *)
Definition FindStringSubmatch (r : regex) (ng : nat) (inp : gostring) : list gostring :=
  match search r inp 0 with
  | Some (a, e, cp) => slice inp a e :: map (group_text inp cp) (seq 1 ng)
  | None => []
  end.

(** [FindAllStringSubmatch(s, -1)]. *)
Definition FindAllStringSubmatch (r : regex) (ng : nat) (inp : gostring)
    : list (list gostring) :=
  map (fun '(a, e, cp) => slice inp a e :: map (group_text inp cp) (seq 1 ng))
      (allMatches r inp).

(** [FindAllStringSubmatchIndex(s, -1)]: [-1] marks a group that did not
    take part. *)
Definition FindAllStringSubmatchIndex (r : regex) (ng : nat) (inp : gostring)
    : list (list Z) :=
  map (fun '(a, e, cp) =>
         Z.of_nat a :: Z.of_nat e
         :: flat_map (fun g => match cp g with
                               | Some (i, j) => [Z.of_nat i; Z.of_nat j]
                               | None => [-1; -1] end) (seq 1 ng))
      (allMatches r inp).

(** [replaceAll] specialised to [ReplaceAllStringFunc(src, f)].  The
    search position grows at every round, so [length src + 2] rounds
    suffice. *)
Fixpoint repl_n (r : regex) (src : gostring) (f : gostring -> gostring)
    (n searchPos lastMatchEnd : nat) (buf : gostring) : gostring :=
  match n with
  | O => buf ++ skipn lastMatchEnd src
  | S n' =>
    if (length src <? searchPos)%nat then buf ++ skipn lastMatchEnd src else
    match search r src searchPos with
    | None => buf ++ skipn lastMatchEnd src
    | Some (a, e, _) =>
      let buf1 := buf ++ slice src lastMatchEnd a in
      let buf2 := if (lastMatchEnd <? e)%nat || (a =? 0)%nat
                  then buf1 ++ f (slice src a e) else buf1 in
      let w := width_at src searchPos in
      let sp' := if (e <? searchPos + w)%nat then (searchPos + w)%nat
                 else if (e <? searchPos + 1)%nat then S searchPos
                 else e in
      repl_n r src f n' sp' e buf2
    end
  end.

Definition ReplaceAllStringFunc (r : regex) (src : gostring) (f : gostring -> gostring)
    : gostring :=
  repl_n r src f (S (S (length src))) 0 0 [].

(** Concatenation of the bytes of an ASCII literal. *)
Fixpoint lit (bs : gostring) (rest : regex) : regex :=
  match bs with
  | [] => rest
  | b :: t => RCat (RByte b) (lit t rest)
  end.

End Regexp.

(** ** Draft post-processing (generator/postprocess.go) *)

Module Generator.
Import GoStrings Regexp.

(** Perl's [\s] in Go: [[\t\n\f\r ]]. *)
Definition perl_space (c : Z) : bool :=
  (c =? 9) || (c =? 10) || (c =? 12) || (c =? 13) || (c =? 32).

(** [`(?m)^#\s+(.+)$`]; [.] does not match a newline without [s]. *)
Definition titleRe : regex :=
  RCat RBol (RCat (RByte 35) (RCat (RRep perl_space 1 true)
    (RCat (RGroup 1 (RRep (fun c => negb (c =? 10)) 1 true)) REol))).

Definition extractTitle (md : gostring) : gostring :=
  let m := FindStringSubmatch titleRe 1 md in
  if (2 <=? length m)%nat then TrimSpace (nth 1 m []) else [].

(** The loop of [extractDigest] over the lines, with the builder [b]. *)
Fixpoint extractDigest_loop (lines : list gostring) (b : gostring) : gostring :=
  match lines with
  | [] => b
  | line :: t =>
    if HasPrefix (TrimSpace line) (s2b "#") then extractDigest_loop t b
    else match TrimSpace line with
         | [] => match b with [] => extractDigest_loop t b | _ => b end
         | tl => b ++ tl
         end
  end.

Definition extractDigest (md : gostring) : gostring :=
  extractDigest_loop (Split1 md 10) [].

Definition defaultDigest (md : gostring) (limit : nat) : gostring :=
  let compact := Fields md in
  let joined := Join compact [32] in
  if (length joined <=? limit)%nat then joined else firstn limit joined.

Definition empty_output_error : error := Error (s2b "model returned empty markdown").

Definition PostProcess (raw : gostring) (spec : Spec) : result Draft :=
  let md := TrimSpace raw in
  match md with
  | [] => Err empty_output_error
  | _ =>
    let title := extractTitle md in
    let digest := extractDigest md in
    let digest := match digest with [] => defaultDigest md 120 | _ => digest end in
    Ok (mkDraft title digest md [] [])
  end.

End Generator.

(** ** The agent (generator/llm_openai.go)

    [Agent.Generate]: build the prompt (the first one without a previous
    draft, the revision prompt with it), call the language model and
    post-process its answer.  The prompt builders and the model call are
    parameters: what the model answers is not determined by the code. *)

Module AgentModel.
Import GoStrings Generator.

Section Agent.
Context {Prompt : Type}.
Variable BuildInitialPrompt : Spec -> Prompt.
Variable BuildRevisionPrompt : Spec -> Draft -> gostring -> list Turn -> Prompt.
Variable Complete : Prompt -> result gostring.   (** [a.llm.Complete] *)

Definition Generate (spec : Spec) (prevDraft : option Draft) (history : list Turn)
    (comment : gostring) : result Draft :=
  let prompt := match prevDraft with
                | None => BuildInitialPrompt spec
                | Some d => BuildRevisionPrompt spec d comment history
                end in
  match Complete prompt with
  | Err e => Err e
  | Ok raw => PostProcess raw spec
  end.

End Agent.

End AgentModel.

(** ** Publisher (publisher/publisher.go) *)

Module Publisher.
Import GoStrings Regexp.

Definition not_byte (b : Z) : Z -> bool := fun c => negb (c =? b).
Definition any_byte : Z -> bool := fun _ => true.

(** [`!\[[^\]]*\]\(([^)]+)\)`] *)
Definition imgPattern : regex :=
  RCat (RByte 33) (RCat (RByte 91) (RCat (RRep (not_byte 93) 0 true)
    (RCat (RByte 93) (RCat (RByte 40)
      (RCat (RGroup 1 (RRep (not_byte 41) 1 true)) (RByte 41)))))).

(** [`(?s)<tag[^>]*>(.*?)</tag>`] for [tag] = [ol], [ul], [li]. *)
Definition tagRe (tag : string) : regex :=
  lit (s2b "<" ++ s2b tag) (RCat (RRep (not_byte 62) 0 true) (RCat (RByte 62)
    (RCat (RGroup 1 (RRep any_byte 0 false)) (lit (s2b "</" ++ s2b tag) (RByte 62))))).

Definition olRe : regex := tagRe "ol".
Definition ulRe : regex := tagRe "ul".
Definition liRe : regex := tagRe "li".

Definition digit16 (c : Z) : bool := in_range 49 54 c.

(** [`(?s)<h([1-6])[^>]*>(.*?)</h[1-6]>`] *)
Definition hRe : regex :=
  lit (s2b "<h") (RCat (RGroup 1 (RClass digit16)) (RCat (RRep (not_byte 62) 0 true)
    (RCat (RByte 62) (RCat (RGroup 2 (RRep any_byte 0 false))
      (lit (s2b "</h") (RCat (RClass digit16) (RByte 62))))))).

(** The [<ol>] replacement: the [i]-th item (from 1) as [<p>i. text</p>]. *)
Fixpoint ol_paragraphs (i : nat) (items : list (list gostring)) : gostring :=
  match items with
  | [] => []
  | item :: t =>
    s2b "<p>" ++ itoa (S i) ++ s2b ". " ++ TrimSpace (nth 1 item []) ++ s2b "</p>"
    ++ ol_paragraphs (S i) t
  end.

(** "• " : U+2022 and a space. *)
Definition bullet : gostring := [226; 128; 162; 32].

Fixpoint ul_paragraphs (items : list (list gostring)) : gostring :=
  match items with
  | [] => []
  | item :: t =>
    s2b "<p>" ++ bullet ++ TrimSpace (nth 1 item []) ++ s2b "</p>" ++ ul_paragraphs t
  end.

Definition ol_block (block : gostring) : gostring :=
  match FindAllStringSubmatch liRe 1 block with
  | [] => block
  | items => ol_paragraphs 0 items
  end.

Definition ul_block (block : gostring) : gostring :=
  match FindAllStringSubmatch liRe 1 block with
  | [] => block
  | items => ul_paragraphs items
  end.

Definition flattenListsForWeChat (html : gostring) : gostring :=
  let html := ReplaceAllStringFunc olRe html ol_block in
  ReplaceAllStringFunc ulRe html ul_block.

(** The [sizes] map of [convertHeadingsForWeChat]; [""] for a missing key. *)
Definition sizes (k : gostring) : gostring :=
  if streq k (s2b "1") then s2b "24px"
  else if streq k (s2b "2") then s2b "22px"
  else if streq k (s2b "3") then s2b "20px"
  else if streq k (s2b "4") then s2b "18px"
  else if streq k (s2b "5") then s2b "16px"
  else if streq k (s2b "6") then s2b "15px"
  else [].

Definition heading_block (block : gostring) : gostring :=
  let parts := FindStringSubmatch hRe 2 block in
  if negb (length parts =? 3)%nat then block else
  let size := sizes (nth 1 parts []) in
  let size := match size with [] => s2b "18px" | _ => size end in
  let text := TrimSpace (nth 2 parts []) in
  s2b "<p style=" ++ [34] ++ s2b "font-size:" ++ size
  ++ s2b ";font-weight:700;margin:1em 0 0.6em;" ++ [34] ++ s2b ">" ++ text ++ s2b "</p>".

Definition convertHeadingsForWeChat (html : gostring) : gostring :=
  ReplaceAllStringFunc hRe html heading_block.

Definition normalizeForWeChat (html : gostring) : gostring :=
  let html := convertHeadingsForWeChat html in
  flattenListsForWeChat html.

Definition defaultDigest (md : gostring) (limit : nat) : gostring :=
  let compact := Fields md in
  let joined := Join compact [32] in
  if (length joined <=? limit)%nat then joined else firstn limit joined.

End Publisher.

(** ** Image resolution and [PublishDraft] (publisher/publisher.go)

    The calls to the outside world are logged as events, in order.  A Go
    panic (an out-of-range slice) is the outcome [None]. *)

Module Publish.
Import GoStrings Regexp Publisher.

Record PublishParams := mkParams {
  MarkdownPath : gostring;
  PTitle : gostring;
  CoverPath : gostring;
  Author : gostring;
  PDigest : gostring
}.

Record article := mkArticle {
  ATitle : gostring;
  AAuthor : gostring;
  ADigest : gostring;
  AContent : gostring;
  AThumbMediaID : gostring;
  ANeedOpenComment : Z;
  AOnlyFansCanComment : Z
}.

Inductive event :=
| EvUploadContentImage (path : gostring)   (** [uploadContentImage] *)
| EvUploadImage (path : gostring)          (** [uploadImage] (the cover) *)
| EvAddDraft (art : article).              (** [addDraft] *)

(** An outcome ([None]: panic) with the events emitted before it. *)
Definition PM (A : Type) : Type := option (result A) * list event.

Definition pbind {A B} (m : PM A) (f : A -> PM B) : PM B :=
  match m with
  | (Some (Ok a), ev) => let '(r, ev') := f a in (r, ev ++ ev')
  | (Some (Err e), ev) => (Some (Err e), ev)
  | (None, ev) => (None, ev)
  end.

Definition pret {A} (a : A) : PM A := (Some (Ok a), []).
Definition pfail {A} (e : error) : PM A := (Some (Err e), []).

(** [s[i:j]] on the [int] indices of [FindAllStringSubmatchIndex]; [None]
    when Go panics. *)
Definition go_slice (s : gostring) (i j : Z) : option gostring :=
  if (0 <=? i) && (i <=? j) && (j <=? Z.of_nat (length s))
  then Some (slice s (Z.to_nat i) (Z.to_nat j)) else None.

(** [filepath.IsAbs] on Unix. *)
Definition IsAbs (p : gostring) : bool := HasPrefix p (s2b "/").

Section Effects.

(** The file system and the platform, as the program sees them. *)
Variable Stat_ok : gostring -> bool.               (** [os.Stat] succeeds *)
Variable filepath_Join : gostring -> gostring -> gostring.
Variable filepath_Dir : gostring -> gostring.
Variable uploadContentImage : gostring -> result gostring.   (** hosted URL *)
Variable ReadFile : gostring -> result gostring.
Variable mdToHTML : gostring -> result gostring.   (** goldmark *)
Variable uploadImage : gostring -> result gostring.          (** media id *)
Variable addDraft : article -> result gostring.              (** draft id *)

(** The loop of [replaceMarkdownImages]: [last] and [builder] as in Go. *)
Fixpoint img_loop (md baseDir : gostring) (ms : list (list Z)) (last : Z)
    (builder : gostring) : PM gostring :=
  match ms with
  | [] =>
    match go_slice md last (Z.of_nat (length md)) with
    | Some tail => pret (builder ++ tail)
    | None => (None, [])
    end
  | m :: ms' =>
    if (length m <? 4)%nat then img_loop md baseDir ms' last builder else
    let start := nth 2 m 0 in
    let end_ := nth 3 m 0 in
    match go_slice md last start with
    | None => (None, [])
    | Some gap =>
      let builder := builder ++ gap in
      match go_slice md start end_ with
      | None => (None, [])
      | Some ref =>
        let imgRef := TrimSpace ref in
        if HasPrefix imgRef (s2b "http://") || HasPrefix imgRef (s2b "https://") then
          img_loop md baseDir ms' end_ (builder ++ imgRef)
        else if HasPrefix imgRef (s2b "data:") then
          img_loop md baseDir ms' end_ (builder ++ imgRef)
        else
          let localPath :=
            if negb (IsAbs imgRef) && negb (Stat_ok imgRef)
            then filepath_Join baseDir imgRef else imgRef in
          pbind (Some (uploadContentImage localPath), [EvUploadContentImage localPath])
                (fun uploadedURL =>
                   img_loop md baseDir ms' end_ (builder ++ uploadedURL))
      end
    end
  end.

Definition replaceMarkdownImages (md mdPath : gostring) : PM gostring :=
  let matches := FindAllStringSubmatchIndex imgPattern 1 md in
  match matches with
  | [] => pret md
  | _ => img_loop md (filepath_Dir mdPath) matches 0 []
  end.

Definition required_error : error :=
  Error (s2b "markdown path, title, and cover path are required").

Definition PublishDraft (params : PublishParams) : PM gostring :=
  if streq (MarkdownPath params) [] || streq (PTitle params) []
     || streq (CoverPath params) [] then pfail required_error else
  pbind (Some (ReadFile (MarkdownPath params)), []) (fun mdBytes =>
  let finalDigest := match PDigest params with
                     | [] => defaultDigest mdBytes 120
                     | d => d end in
  pbind (replaceMarkdownImages mdBytes (MarkdownPath params)) (fun mdWithImages =>
  pbind (Some (mdToHTML mdWithImages), []) (fun contentHTML =>
  let contentHTML := normalizeForWeChat contentHTML in
  pbind (Some (uploadImage (CoverPath params)), [EvUploadImage (CoverPath params)])
    (fun thumbMediaID =>
  let art := mkArticle (PTitle params) (Author params) finalDigest contentHTML
                       thumbMediaID 0 0 in
  pbind (Some (addDraft art), [EvAddDraft art]) (fun mediaID =>
  pret mediaID))))).

End Effects.

End Publish.

(** ** Session store (server/server.go)

    All operations run under the store's mutex, so they are modelled as
    sequential steps.  [now] is the reading of [time.Now()]; the removed
    files are the log of the [os.Remove] calls of [cleanupUploads], whose
    errors the code ignores.  Go iterates over a map in an unspecified
    order; the model purges in the order of [map_to_list]. *)

Module Store.
Import GoStrings.

Record sessionEntry := mkEntry {
  sess : Session;
  expiresAt : Z;
  uploads : list gostring
}.

Record sessionStore := mkStore {
  sessions : gmap gostring sessionEntry;
  ttl : Z
}.

Record state := mkState {
  store : sessionStore;
  removed : list gostring
}.

(** [newStore]: five minutes, in seconds. *)
Definition newStore : state := mkState (mkStore ∅ 300) [].

Definition with_sessions (st : state) (m : gmap gostring sessionEntry) : state :=
  mkState (mkStore m (ttl (store st))) (removed st).

Definition set (id : gostring) (s : Session) (now : Z) (st : state) : state :=
  with_sessions st (<[id := mkEntry s (now + ttl (store st)) []]> (sessions (store st))).

Definition is_expired (now : Z) (kv : gostring * sessionEntry) : Prop :=
  expiresAt kv.2 < now.

#[global] Instance is_expired_dec (now : Z) (kv : gostring * sessionEntry)
  : Decision (is_expired now kv) := Z.lt_dec (expiresAt kv.2) now.

Definition cleanupUploads (paths : list gostring) (st : state) : state :=
  mkState (store st) (removed st ++ paths).

Definition purgeLocked (now : Z) (st : state) : state :=
  let m := sessions (store st) in
  let expired := filter (is_expired now) (map_to_list m) in
  let st := cleanupUploads (concat (map (fun kv => uploads kv.2) expired)) st in
  with_sessions st (filter (fun kv => ~ is_expired now kv) m).

Definition get (id : gostring) (now : Z) (st : state) : option Session * state :=
  let st := purgeLocked now st in
  match sessions (store st) !! id with
  | None => (None, st)
  | Some e =>
    (Some (sess e),
     with_sessions st (<[id := mkEntry (sess e) (now + ttl (store st)) (uploads e)]>
                         (sessions (store st))))
  end.

Definition heartbeat (id : gostring) (now : Z) (st : state) : bool * state :=
  let st := purgeLocked now st in
  match sessions (store st) !! id with
  | None => (false, st)
  | Some e =>
    (true,
     with_sessions st (<[id := mkEntry (sess e) (now + ttl (store st)) (uploads e)]>
                         (sessions (store st))))
  end.

Definition addUpload (id path : gostring) (st : state) : state :=
  if streq id [] || streq path [] then st else
  match sessions (store st) !! id with
  | None => st
  | Some e =>
    with_sessions st (<[id := mkEntry (sess e) (expiresAt e) (uploads e ++ [path])]>
                        (sessions (store st)))
  end.

Definition deleteLocked (id : gostring) (st : state) : state :=
  match sessions (store st) !! id with
  | None => st
  | Some e =>
    let st := cleanupUploads (uploads e) st in
    with_sessions st (delete id (sessions (store st)))
  end.

Definition delete (id : gostring) (st : state) : state := deleteLocked id st.

Definition purgeExpired (now : Z) (st : state) : state := purgeLocked now st.

(** The calls the server makes on the store, with the time of each. *)
Inductive op :=
| OSet (id : gostring) (s : Session)
| OGet (id : gostring)
| OHeartbeat (id : gostring)
| OAddUpload (id path : gostring)
| ODelete (id : gostring)
| OPurge.                                   (** a tick of the janitor *)

Definition step (st : state) (to : Z * op) : state :=
  let '(now, o) := to in
  match o with
  | OSet id s => set id s now st
  | OGet id => snd (get id now st)
  | OHeartbeat id => snd (heartbeat id now st)
  | OAddUpload id path => addUpload id path st
  | ODelete id => delete id st
  | OPurge => purgeExpired now st
  end.

Definition exec (st : state) (tr : list (Z * op)) : state := fold_left step tr st.

(** The states after each call of [tr]. *)
Fixpoint states (st : state) (tr : list (Z * op)) : list state :=
  match tr with
  | [] => []
  | to :: tr' => let st' := step st to in st' :: states st' tr'
  end.

(** The calls that refresh the entry of [id]: [set], [get], [heartbeat]. *)
Definition is_access (id : gostring) (o : op) : bool :=
  match o with
  | OSet id' _ | OGet id' | OHeartbeat id' => streq id id'
  | _ => false
  end.

End Store.

(** ** Upload file names (server/server.go)

    [sanitizeFilename], with the library functions it calls: Unix
    [filepath.Base] and [strings.ReplaceAll]. *)

Module PathStrings.
Import GoStrings.

(** [strings.Index]: the first position where [sep] occurs in [s]. *)
Fixpoint Index (s sep : gostring) : option nat :=
  if HasPrefix s sep then Some 0%nat else
  match s with
  | [] => None
  | _ :: t => option_map S (Index t sep)
  end.

(** The loop of [strings.Replace(s, old, new, -1)] for a non-empty [old]:
    copy up to the next occurrence of [old], write [new], go on after the
    occurrence.  Every round consumes at least one byte, so [length s + 1]
    rounds suffice. *)
Fixpoint replace_fuel (fuel : nat) (s old new : gostring) : gostring :=
  match fuel with
  | O => s
  | S f =>
    match Index s old with
    | None => s
    | Some j => firstn j s ++ new ++ replace_fuel f (skipn (j + length old) s) old new
    end
  end.

Definition ReplaceAll (s old new : gostring) : gostring :=
  replace_fuel (S (length s)) s old new.

(** On the reversed path: drop the trailing slashes. *)
Fixpoint drop_slashes (r : gostring) : gostring :=
  match r with
  | c :: t => if c =? 47 then drop_slashes t else r
  | [] => []
  end.

(** On the reversed path: the bytes after the last slash. *)
Fixpoint last_elem (r : gostring) : gostring :=
  match r with
  | c :: t => if c =? 47 then [] else c :: last_elem t
  | [] => []
  end.

(** [filepath.Base] on Unix: ["."] for [""], ["/"] for a path of slashes. *)
Definition Base (path : gostring) : gostring :=
  match path with
  | [] => s2b "."
  | _ =>
    match rev (last_elem (drop_slashes (rev path))) with
    | [] => s2b "/"
    | p => p
    end
  end.

Definition sanitizeFilename (name : gostring) : gostring :=
  let name := Base name in
  let name := ReplaceAll name (s2b " ") (s2b "_") in
  ReplaceAll name (s2b "..") [].

End PathStrings.

(** ** Specification-side definitions *)

Module SpecDefs.
Import GoStrings Regexp SessionModel.

(** What a call of [Propose] or [Revise] may do to the session: on success
    append exactly one turn, whose draft becomes the current draft; on
    failure change nothing. *)
Definition generation_outcome (s : Session) (r : result Draft) (s' : Session) : Prop :=
  match r with
  | Ok d => exists t, History s' = History s ++ [t] /\ TDraft t = d /\ SDraft s' = d
  | Err _ => s' = s
  end.

(** A string "empty or made only of whitespace": every rune is a space. *)
Definition all_space (s : gostring) : bool := forallb IsSpace (map fst (chunks s)).

(** Sample agents: one that always answers, one whose model call fails. *)
Definition echo_agent (spec : Spec) (prev : option Draft) (hist : list Turn)
    (comment : gostring) : result Draft :=
  Ok (mkDraft (Topic spec) [] (comment ++ Topic spec) [] []).

Definition failing_agent (spec : Spec) (prev : option Draft) (hist : list Turn)
    (comment : gostring) : result Draft :=
  Err (Error (s2b "timeout")).

Definition sample_spec : Spec := mkSpec (s2b "automation") [] 200 [] [].

(** The title as the spec reads it: the trimmed group of the first line
    that, on its own, matches [^#\s+(.+)$]. *)
Fixpoint first_title_line (lines : list gostring) : gostring :=
  match lines with
  | [] => []
  | l :: t =>
    match FindStringSubmatch Generator.titleRe 1 l with
    | [] => first_title_line t
    | m => TrimSpace (nth 1 m [])
    end
  end.

Definition title_by_lines (md : gostring) : gostring := first_title_line (Split1 md 10).

(** [p] occurs in [s]. *)
Definition contains (s p : gostring) : bool :=
  existsb (fun i => HasPrefix (skipn i s) p) (seq 0 (S (length s))).

(** [s] holds an opening heading tag [<h1] .. [<h6]. *)
Definition has_heading_open (s : gostring) : bool :=
  existsb (fun d => contains s (s2b "<h" ++ [d])) [49; 50; 51; 52; 53; 54].

(** A nested ordered list, as a Markdown renderer writes one. *)
Definition nested_ol : gostring := s2b "<ol><li><ol><li>A</li></ol></li></ol>".

(** A Markdown whose first line is a bare [#]. *)
Definition bare_hash_md : gostring :=
  s2b "#" ++ [10; 10] ++ s2b "Intro" ++ [10] ++ s2b "# Real Title".

(** The digest cut at [limit] characters (runes), as the spec words it. *)
Definition digest_by_chars (md : gostring) (limit : nat) : gostring :=
  concat (map snd (firstn limit (chunks (Join (Fields md) [32])))).

(** "中" in UTF-8, and a Markdown of ["a"] and fifty of them (151 bytes). *)
Definition zhong : gostring := [228; 184; 173].
Definition cjk_md : gostring := s2b "a" ++ concat (repeat zhong 50).

(** Sample file system and platform for [PublishDraft]. *)
Definition stat_none (p : gostring) : bool := false.
Definition join_fx (d p : gostring) : gostring := d ++ s2b "/" ++ p.
Definition dir_fx (p : gostring) : gostring := s2b "posts".
Definition upload_fx (p : gostring) : result gostring :=
  Ok (s2b "https://mmbiz.example/" ++ p).
Definition read_fx (p : gostring) : result gostring := Ok cjk_md.
Definition html_fx (md : gostring) : result gostring := Ok md.
Definition cover_fx (p : gostring) : result gostring := Ok (s2b "media1").
Definition add_fx (a : Publish.article) : result gostring := Ok (s2b "draft1").

Definition cjk_params : Publish.PublishParams :=
  Publish.mkParams (s2b "posts/a.md") (s2b "T") (s2b "cover.png") (s2b "me") [].

(** A string without the byte ['<']: plain text between tags. *)
Definition lt_free (s : gostring) : bool := forallb (fun c => negb (c =? 60)) s.

(** An ordered list as a Markdown renderer writes it: [pre<ol>sep0], then
    [<li>t</li>sep] for every item [(t, sep)], then [</ol>post]. *)
Definition li_items (items : list (gostring * gostring)) : gostring :=
  concat (map (fun '(t, sep) => s2b "<li>" ++ t ++ s2b "</li>" ++ sep) items).

Definition ol_html (pre sep0 : gostring) (items : list (gostring * gostring))
    (post : gostring) : gostring :=
  pre ++ s2b "<ol>" ++ sep0 ++ li_items items ++ s2b "</ol>" ++ post.

(** The paragraphs [<p>n. t</p>], [n] counting from [i + 1]. *)
Fixpoint numbered (i : nat) (ts : list gostring) : gostring :=
  match ts with
  | [] => []
  | t :: ts' =>
    s2b "<p>" ++ itoa (S i) ++ s2b ". " ++ TrimSpace t ++ s2b "</p>" ++ numbered (S i) ts'
  end.

(** The text around and between the tags holds no further tag. *)
Definition plain_list (pre sep0 : gostring) (items : list (gostring * gostring))
    (post : gostring) : bool :=
  lt_free pre && lt_free sep0 && lt_free post
  && forallb (fun '(t, sep) => lt_free t && lt_free sep) items.

(** [q] does not start at any position of [u], whatever follows [u]. *)
Definition avoids (q u : gostring) : Prop :=
  forall w i, (i < length u)%nat -> HasPrefix (skipn i (u ++ w)) q = false.

(** [s] and [q] differ at a position both have. *)
Fixpoint mismatch (s q : gostring) {struct q} : bool :=
  match q, s with
  | [], _ => false
  | c :: q', d :: s' => negb (c =? d) || mismatch s' q'
  | _ :: _, [] => false
  end.

Definition avoid_check (q u : gostring) : bool :=
  forallb (fun i => mismatch (skipn i u) q) (seq 0 (length u)).

(** The spans [[i, j)] of group 1 (the reference between the parentheses)
    of the image references [imgPattern] finds, left to right. *)
Definition img_span (m : nat * nat * caps) : nat * nat :=
  let '(_, _, cp) := m in
  match cp 1%nat with Some (i, j) => (i, j) | None => (0%nat, 0%nat) end.

Definition ref_spans (md : gostring) : list (nat * nat) :=
  map img_span (allMatches Publisher.imgPattern md).

(** [md] cut at the reference spans: the text before each reference (from
    the end of the previous one) and the reference itself. *)
Fixpoint pieces (md : gostring) (last : nat) (spans : list (nat * nat))
    : list (gostring * gostring) :=
  match spans with
  | [] => []
  | (i, j) :: t => (slice md last i, slice md i j) :: pieces md j t
  end.

Fixpoint spans_end (last : nat) (spans : list (nat * nat)) : nat :=
  match spans with
  | [] => last
  | (_, j) :: t => spans_end j t
  end.

Definition img_pieces (md : gostring) : list (gostring * gostring) :=
  pieces md 0 (ref_spans md).

Definition img_tail (md : gostring) : gostring :=
  skipn (spans_end 0 (ref_spans md)) md.

(** A reference already hosted elsewhere. *)
Definition is_absolute (r : gostring) : bool :=
  HasPrefix r (s2b "http://") || HasPrefix r (s2b "https://") || HasPrefix r (s2b "data:").

(** The file a local reference is read from. *)
Definition resolve_path (Stat_ok : gostring -> bool)
    (join : gostring -> gostring -> gostring) (baseDir r : gostring) : gostring :=
  if negb (Publish.IsAbs r) && negb (Stat_ok r) then join baseDir r else r.

(** What a reference becomes: its trimmed text when absolute, else the URL
    the upload returns. *)
Definition resolved (Stat_ok : gostring -> bool) (join : gostring -> gostring -> gostring)
    (upload : gostring -> result gostring) (baseDir ref : gostring) : gostring :=
  let r := TrimSpace ref in
  if is_absolute r then r
  else match upload (resolve_path Stat_ok join baseDir r) with
       | Ok u => u
       | Err _ => []
       end.

(** [md] with every reference span replaced by what it resolves to. *)
Definition rewritten Stat_ok join upload baseDir (md : gostring) : gostring :=
  concat (map (fun '(g, r) => g ++ resolved Stat_ok join upload baseDir r) (img_pieces md))
  ++ img_tail md.

(** One upload per local reference, left to right. *)
Definition upload_events Stat_ok join baseDir (md : gostring) : list Publish.event :=
  map (fun r => Publish.EvUploadContentImage (resolve_path Stat_ok join baseDir (TrimSpace r)))
      (List.filter (fun r => negb (is_absolute (TrimSpace r))) (map snd (img_pieces md))).

(** Matches of [imgPattern] found from [pos] on: each at or after the end
    of the previous one, with its group inside ["]("] and [")"]. *)
Fixpoint img_chain (md : gostring) (pos : nat) (L : list (nat * nat * caps)) : Prop :=
  match L with
  | [] => True
  | (a, e, cp) :: L' =>
    exists i j, cp 1%nat = Some (i, j) /\ (pos <= a)%nat /\ (a + 4 <= i)%nat /\ (i < j)%nat
      /\ e = S j /\ nth_error md (i - 2) = Some 93 /\ nth_error md (i - 1) = Some 40
      /\ nth_error md j = Some 41 /\ img_chain md e L'
  end.

(** A reference with a space before its URL. *)
Definition spaced_md : gostring := s2b "![a]( http://x)".

End SpecDefs.

(** ** The session store over a trace *)
Module StoreDefs.
Import GoStrings Store SessionModel SpecDefs.

(** How many times [tr] registers [id] with [set]: the server registers each
    fresh session id once. *)
Definition set_count (id : gostring) (tr : list (Z * op)) : nat :=
  length (List.filter (fun to => match snd to with
                                 | OSet id' _ => streq id id'
                                 | _ => false end) tr).

(** The upload paths the store holds for [id] in [st]. *)
Definition held_uploads (id : gostring) (st : state) : list gostring :=
  match sessions (store st) !! id with Some e => uploads e | None => [] end.

(** [p] is held for [id] at some point of [tr] run from [newStore]. *)
Definition recorded (id : gostring) (tr : list (Z * op)) (p : gostring) : Prop :=
  exists st, In st (newStore :: states newStore tr) /\ In p (held_uploads id st).

(** A session registered at 0, given an upload at 10 and read at 20. *)
Definition ttl_trace : list (Z * op) :=
  [(0, OSet (s2b "s1") (NewSession (s2b "s1") sample_spec));
   (10, OAddUpload (s2b "s1") (s2b "/tmp/u1.png"));
   (20, OGet (s2b "s1"));
   (200, OGet (s2b "s2"))].

End StoreDefs.

(** ** Definitions for the further properties *)

Module ExtraDefs.
Import GoStrings Regexp Generator Publish Store SessionModel SpecDefs.

(** The digest [PublishDraft] puts into the article. *)
Definition final_digest (params : PublishParams) (md : gostring) : gostring :=
  match PDigest params with [] => Publisher.defaultDigest md 120 | d => d end.

(** An unordered list: [pre<ul>sep0], [<li>t</li>sep] per item, [</ul>post]. *)
Definition ul_html (pre sep0 : gostring) (items : list (gostring * gostring))
    (post : gostring) : gostring :=
  pre ++ s2b "<ul>" ++ sep0 ++ li_items items ++ s2b "</ul>" ++ post.

(** The paragraphs [<p>• t</p>]. *)
Fixpoint bulleted (ts : list gostring) : gostring :=
  match ts with
  | [] => []
  | t :: ts' => s2b "<p>" ++ Publisher.bullet ++ TrimSpace t ++ s2b "</p>" ++ bulleted ts'
  end.

(** A line [extractDigest] takes: neither a heading nor blank once trimmed. *)
Definition digest_line (l : gostring) : bool :=
  negb (HasPrefix (TrimSpace l) (s2b "#")) && negb (streq (TrimSpace l) []).

(** A draft made from the model output [raw]: the trimmed output, never
    empty, its title from [extractTitle], title and digest on one line. *)
Definition model_draft (raw : gostring) (d : Draft) : Prop :=
  Markdown d = TrimSpace raw /\ Markdown d <> [] /\
  Title d = extractTitle (Markdown d) /\ ~ In 10 (Title d) /\ ~ In 10 (Digest d).

(** A decoded rune whose bytes include an ASCII byte is that byte. *)
Definition ascii_rune (c : Z * gostring) : Prop :=
  forall x, In x (snd c) -> x < 128 -> fst c = x.

(** No ASCII byte of [f] is a space. *)
Definition no_ascii_space (f : gostring) : Prop :=
  forall x, In x f -> x < 128 -> IsSpace x = false.

(** No two consecutive dots. *)
Definition no_dotdot (r : gostring) : Prop :=
  forall i, nth_error r i = Some 46 -> nth_error r (S i) <> Some 46.

(** Closes a goal [exists ps rest, evs = map EvUploadContentImage ps ++ rest /\ ...]
    on its first conjunct. *)
Ltac close_events ps rest :=
  exists ps, rest; split; [cbn [snd app]; rewrite ?app_nil_r; reflexivity|].

(** A heading [pre<hd>body</hd'>post] as a Markdown renderer writes one. *)
Definition h_html (pre : gostring) (d : Z) (body : gostring) (d' : Z) (post : gostring)
    : gostring :=
  pre ++ s2b "<h" ++ [d] ++ [62] ++ body ++ s2b "</h" ++ [d'] ++ [62] ++ post.

(** The paragraph [convertHeadingsForWeChat] writes for a heading. *)
Definition styled_p (size text : gostring) : gostring :=
  s2b "<p style=" ++ [34] ++ s2b "font-size:" ++ size
  ++ s2b ";font-weight:700;margin:1em 0 0.6em;" ++ [34] ++ s2b ">" ++ text ++ s2b "</p>".

(** Fixtures: a session registered at 0, then given an upload. *)
Definition sess_fx : Session := NewSession (s2b "s1") sample_spec.
Definition store_fx : state := set (s2b "s1") sess_fx 0 newStore.
Definition upload_store_fx : state := addUpload (s2b "s1") (s2b "/tmp/u1.png") store_fx.

(** Fixtures: a file system without the images, a Markdown file with two
    local images, and services that succeed (or an upload that fails). *)
Definition pub_stat_fx (p : gostring) : bool := false.
Definition pub_join_fx (a b : gostring) : gostring := a ++ s2b "/" ++ b.
Definition pub_dir_fx (p : gostring) : gostring := s2b "docs".
Definition upload_ok_fx (p : gostring) : result gostring := Ok (s2b "https://cdn/" ++ p).
Definition upload_err_fx (p : gostring) : result gostring := Err (Error (s2b "quota")).
Definition img_md_fx : gostring := s2b "![a](x.png) ![b](y.png)".
Definition img_md_out_fx : gostring :=
  s2b "![a](https://cdn/docs/x.png) ![b](https://cdn/docs/y.png)".
Definition pub_read_fx (p : gostring) : result gostring := Ok img_md_fx.
Definition pub_html_fx (m : gostring) : result gostring := Ok (s2b "<p>" ++ m ++ s2b "</p>").
Definition pub_cover_fx (p : gostring) : result gostring := Ok (s2b "thumb1").
Definition pub_add_fx (a : article) : result gostring := Ok (s2b "draft1").
Definition params_fx : PublishParams :=
  mkParams (s2b "docs/a.md") (s2b "Title") (s2b "cover.jpg") (s2b "me") [].

(** Fixtures: prompts as strings and a model that answers a fixed text. *)
Definition complete_fx (p : gostring) : result gostring :=
  Ok (s2b "# T" ++ [10; 10] ++ s2b "Hello world").
Definition bi_fx (spec : Spec) : gostring := Topic spec.
Definition br_fx (spec : Spec) (d : Draft) (c : gostring) (h : list Turn) : gostring := c.

End ExtraDefs.

Module DocDefs.
Import GoStrings Regexp Publisher SpecDefs ExtraDefs.

(** The two list tags [flattenListsForWeChat] rewrites. *)
Inductive list_kind := KOl | KUl.

Definition kind_tag (k : list_kind) : string :=
  match k with KOl => "ol" | KUl => "ul" end.

Definition kind_eqb (k k' : list_kind) : bool :=
  match k, k' with KOl, KOl | KUl, KUl => true | _, _ => false end.

(** [<tag attrs>body</tag>]. *)
Definition tag_block (tag : string) (attrs body : gostring) : gostring :=
  s2b "<" ++ s2b tag ++ attrs ++ [62] ++ body ++ s2b "</" ++ s2b tag ++ [62].

(** A list [<tag attrs>sep0<li>t</li>sep...</tag>] and the text after it, up
    to the next list. *)
Record list_block := mkList {
  lkind : list_kind;
  lattrs : gostring;
  lsep0 : gostring;
  litems : list (gostring * gostring);
  ltext : gostring
}.

Definition list_html (b : list_block) : gostring :=
  tag_block (kind_tag (lkind b)) (lattrs b) (lsep0 b ++ li_items (litems b)).

(** An HTML document: the text [pre], then lists, each followed by text. *)
Definition doc_html (pre : gostring) (bs : list list_block) : gostring :=
  pre ++ concat (map (fun b => list_html b ++ ltext b) bs).

(** What becomes of one list: its paragraphs, or itself when it has no item. *)
Definition list_out (b : list_block) : gostring :=
  match litems b with
  | [] => list_html b
  | items =>
    match lkind b with
    | KOl => numbered 0 (map fst items)
    | KUl => bulleted (map fst items)
    end
  end.

Definition doc_out (pre : gostring) (bs : list list_block) : gostring :=
  pre ++ concat (map (fun b => list_out b ++ ltext b) bs).

(** Text that holds no [<ol] and no [<ul]. *)
Definition no_list_tag (s : gostring) : bool :=
  negb (contains s (s2b "<ol")) && negb (contains s (s2b "<ul")).

(** A list whose attributes, separators and items hold no tag, followed by
    text that opens no list. *)
Definition flat_list (b : list_block) : bool :=
  forallb (fun c => negb (c =? 60) && negb (c =? 62)) (lattrs b) && lt_free (lsep0 b)
  && forallb (fun '(t, sep) => lt_free t && lt_free sep) (litems b)
  && no_list_tag (ltext b).

Definition flat_doc (pre : gostring) (bs : list list_block) : bool :=
  no_list_tag pre && forallb flat_list bs.

(** [q] does not start at a position of [u] when [u] is followed by nothing
    or by a tag. *)
Definition avoids_lt (q u : gostring) : Prop :=
  forall w i, (w = [] \/ exists w', w = 60 :: w') -> (i < length u)%nat ->
  HasPrefix (skipn i (u ++ w)) q = false.

(** The document cut at the lists of kind [k]: the text before the first
    one, then each one's attributes, body and the text up to the next one;
    a list of the other kind is written as [rf] makes it. *)
Fixpoint segs_of (k : list_kind) (rf : list_block -> gostring) (pre : gostring)
    (bs : list list_block) : gostring * list (gostring * gostring * gostring) :=
  match bs with
  | [] => (pre, [])
  | b :: bs' =>
    if kind_eqb (lkind b) k then
      let '(t, segs) := segs_of k rf (ltext b) bs' in
      (pre, (lattrs b, lsep0 b ++ li_items (litems b), t) :: segs)
    else segs_of k rf (pre ++ rf b ++ ltext b) bs'
  end.

(** A segment [(attrs, body, t)] the pass on [tag] replaces as a whole. *)
Definition seg_ok (tag : string) (sg : gostring * gostring * gostring) : Prop :=
  let '(a, body, t) := sg in
  forallb (fun c => negb (c =? 62)) a = true
  /\ avoids (s2b "</" ++ s2b tag ++ [62]) body /\ avoids_lt (s2b "<" ++ s2b tag) t.

Definition segs_render (tag : string) (g : gostring -> gostring)
    (segs : list (gostring * gostring * gostring)) : gostring :=
  concat (map (fun '(a, body, t) => g (tag_block tag a body) ++ t) segs).

Definition doc_fx_pre : gostring := s2b "<h2>Intro</h2>".
Definition doc_fx_bs : list list_block :=
  [mkList KOl [] [10] [(s2b "A", [10]); (s2b " B ", [])] (s2b "<p>mid</p>");
   mkList KUl (s2b " class=x") [] [(s2b "C", [])] [];
   mkList KOl [] [] [] (s2b "end")].

End DocDefs.

(** * Properties *)

Module SessionProps.
Import SessionModel SpecDefs.

Lemma Propose_outcome G s now :
  let '(r, s') := Propose G s now in generation_outcome s r s'.
Proof.
  unfold Propose. destruct (G (SSpec s) None (History s) []) as [d|e]; cbn.
  - exists (mkTurn shougao d shougao now). auto.
  - reflexivity.
Qed.

Lemma Revise_outcome G s c now :
  let '(r, s') := Revise G s c now in generation_outcome s r s'.
Proof.
  unfold Revise. destruct (G (SSpec s) (Some (SDraft s)) (History s) c) as [d|e]; cbn.
  - exists (mkTurn c d xiuding now). auto.
  - reflexivity.
Qed.

(** C1: when the agent's call fails, [Propose] and [Revise] return that
    error and leave the session exactly as it was; a session without a
    draft stays without one. *)
Theorem generation_failure_keeps_session :
  forall (G : Spec -> option Draft -> list Turn -> gostring -> result Draft)
         (s : Session) (comment : gostring) (now : Z) (e : error),
    (G (SSpec s) None (History s) [] = Err e ->
       Propose G s now = (Err e, s) /\
       (SDraft s = zero_draft -> SDraft (snd (Propose G s now)) = zero_draft)) /\
    (G (SSpec s) (Some (SDraft s)) (History s) comment = Err e ->
       Revise G s comment now = (Err e, s)).
Proof.
  intros G s comment now e. split.
  - intro H. unfold Propose. rewrite H. auto.
  - intro H. unfold Revise. rewrite H. reflexivity.
Qed.

Lemma generation_failure_keeps_session_witness :
  Propose failing_agent (NewSession (s2b "s1") sample_spec) 0
    = (Err (Error (s2b "timeout")), NewSession (s2b "s1") sample_spec) /\
  Revise failing_agent (NewSession (s2b "s1") sample_spec) (s2b "more") 0
    = (Err (Error (s2b "timeout")), NewSession (s2b "s1") sample_spec).
Proof.
  split.
  - apply (generation_failure_keeps_session failing_agent
             (NewSession (s2b "s1") sample_spec) (s2b "more") 0
             (Error (s2b "timeout"))). reflexivity.
  - apply (generation_failure_keeps_session failing_agent
             (NewSession (s2b "s1") sample_spec) (s2b "more") 0
             (Error (s2b "timeout"))). reflexivity.
Defined.

(** C2: [Propose] and [Revise] only ever append one turn (and only on
    success), and right after a success the current draft is the draft of
    the turn just appended; [Propose] then one successful [Revise] on a new
    session gives a history of length 2 whose second turn holds the
    current draft. *)
Theorem history_append_only :
  forall (G : Spec -> option Draft -> list Turn -> gostring -> result Draft),
    (forall s now, let '(r, s') := Propose G s now in generation_outcome s r s') /\
    (forall s c now, let '(r, s') := Revise G s c now in generation_outcome s r s') /\
    (forall id spec now1 c now2 d1 s1 d2 s2,
       Propose G (NewSession id spec) now1 = (Ok d1, s1) ->
       Revise G s1 c now2 = (Ok d2, s2) ->
       length (History s2) = 2%nat /\
       exists t, nth_error (History s2) 1 = Some t /\ TDraft t = SDraft s2).
Proof.
  intros G. split; [|split].
  - apply Propose_outcome.
  - apply Revise_outcome.
  - intros id spec now1 c now2 d1 s1 d2 s2 H1 H2.
    pose proof (Propose_outcome G (NewSession id spec) now1) as P.
    rewrite H1 in P. destruct P as (t1 & Hh1 & _ & _).
    pose proof (Revise_outcome G s1 c now2) as R.
    rewrite H2 in R. destruct R as (t2 & Hh2 & Ht2 & Hd2).
    cbn in Hh1. rewrite Hh2, Hh1. cbn. split; [reflexivity|].
    exists t2. split; [reflexivity|]. congruence.
Qed.

Lemma history_append_only_witness :
  exists d1 s1 d2 s2,
    Propose echo_agent (NewSession (s2b "s1") sample_spec) 1 = (Ok d1, s1) /\
    Revise echo_agent s1 (s2b "shorter") 2 = (Ok d2, s2) /\
    length (History s2) = 2%nat /\
    exists t, nth_error (History s2) 1 = Some t /\ TDraft t = SDraft s2.
Proof.
  do 4 eexists. split; [reflexivity|]. split; [reflexivity|].
  eapply (proj2 (proj2 (history_append_only echo_agent))
           (s2b "s1") sample_spec 1 (s2b "shorter") 2); reflexivity.
Defined.

End SessionProps.

Module PostProcessProps.
Import GoStrings Regexp Generator SpecDefs.

Lemma DecodeRune_width b t : (1 <= snd (DecodeRune (b :: t)) <= 4)%nat.
Proof.
  unfold DecodeRune.
  repeat match goal with
         | |- context [if ?c then _ else _] => destruct c
         | |- context [match ?t with _ => _ end] => destruct t
         end; cbn; lia.
Qed.

Lemma chunks_fuel_nonempty f s :
  Forall (fun c => snd c <> []) (chunks_fuel f s).
Proof.
  revert s. induction f as [|f IH]; intros s; cbn; [constructor|].
  destruct s as [|b t]; [constructor|].
  destruct (DecodeRune (b :: t)) as [r w] eqn:E.
  constructor; [|apply IH].
  pose proof (DecodeRune_width b t) as W. rewrite E in W. cbn in *.
  destruct w as [|w]; [lia|]. cbn. discriminate.
Qed.

Lemma drop_space_suffix l : exists p, l = p ++ drop_space l.
Proof.
  induction l as [|[r b] t IH]; cbn; [exists []; reflexivity|].
  destruct (IsSpace r).
  - destruct IH as [p Hp]. exists ((r, b) :: p). cbn. congruence.
  - exists []. reflexivity.
Qed.

Lemma drop_space_nil l :
  drop_space l = [] <-> forallb (fun c => IsSpace (fst c)) l = true.
Proof.
  induction l as [|[r b] t IH]; cbn; [tauto|].
  destruct (IsSpace r); cbn; [exact IH|].
  split; discriminate.
Qed.

Lemma drop_space_head l c r :
  drop_space l = c :: r -> IsSpace (fst c) = false.
Proof.
  induction l as [|[r0 b] t IH]; cbn; [discriminate|].
  destruct (IsSpace r0) eqn:E; [exact IH|].
  intros H. injection H as <- _. exact E.
Qed.

Lemma forallb_map_fst (f : Z -> bool) (l : list (Z * gostring)) :
  forallb f (map fst l) = forallb (fun c => f (fst c)) l.
Proof. induction l as [|c t IH]; cbn; congruence. Qed.

Lemma concat_nonempty (l : list (Z * gostring)) :
  Forall (fun c => snd c <> []) l -> l <> [] -> concat (map snd l) <> [].
Proof.
  intros HF Hl. destruct l as [|c t]; [congruence|].
  inversion HF; subst. cbn. intros H. apply app_eq_nil in H. tauto.
Qed.

Lemma TrimSpace_nil s : TrimSpace s = [] <-> all_space s = true.
Proof.
  unfold TrimSpace, all_space. rewrite forallb_map_fst.
  pose proof (chunks_fuel_nonempty (length s) s) as HF. fold (chunks s) in HF.
  destruct (drop_space (chunks s)) as [|c r] eqn:E.
  - cbn. rewrite <- drop_space_nil. tauto.
  - split.
    + intros H. exfalso. revert H. apply concat_nonempty.
      * apply Forall_rev.
        destruct (drop_space_suffix (rev (c :: r))) as [p Hp].
        assert (Forall (fun c => snd c <> []) (rev (c :: r))) as HR.
        { apply Forall_rev. destruct (drop_space_suffix (chunks s)) as [q Hq].
          rewrite E in Hq. rewrite Hq in HF. apply Forall_app in HF. tauto. }
        rewrite Hp in HR. apply Forall_app in HR. tauto.
      * intros H. apply (f_equal (@rev _)) in H. rewrite rev_involutive in H.
        cbn in H. apply drop_space_nil in H.
        rewrite forallb_app in H. apply andb_prop in H. destruct H as [_ H].
        cbn in H. rewrite (drop_space_head _ _ _ E) in H. discriminate.
    + intros H. apply drop_space_nil in H. congruence.
Qed.

(** C7: [PostProcess] fails with the empty-output error exactly when the
    raw output is empty or made only of whitespace runes, and succeeds on
    every other output. *)
Theorem postprocess_rejects_only_blank :
  forall (raw : gostring) (spec : Spec),
    (all_space raw = true -> PostProcess raw spec = Err empty_output_error) /\
    (all_space raw = false -> exists d, PostProcess raw spec = Ok d).
Proof.
  intros raw spec. unfold PostProcess. split.
  - intros H. apply TrimSpace_nil in H. rewrite H. reflexivity.
  - intros H. destruct (TrimSpace raw) as [|b t] eqn:E.
    + apply TrimSpace_nil in E. congruence.
    + eexists. reflexivity.
Qed.

Lemma postprocess_rejects_only_blank_witness :
  PostProcess (s2b "  " ++ [10; 9] ++ [227; 128; 128]) sample_spec
    = Err empty_output_error /\
  exists d, PostProcess (s2b " # Title ") sample_spec = Ok d.
Proof.
  split.
  - apply (postprocess_rejects_only_blank (s2b "  " ++ [10; 9] ++ [227; 128; 128])
             sample_spec). vm_compute. reflexivity.
  - apply (postprocess_rejects_only_blank (s2b " # Title ") sample_spec).
    vm_compute. reflexivity.
Defined.

End PostProcessProps.

Module RegexpProps.
Import GoStrings Regexp SpecDefs.

Lemma first_some_Some {A} (f : nat -> option A) l x :
  first_some f l = Some x -> exists j, In j l /\ f j = Some x.
Proof.
  induction l as [|j l IH]; cbn; [discriminate|].
  destruct (f j) eqn:E.
  - intros H. injection H as <-. eauto.
  - intros H. destruct (IH H) as (j' & Hin & Hj). eauto.
Qed.

Lemma skipn_nth_error (s : gostring) i d :
  nth_error s i = Some d -> skipn i s = d :: skipn (S i) s.
Proof.
  revert i. induction s as [|c t IH]; intros [|i]; cbn; try discriminate.
  - intros H. injection H as ->. reflexivity.
  - apply IH.
Qed.

(** A match of [lit p r] at [pos] starts with the bytes [p]. *)
Lemma mt_lit_prefix {A} inp p r pos cp (k : nat -> caps -> option A) x :
  mt inp (lit p r) pos cp k = Some x ->
  HasPrefix (skipn pos inp) p = true /\
  mt inp r (pos + length p)%nat cp k = Some x.
Proof.
  revert pos. induction p as [|b p IH]; intros pos; cbn.
  - rewrite Nat.add_0_r. intros H. split; [reflexivity|exact H].
  - destruct (nth_error inp pos) as [d|] eqn:E; [|discriminate].
    destruct (b =? d) eqn:Eb; [|discriminate].
    intros H. destruct (IH _ H) as [H1 H2].
    rewrite (skipn_nth_error _ _ _ E). cbn. rewrite Eb, H1.
    split; [reflexivity|]. rewrite <- H2. f_equal. lia.
Qed.

Lemma search_n_none r inp n pos :
  (forall i, (pos <= i)%nat -> match_at r inp i = None) -> search_n r inp n pos = None.
Proof.
  revert pos. induction n as [|n IH]; intros pos H; cbn; [reflexivity|].
  rewrite (H pos (le_n _)). apply IH. intros i Hi. apply H. lia.
Qed.

Lemma contains_false_no_prefix s p i :
  contains s p = false -> p <> [] -> HasPrefix (skipn i s) p = false.
Proof.
  intros H Hp. unfold contains in H.
  destruct (Nat.le_gt_cases i (length s)) as [Hi|Hi].
  - destruct (HasPrefix (skipn i s) p) eqn:E; [|reflexivity].
    exfalso. assert (existsb (fun i => HasPrefix (skipn i s) p) (seq 0 (S (length s))) = true)
      as C; [|congruence].
    apply existsb_exists. exists i. split; [apply in_seq; lia|exact E].
  - rewrite skipn_all2 by lia. destruct p; [congruence|reflexivity].
Qed.

(** A pattern that starts with the literal [p] finds nothing in a string
    without [p]. *)
Lemma search_lit_absent p r inp pos :
  contains inp p = false -> p <> [] -> search (lit p r) inp pos = None.
Proof.
  intros Hc Hp. unfold search. apply search_n_none. intros i _.
  unfold match_at. destruct (mt inp (lit p r) i nocaps _) eqn:E; [|reflexivity].
  apply mt_lit_prefix in E. destruct E as [E _].
  rewrite (contains_false_no_prefix _ _ i Hc Hp) in E. discriminate.
Qed.

Lemma ReplaceAll_no_match r src f :
  search r src 0 = None -> ReplaceAllStringFunc r src f = src.
Proof.
  intros H. unfold ReplaceAllStringFunc. cbn [repl_n].
  replace (length src <? 0)%nat with false by (symmetry; apply Nat.ltb_ge; lia).
  rewrite H. reflexivity.
Qed.

End RegexpProps.

Module NormalizeProps.
Import GoStrings Regexp Publisher SpecDefs RegexpProps.

Lemma HasPrefix_snoc s i p d :
  HasPrefix (skipn i s) p = true -> nth_error s (i + length p)%nat = Some d ->
  HasPrefix (skipn i s) (p ++ [d]) = true.
Proof.
  revert i. induction p as [|b p IH]; intros i H1 H2; cbn in *.
  - rewrite Nat.add_0_r in H2. rewrite (skipn_nth_error _ _ _ H2). cbn.
    rewrite Z.eqb_refl. reflexivity.
  - destruct (skipn i s) as [|c t] eqn:E; [discriminate|].
    apply andb_prop in H1. destruct H1 as [Hb H1].
    assert (skipn (S i) s = t) as Et.
    { rewrite <- (skipn_skipn 1 i), E. reflexivity. }
    rewrite Hb. cbn. rewrite <- Et. apply IH; [congruence|].
    rewrite <- H2. f_equal. lia.
Qed.

Lemma tag_search_absent tag (inp : gostring) pos :
  contains inp (s2b "<" ++ s2b tag) = false ->
  search (tagRe tag) inp pos = None.
Proof.
  intros H. apply search_lit_absent; [exact H|]. cbn. discriminate.
Qed.

Lemma heading_search_absent (inp : gostring) pos :
  has_heading_open inp = false -> search hRe inp pos = None.
Proof.
  intros H. unfold search. apply search_n_none. intros i _.
  unfold match_at. destruct (mt inp hRe i nocaps _) eqn:E; [|reflexivity].
  exfalso. apply mt_lit_prefix in E. destruct E as [E1 E2]. cbn in E2.
  destruct (nth_error inp (i + 2)%nat) as [d|] eqn:Ed; [|discriminate].
  destruct (digit16 d) eqn:Dd; [|discriminate].
  pose proof (HasPrefix_snoc inp i (s2b "<h") d E1 Ed) as P.
  assert (In d [49; 50; 51; 52; 53; 54]) as Hin.
  { unfold digit16, in_range in Dd. apply andb_prop in Dd.
    destruct Dd as [D1 D2]. apply Z.leb_le in D1, D2. cbn. lia. }
  assert (has_heading_open inp = true) as C; [|congruence].
  unfold has_heading_open. apply existsb_exists. exists d. split; [exact Hin|].
  unfold contains. apply existsb_exists. exists i. split; [|exact P].
  apply in_seq. split; [lia|].
  assert (i + 2 < length inp)%nat as L; [|lia].
  apply nth_error_Some. congruence.
Qed.

(** C4, as the code behaves: on the nested ordered list
    [<ol><li><ol><li>A</li></ol></li></ol>] the first run of
    [normalizeForWeChat] ends the outer block at the first [</ol>] and
    leaves an inner [<ol>]; a second run rewrites it again, so the
    normalization is not idempotent. *)
Lemma normalize_not_idempotent :
  normalizeForWeChat nested_ol = s2b "<p>1. <ol><li>A</p></li></ol>"
  /\ normalizeForWeChat (normalizeForWeChat nested_ol) = s2b "<p>1. <p>1. A</p></p>"
  /\ normalizeForWeChat (normalizeForWeChat nested_ol) <> normalizeForWeChat nested_ol.
Proof. split; [|split]; vm_compute; [reflexivity|reflexivity|discriminate]. Qed.

End NormalizeProps.

Module TitleProps.
Import GoStrings Regexp Generator SpecDefs.

(** C6, at a concrete input: after a bare [#] line the title pattern's
    [\s+] runs over the line break, so the title is the next non-blank
    line ["Intro"], while the first line that matches the pattern on its
    own is ["# Real Title"]. *)
Theorem title_crosses_line_break :
  extractTitle bare_hash_md = s2b "Intro" /\
  title_by_lines bare_hash_md = s2b "Real Title" /\
  exists d, PostProcess bare_hash_md sample_spec = Ok d /\ Title d = s2b "Intro".
Proof.
  split; [vm_compute; reflexivity|]. split; [vm_compute; reflexivity|].
  eexists. split; [vm_compute; reflexivity|]. vm_compute. reflexivity.
Qed.

End TitleProps.

Module DigestProps.
Import GoStrings Publisher Publish SpecDefs.

(** C5, at a concrete input: with no caller digest, [PublishDraft] sends
    the first 120 bytes of the joined Markdown, which cut the 40th "中" in
    two (a [RuneError] when decoded); the first 120 characters are the
    whole 51-character text. *)
Theorem publish_digest_cuts_bytes :
  exists art,
    In (EvAddDraft art)
       (snd (PublishDraft stat_none join_fx dir_fx upload_fx read_fx html_fx
               cover_fx add_fx cjk_params)) /\
    ADigest art = firstn 120 cjk_md /\
    In RuneError (map fst (chunks (ADigest art))) /\
    length (chunks cjk_md) = 51%nat /\
    digest_by_chars cjk_md 120 = cjk_md /\
    ADigest art <> digest_by_chars cjk_md 120.
Proof.
  eexists. split.
  - vm_compute. right. left. reflexivity.
  - vm_compute. split; [reflexivity|]. split; [auto 50|].
    split; [reflexivity|]. split; [reflexivity|]. discriminate.
Qed.

End DigestProps.

Module EngineProps.
Import GoStrings Regexp RegexpProps.

Lemma nth_error_skipn_cons (s : gostring) i d t :
  skipn i s = d :: t -> nth_error s i = Some d /\ skipn (S i) s = t.
Proof.
  revert i. induction s as [|c s IH]; intros [|i]; cbn; try discriminate.
  - intros H. injection H as -> ->. auto.
  - apply IH.
Qed.

Lemma mt_lit_ok {A} inp q r pos cp (k : nat -> caps -> option A) :
  HasPrefix (skipn pos inp) q = true ->
  mt inp (lit q r) pos cp k = mt inp r (pos + length q)%nat cp k.
Proof.
  revert pos. induction q as [|b q IH]; intros pos H; cbn.
  - rewrite Nat.add_0_r. reflexivity.
  - cbn in H. destruct (skipn pos inp) as [|d t] eqn:E; [discriminate|].
    apply andb_prop in H. destruct H as [Hb H].
    apply nth_error_skipn_cons in E. destruct E as [E1 E2].
    rewrite E1, Hb. rewrite IH by congruence. f_equal. lia.
Qed.

Lemma mt_lit_fail {A} inp q r pos cp (k : nat -> caps -> option A) :
  HasPrefix (skipn pos inp) q = false -> mt inp (lit q r) pos cp k = None.
Proof.
  intros H. destruct (mt inp (lit q r) pos cp k) eqn:E; [|reflexivity].
  apply mt_lit_prefix in E. destruct E as [E _]. congruence.
Qed.

Lemma first_some_seq_at {A} (f : nat -> option A) J :
  forall m len x,
  (J < len)%nat -> (forall j, (j < J)%nat -> f (m + j)%nat = None) ->
  f (m + J)%nat = Some x -> first_some f (seq m len) = Some x.
Proof.
  induction J as [|J IH]; intros m len x Hl Hn Hx.
  - destruct len as [|len]; [lia|]. cbn. rewrite Nat.add_0_r in Hx. now rewrite Hx.
  - destruct len as [|len]; [lia|]. cbn.
    assert (Hm : f m = None) by (rewrite <- (Nat.add_0_r m); apply Hn; lia).
    rewrite Hm.
    apply (IH (S m) len x); [lia| |].
    + intros j Hj. rewrite <- (Hn (S j)) by lia. f_equal. lia.
    + rewrite <- Hx. f_equal. lia.
Qed.

Lemma run_len_any (s : gostring) : run_len (fun _ => true) s = length s.
Proof. induction s; cbn; congruence. Qed.

Lemma search_n_at r inp n pos a e cp :
  (pos <= a)%nat -> (a - pos < n)%nat ->
  (forall i, (pos <= i < a)%nat -> match_at r inp i = None) ->
  match_at r inp a = Some (e, cp) ->
  search_n r inp n pos = Some (a, e, cp).
Proof.
  revert pos. induction n as [|n IH]; intros pos H1 H2 H3 H4; [lia|]. cbn.
  destruct (Nat.eq_dec pos a) as [->|Hne]; [rewrite H4; reflexivity|].
  rewrite H3 by lia. apply IH; [lia|lia| |exact H4].
  intros i Hi. apply H3. lia.
Qed.

Lemma search_at r inp pos a e cp :
  (pos <= a)%nat -> (a <= length inp)%nat ->
  (forall i, (pos <= i < a)%nat -> match_at r inp i = None) ->
  match_at r inp a = Some (e, cp) ->
  search r inp pos = Some (a, e, cp).
Proof. intros. unfold search. apply search_n_at; auto. lia. Qed.

Lemma search_n_Some r inp n pos a e cp :
  search_n r inp n pos = Some (a, e, cp) ->
  (pos <= a)%nat /\ match_at r inp a = Some (e, cp).
Proof.
  revert pos. induction n as [|n IH]; intros pos; cbn; [discriminate|].
  destruct (match_at r inp pos) as [[e' cp']|] eqn:E.
  - intros H. injection H as <- <- <-. auto.
  - intros H. destruct (IH _ H). split; [lia|auto].
Qed.

Lemma search_Some r inp pos a e cp :
  search r inp pos = Some (a, e, cp) ->
  (pos <= a)%nat /\ match_at r inp a = Some (e, cp).
Proof. apply search_n_Some. Qed.

Lemma DecodeRune_width_le s : (snd (DecodeRune s) <= 4)%nat.
Proof.
  destruct s as [|b t]; [cbn; lia|].
  pose proof (PostProcessProps.DecodeRune_width b t). lia.
Qed.

(** One round of [allMatches] that finds a non-empty match. *)
Lemma all_n_step r inp n pos prev a e cp :
  (pos <= length inp)%nat -> search r inp pos = Some (a, e, cp) -> (pos < e)%nat ->
  all_n r inp (S n) pos prev = (a, e, cp) :: all_n r inp n e (Some e).
Proof.
  intros H1 H2 H3. cbn [all_n].
  replace (length inp <? pos)%nat with false by (symmetry; apply Nat.ltb_ge; lia).
  rewrite H2. replace (e =? pos)%nat with false by (symmetry; apply Nat.eqb_neq; lia).
  reflexivity.
Qed.

Lemma all_n_none r inp n pos prev :
  search r inp pos = None -> all_n r inp n pos prev = [].
Proof.
  intros H. destruct n; cbn [all_n]; [reflexivity|].
  destruct (length inp <? pos)%nat; [reflexivity|]. rewrite H. reflexivity.
Qed.

(** One round of [replaceAll] that finds a match of at least four bytes
    (longer than any rune) starting at or after the search position. *)
Lemma repl_n_step r src f n sp buf a e cp :
  (sp <= length src)%nat -> search r src sp = Some (a, e, cp) ->
  (sp <= a)%nat -> (a + 4 <= e)%nat ->
  repl_n r src f (S n) sp sp buf
  = repl_n r src f n e e (buf ++ slice src sp a ++ f (slice src a e)).
Proof.
  intros H1 H2 H3 H4. cbn [repl_n].
  replace (length src <? sp)%nat with false by (symmetry; apply Nat.ltb_ge; lia).
  rewrite H2.
  replace ((sp <? e)%nat || (a =? 0)%nat) with true
    by (symmetry; apply orb_true_intro; left; apply Nat.ltb_lt; lia).
  pose proof (DecodeRune_width_le (skipn sp src)) as W. unfold width_at.
  replace (e <? sp + snd (DecodeRune (skipn sp src)))%nat with false
    by (symmetry; apply Nat.ltb_ge; lia).
  replace (e <? sp + 1)%nat with false by (symmetry; apply Nat.ltb_ge; lia).
  rewrite app_assoc. reflexivity.
Qed.

Lemma repl_n_none r src f n sp last buf :
  search r src sp = None -> repl_n r src f n sp last buf = buf ++ skipn last src.
Proof.
  intros H. destruct n; cbn [repl_n]; [reflexivity|].
  destruct (length src <? sp)%nat; [reflexivity|]. rewrite H. reflexivity.
Qed.

End EngineProps.

Module ListProps.
Import GoStrings Regexp Publisher SpecDefs RegexpProps NormalizeProps EngineProps.

Lemma mismatch_sound s q w : mismatch s q = true -> HasPrefix (s ++ w) q = false.
Proof.
  revert s. induction q as [|c q IH]; intros [|d s]; cbn; try discriminate.
  destruct (c =? d); cbn; [apply IH|reflexivity].
Qed.

Lemma avoid_check_sound q u : avoid_check q u = true -> avoids q u.
Proof.
  unfold avoid_check, avoids. rewrite forallb_forall. intros H w i Hi.
  rewrite skipn_app. replace (i - length u)%nat with 0%nat by lia. cbn [skipn].
  apply mismatch_sound, H, in_seq. lia.
Qed.

Lemma avoids_nil q : avoids q [].
Proof. intros w i Hi. cbn in Hi. lia. Qed.

Lemma avoids_app q u v : avoids q u -> avoids q v -> avoids q (u ++ v).
Proof.
  intros Hu Hv w i Hi. rewrite <- app_assoc.
  destruct (Nat.lt_ge_cases i (length u)) as [H|H]; [apply Hu; exact H|].
  rewrite skipn_app, skipn_all2 by exact H. cbn [app].
  apply Hv. rewrite length_app in Hi. lia.
Qed.

Lemma skipn_cons_In (u : gostring) i c t : skipn i u = c :: t -> In c u.
Proof.
  intros E. rewrite <- (firstn_skipn i u), E. apply in_or_app. right. left. reflexivity.
Qed.

Lemma avoids_lt_free q u : lt_free u = true -> avoids (60 :: q) u.
Proof.
  intros Hu w i Hi. rewrite skipn_app.
  destruct (skipn i u) as [|c t] eqn:E.
  - apply (f_equal (@length Z)) in E. rewrite length_skipn in E. cbn in E. lia.
  - cbn [app HasPrefix]. unfold lt_free in Hu. rewrite forallb_forall in Hu.
    specialize (Hu c (skipn_cons_In _ _ _ _ E)).
    rewrite Z.eqb_sym. destruct (c =? 60); [discriminate|reflexivity].
Qed.

Lemma HasPrefix_app p s : HasPrefix (p ++ s) p = true.
Proof. induction p as [|c p IH]; cbn; [reflexivity|]. rewrite Z.eqb_refl. exact IH. Qed.

Lemma skipn_length_app (x y : gostring) : skipn (length x) (x ++ y) = y.
Proof. induction x; cbn; auto. Qed.

Lemma slice_mid (x y z : gostring) :
  slice (x ++ y ++ z) (length x) (length x + length y) = y.
Proof.
  unfold slice. replace (length x + length y - length x)%nat with (length y) by lia.
  rewrite skipn_length_app, firstn_app, firstn_all, Nat.sub_diag. cbn. apply app_nil_r.
Qed.

Lemma lit_byte_fail {A} inp q b pos cp (k : nat -> caps -> option A) :
  HasPrefix (skipn pos inp) (q ++ [b]) = false -> mt inp (lit q (RByte b)) pos cp k = None.
Proof.
  intros H. destruct (mt inp (lit q (RByte b)) pos cp k) eqn:E; [|reflexivity].
  apply mt_lit_prefix in E. destruct E as [E1 E2]. cbn in E2.
  destruct (nth_error inp (pos + length q)%nat) as [d|] eqn:Ed; [|discriminate].
  destruct (b =? d) eqn:Eb; [|discriminate].
  apply Z.eqb_eq in Eb. subst d.
  rewrite (HasPrefix_snoc _ _ _ _ E1 Ed) in H. discriminate.
Qed.

Lemma run_len_any_byte (s : gostring) : run_len any_byte s = length s.
Proof. induction s; cbn; congruence. Qed.

Lemma run_len_gt (t : gostring) : run_len (not_byte 62) (62 :: t) = 0%nat.
Proof. reflexivity. Qed.

Lemma option_match_id {B} (o : option B) :
  match o with Some x => Some x | None => None end = o.
Proof. destruct o; reflexivity. Qed.

Lemma tagRe_at tag inp a body w :
  skipn a inp = (s2b "<" ++ s2b tag ++ [62]) ++ body ++ (s2b "</" ++ s2b tag ++ [62]) ++ w ->
  avoids (s2b "</" ++ s2b tag ++ [62]) body ->
  match_at (tagRe tag) inp a
  = Some ((a + (length (s2b tag) + 2) + length body + (length (s2b tag) + 3))%nat,
          cap_set 1 (a + (length (s2b tag) + 2),
                     a + (length (s2b tag) + 2) + length body)%nat nocaps).
Proof.
  intros Hs Hb. unfold match_at, tagRe.
  rewrite mt_lit_ok.
  2:{ rewrite Hs, <- !app_assoc, (app_assoc (s2b "<") (s2b tag)).
       apply HasPrefix_app. }
  set (T := length (s2b tag)).
  assert (HP : skipn (a + length (s2b "<" ++ s2b tag)) inp
               = 62 :: body ++ (s2b "</" ++ s2b tag ++ [62]) ++ w).
  { rewrite Nat.add_comm, <- skipn_skipn, Hs, <- !app_assoc.
    rewrite (app_assoc (s2b "<") (s2b tag)), skipn_length_app. reflexivity. }
  cbn [mt]. rewrite HP, run_len_gt.
  change (rev (seq 0 (S 0 - 0))) with [0%nat]. cbn [first_some].
  rewrite Nat.add_0_r.
  destruct (nth_error_skipn_cons _ _ _ _ HP) as [N1 N2].
  rewrite N1, Z.eqb_refl, N2, run_len_any_byte, option_match_id, Nat.sub_0_r.
  set (S0 := S (a + length (s2b "<" ++ s2b tag))).
  assert (LT : length (s2b "<" ++ s2b tag) = S T)
    by (rewrite length_app; reflexivity).
  apply (first_some_seq_at _ (length body)).
  - rewrite !length_app. lia.
  - intros j Hj. apply lit_byte_fail. rewrite <- app_assoc.
    rewrite Nat.add_comm, <- skipn_skipn. unfold S0. rewrite N2. apply Hb. exact Hj.
  - rewrite mt_lit_ok.
    2:{ rewrite Nat.add_0_l, Nat.add_comm, <- skipn_skipn. unfold S0.
        rewrite N2, skipn_length_app, <- !app_assoc, (app_assoc (s2b "</") (s2b tag)).
        apply HasPrefix_app. }
    cbn [mt]. rewrite Nat.add_0_l.
    assert (N3 : skipn (length body + length (s2b "</" ++ s2b tag) + S0) inp = 62 :: w).
    { rewrite <- skipn_skipn. unfold S0. rewrite N2.
      replace (body ++ (s2b "</" ++ s2b tag ++ [62]) ++ w)
        with ((body ++ (s2b "</" ++ s2b tag)) ++ 62 :: w) by (rewrite <- !app_assoc; reflexivity).
      rewrite <- length_app, skipn_length_app. reflexivity. }
    replace (S0 + length body + length (s2b "</" ++ s2b tag))%nat
      with (length body + length (s2b "</" ++ s2b tag) + S0)%nat by lia.
    destruct (nth_error_skipn_cons _ _ _ _ N3) as [N4 _]. rewrite N4, Z.eqb_refl.
    unfold S0. rewrite LT, length_app. change (length (s2b "</")) with 2%nat.
    do 2 f_equal; [lia|]. f_equal. f_equal; lia.
Qed.

Lemma lt_free_Forall s : lt_free s = true <-> Forall (fun c => negb (c =? 60) = true) s.
Proof. unfold lt_free. rewrite forallb_forall, List.Forall_forall. reflexivity. Qed.

Lemma lt_free_app u v : lt_free (u ++ v) = lt_free u && lt_free v.
Proof. unfold lt_free. apply forallb_app. Qed.

Lemma itoa_aux_lt_free f n acc : lt_free acc = true -> lt_free (itoa_aux f n acc) = true.
Proof.
  revert n acc. induction f as [|f IH]; intros n acc H; cbn [itoa_aux]; [exact H|].
  assert (Hd : lt_free ((48 + Z.of_nat (n mod 10)) :: acc) = true).
  { cbn [lt_free forallb]. fold (lt_free acc). rewrite H, andb_true_r.
    pose proof (Nat.mod_upper_bound n 10 ltac:(lia)).
    apply negb_true_iff, Z.eqb_neq. lia. }
  destruct (n <? 10)%nat; [exact Hd|]. apply IH. exact Hd.
Qed.

Lemma itoa_lt_free n : lt_free (itoa n) = true.
Proof. apply itoa_aux_lt_free. reflexivity. Qed.

Section Bytes.
Variable P : Z -> Prop.

Lemma chunks_fuel_Forall f s :
  Forall P s -> Forall (fun c => Forall P (snd c)) (chunks_fuel f s).
Proof.
  revert s. induction f as [|f IH]; intros s H; cbn [chunks_fuel]; [constructor|].
  destruct s as [|b t]; [constructor|].
  destruct (DecodeRune (b :: t)) as [r w].
  rewrite <- (firstn_skipn w (b :: t)) in H. apply Forall_app in H. destruct H as [H1 H2].
  constructor; [exact H1|]. apply IH. exact H2.
Qed.

Lemma drop_space_Forall (Q : Z * gostring -> Prop) l :
  Forall Q l -> Forall Q (drop_space l).
Proof.
  destruct (PostProcessProps.drop_space_suffix l) as [p E].
  intros H. rewrite E in H. apply Forall_app in H. apply H.
Qed.

Lemma concat_snd_Forall (cs : list (Z * gostring)) :
  Forall (fun c => Forall P (snd c)) cs -> Forall P (concat (map snd cs)).
Proof.
  induction cs as [|c cs IH]; intros H; cbn; [constructor|].
  inversion H; subst. apply Forall_app. auto.
Qed.

Lemma TrimSpace_Forall s : Forall P s -> Forall P (TrimSpace s).
Proof.
  intros H. unfold TrimSpace. apply concat_snd_Forall.
  apply Forall_rev, drop_space_Forall, Forall_rev, drop_space_Forall.
  apply chunks_fuel_Forall. exact H.
Qed.

End Bytes.

Lemma TrimSpace_lt_free s : lt_free s = true -> lt_free (TrimSpace s) = true.
Proof. rewrite !lt_free_Forall. apply TrimSpace_Forall. Qed.

Lemma skipn_add_app (x y : gostring) k : skipn (length x + k) (x ++ y) = skipn k y.
Proof. rewrite Nat.add_comm, <- skipn_skipn, skipn_length_app. reflexivity. Qed.

Lemma avoids_at q x u y i :
  avoids q u -> (length x <= i < length x + length u)%nat ->
  HasPrefix (skipn i (x ++ u ++ y)) q = false.
Proof.
  intros H Hi. replace i with (length x + (i - length x))%nat by lia.
  rewrite skipn_add_app. apply H. lia.
Qed.

Lemma past_end q (inp : gostring) i :
  q <> [] -> (length inp <= i)%nat -> HasPrefix (skipn i inp) q = false.
Proof. intros Hq Hi. rewrite skipn_all2 by exact Hi. destruct q; [congruence|reflexivity]. Qed.

Lemma length_tag_open tag : length (s2b "<" ++ s2b tag ++ [62]) = (length (s2b tag) + 2)%nat.
Proof. rewrite !length_app. cbn. lia. Qed.

Lemma length_tag_close tag : length (s2b "</" ++ s2b tag ++ [62]) = (length (s2b tag) + 3)%nat.
Proof. rewrite !length_app. cbn. lia. Qed.

(** A pattern [<tag...>...</tag>] finds nothing in a string without [<tag]. *)
Lemma replace_none tag s f :
  avoids (s2b "<" ++ s2b tag) s -> ReplaceAllStringFunc (tagRe tag) s f = s.
Proof.
  intros H. apply ReplaceAll_no_match. unfold search. apply search_n_none.
  intros i _. unfold match_at, tagRe. apply mt_lit_fail.
  destruct (Nat.lt_ge_cases i (length s)) as [Hi|Hi].
  - rewrite <- (app_nil_r s). apply (avoids_at _ [] s []); [exact H|cbn; lia].
  - apply past_end; [discriminate|exact Hi].
Qed.

(** One [<tag>body</tag>] block, with no [<tag] around it and no [</tag>]
    inside it, is replaced by [f] of the block. *)
Lemma replace_one tag f pre body post :
  avoids (s2b "</" ++ s2b tag ++ [62]) body ->
  avoids (s2b "<" ++ s2b tag) pre -> avoids (s2b "<" ++ s2b tag) post ->
  ReplaceAllStringFunc (tagRe tag)
    (pre ++ ((s2b "<" ++ s2b tag ++ [62]) ++ body ++ (s2b "</" ++ s2b tag ++ [62])) ++ post) f
  = pre ++ f ((s2b "<" ++ s2b tag ++ [62]) ++ body ++ (s2b "</" ++ s2b tag ++ [62])) ++ post.
Proof.
  intros Hb Hpre Hpost.
  set (blk := (s2b "<" ++ s2b tag ++ [62]) ++ body ++ (s2b "</" ++ s2b tag ++ [62])).
  set (inp := pre ++ blk ++ post).
  assert (Hlen : length blk = (length (s2b tag) + 2 + length body + (length (s2b tag) + 3))%nat).
  { unfold blk. rewrite !length_app. cbn. lia. }
  assert (Hm : match_at (tagRe tag) inp (length pre)
               = Some ((length pre + length blk)%nat,
                       cap_set 1 (length pre + (length (s2b tag) + 2),
                                  length pre + (length (s2b tag) + 2) + length body)%nat
                               nocaps)).
  { rewrite (tagRe_at tag inp (length pre) body post); [f_equal; f_equal; lia| |exact Hb].
    unfold inp, blk. rewrite skipn_length_app, <- !app_assoc. reflexivity. }
  unfold ReplaceAllStringFunc.
  erewrite (repl_n_step _ _ _ _ 0%nat [] (length pre) (length pre + length blk)%nat);
    [| lia | | lia | lia].
  2:{ apply search_at; [lia| unfold inp; rewrite length_app; lia | |exact Hm].
      intros i Hi. unfold match_at, tagRe. apply mt_lit_fail.
      apply (avoids_at _ [] pre); [exact Hpre|cbn; lia]. }
  rewrite repl_n_none.
  2:{ unfold search. apply search_n_none. intros i Hi.
      unfold match_at, tagRe. apply mt_lit_fail.
      destruct (Nat.lt_ge_cases i (length inp)) as [Hl|Hl].
      - unfold inp. rewrite app_assoc, <- (app_nil_r post).
        apply (avoids_at _ (pre ++ blk) post []); [exact Hpost|].
        unfold inp in Hl. rewrite !length_app in *. lia.
      - apply past_end; [discriminate|exact Hl]. }
  unfold inp. cbn [app].
  assert (E1 : slice (pre ++ blk ++ post) 0 (length pre) = pre).
  { unfold slice. rewrite Nat.sub_0_r, skipn_0.
    rewrite firstn_app, firstn_all, Nat.sub_diag, firstn_0. apply app_nil_r. }
  rewrite E1, slice_mid.
  rewrite app_assoc, <- length_app, skipn_length_app. rewrite <- !app_assoc. reflexivity.
Qed.

Lemma cap_set_eq n v c : cap_set n v c n = Some v.
Proof. unfold cap_set. rewrite Nat.eqb_refl. reflexivity. Qed.

Lemma li_items_nil : li_items [] = [].
Proof. reflexivity. Qed.

Lemma li_items_cons t sep items :
  li_items ((t, sep) :: items) = s2b "<li>" ++ t ++ s2b "</li>" ++ sep ++ li_items items.
Proof. unfold li_items. cbn [map concat]. rewrite <- !app_assoc. reflexivity. Qed.

Lemma length_li_items items : (length items <= length (li_items items))%nat.
Proof.
  induction items as [|[t sep] items IH]; [cbn; lia|].
  rewrite li_items_cons, !length_app. cbn [length]. cbn. lia.
Qed.

Lemma avoids_li_items q items :
  avoid_check (60 :: q) (s2b "<li>") = true -> avoid_check (60 :: q) (s2b "</li>") = true ->
  forallb (fun '(t, sep) => lt_free t && lt_free sep) items = true ->
  avoids (60 :: q) (li_items items).
Proof.
  intros H1 H2. induction items as [|[t sep] items IH]; intros Hok; [apply avoids_nil|].
  cbn [forallb] in Hok. apply andb_prop in Hok. destruct Hok as [Ht Hok].
  apply andb_prop in Ht. destruct Ht as [Ht Hsep].
  rewrite li_items_cons.
  repeat apply avoids_app; auto using avoid_check_sound, avoids_lt_free.
Qed.

Lemma all_items blk z :
  avoids (s2b "<li") z ->
  forall items x s n prev,
  blk = x ++ s ++ li_items items ++ z ->
  avoids (s2b "<li") s ->
  forallb (fun '(t, sep) => lt_free t && lt_free sep) items = true ->
  (length items < n)%nat ->
  map (fun '(a, e, cp) => slice blk a e :: map (group_text blk cp) (seq 1 1))
      (all_n liRe blk n (length x) prev)
  = map (fun '(t, _) => [s2b "<li>" ++ t ++ s2b "</li>"; t]) items.
Proof.
  intros Hz. induction items as [|[t sep] items IH]; intros x s n prev Hblk Hs Hok Hn.
  - rewrite all_n_none; [reflexivity|]. unfold search. apply search_n_none.
    intros i Hi. unfold match_at, liRe, tagRe. apply mt_lit_fail.
    rewrite li_items_nil, app_nil_l in Hblk.
    destruct (Nat.lt_ge_cases i (length x + length s)) as [H1|H1].
    + rewrite Hblk. apply avoids_at; [exact Hs|lia].
    + destruct (Nat.lt_ge_cases i (length blk)) as [H2|H2].
      * rewrite Hblk, app_assoc, <- (app_nil_r z). apply avoids_at; [exact Hz|].
        rewrite Hblk, !length_app in H2. rewrite length_app. lia.
      * apply past_end; [discriminate|exact H2].
  - destruct n as [|n]; [cbn in Hn; lia|].
    cbn [forallb] in Hok. apply andb_prop in Hok. destruct Hok as [Ht Hok].
    apply andb_prop in Ht. destruct Ht as [Ht Hsep].
    rewrite li_items_cons in Hblk.
    set (a := length (x ++ s)).
    assert (Hm : match_at liRe blk a
                 = Some ((a + 4 + length t + 5)%nat,
                         cap_set 1 ((a + 4)%nat, (a + 4 + length t)%nat) nocaps)).
    { unfold liRe. rewrite (tagRe_at "li" blk a t (sep ++ li_items items ++ z)).
      - reflexivity.
      - unfold a. rewrite Hblk, app_assoc, skipn_length_app, <- !app_assoc. reflexivity.
      - apply avoids_lt_free. exact Ht. }
    assert (Hlen : (length blk = a + 4 + length t + 5 + length (sep ++ li_items items ++ z))%nat).
    { rewrite Hblk. unfold a. rewrite !length_app. cbn. lia. }
    rewrite (all_n_step _ _ _ _ _ a (a + 4 + length t + 5)%nat
               (cap_set 1 ((a + 4)%nat, (a + 4 + length t)%nat) nocaps)).
    2:{ rewrite Hlen. unfold a. rewrite length_app. lia. }
    2:{ apply search_at; [unfold a; rewrite length_app; lia|lia| |exact Hm].
        intros i Hi. unfold match_at, liRe, tagRe. apply mt_lit_fail.
        rewrite Hblk. apply avoids_at; [exact Hs|]. unfold a in Hi.
        rewrite length_app in Hi. lia. }
    2:{ unfold a. rewrite length_app. lia. }
    cbn [map]. f_equal.
    + assert (Hb2 : blk = (x ++ s) ++ (s2b "<li>" ++ t ++ s2b "</li>")
                          ++ (sep ++ li_items items ++ z))
        by (rewrite Hblk, <- !app_assoc; reflexivity).
      assert (He : (a + 4 + length t + 5 = length (x ++ s)
                    + length (s2b "<li>" ++ t ++ s2b "</li>"))%nat)
        by (unfold a; rewrite !length_app; cbn; lia).
      rewrite He. fold a. rewrite Hb2 at 1. unfold a. rewrite slice_mid.
      f_equal. cbn [seq map]. unfold group_text. rewrite cap_set_eq.
      assert (Hb3 : blk = (x ++ s ++ s2b "<li>") ++ t
                          ++ (s2b "</li>" ++ sep ++ li_items items ++ z))
        by (rewrite Hblk, <- !app_assoc; reflexivity).
      assert (Ha : (length (x ++ s) + 4 = length (x ++ s ++ s2b "<li>"))%nat)
        by (rewrite !length_app; cbn; lia).
      rewrite Ha, Hb3, slice_mid. reflexivity.
    + replace (a + 4 + length t + 5)%nat
        with (length (x ++ s ++ s2b "<li>" ++ t ++ s2b "</li>"))
        by (unfold a; rewrite !length_app; cbn; lia).
      apply (IH _ sep); [|apply avoids_lt_free; exact Hsep|exact Hok|cbn in Hn; lia].
      rewrite Hblk, <- !app_assoc. reflexivity.
Qed.

Lemma ol_paragraphs_items i (items : list (gostring * gostring)) :
  ol_paragraphs i (map (fun '(t, _) => [s2b "<li>" ++ t ++ s2b "</li>"; t]) items)
  = numbered i (map fst items).
Proof.
  revert i. induction items as [|[t sep] items IH]; intros i; [reflexivity|].
  cbn [map ol_paragraphs numbered fst nth]. rewrite IH. reflexivity.
Qed.

Lemma ol_block_list sep0 items :
  lt_free sep0 = true ->
  forallb (fun '(t, sep) => lt_free t && lt_free sep) items = true ->
  ol_block (s2b "<ol>" ++ sep0 ++ li_items items ++ s2b "</ol>")
  = match items with
    | [] => s2b "<ol>" ++ sep0 ++ li_items items ++ s2b "</ol>"
    | _ => numbered 0 (map fst items)
    end.
Proof.
  intros Hsep0 Hok. set (blk := s2b "<ol>" ++ sep0 ++ li_items items ++ s2b "</ol>").
  assert (H := all_items blk (s2b "</ol>")
                 ltac:(apply avoid_check_sound; reflexivity)
                 items [] (s2b "<ol>" ++ sep0) (S (S (length blk))) None).
  cbn [length] in H. unfold ol_block, FindAllStringSubmatch, allMatches. rewrite H.
  - destruct items as [|it items']; [reflexivity|].
    rewrite <- ol_paragraphs_items. reflexivity.
  - unfold blk. rewrite app_nil_l, <- !app_assoc. reflexivity.
  - apply avoids_app; [apply avoid_check_sound; reflexivity|].
    apply avoids_lt_free. exact Hsep0.
  - exact Hok.
  - pose proof (length_li_items items). unfold blk. rewrite !length_app. lia.
Qed.

Lemma avoids_numbered i ts :
  forallb lt_free ts = true -> avoids (s2b "<ul") (numbered i ts).
Proof.
  revert i. induction ts as [|t ts IH]; intros i H; [apply avoids_nil|].
  cbn [forallb] in H. apply andb_prop in H. destruct H as [Ht H].
  cbn [numbered].
  repeat apply avoids_app.
  - apply avoid_check_sound. reflexivity.
  - apply avoids_lt_free, itoa_lt_free.
  - apply avoid_check_sound. reflexivity.
  - apply avoids_lt_free, TrimSpace_lt_free. exact Ht.
  - apply avoid_check_sound. reflexivity.
  - apply IH. exact H.
Qed.

Lemma items_fst_lt_free items :
  forallb (fun '(t, sep) => lt_free t && lt_free sep) items = true ->
  forallb lt_free (map fst items) = true.
Proof.
  induction items as [|[t sep] items IH]; [reflexivity|].
  cbn [forallb map fst]. intros H. apply andb_prop in H. destruct H as [H1 H2].
  apply andb_prop in H1. destruct H1 as [H1 _]. rewrite H1, IH by exact H2. reflexivity.
Qed.

(** C9, as the code behaves on the nested ordered list
    [<ol><li><ol><li>A</li></ol></li></ol>]: the outer block ends at the
    first [</ol>], so the inner item does not become its own paragraph and
    an [<ol>] tag survives the pass, in unbalanced output. *)
Lemma flatten_nested_keeps_ol :
  flattenListsForWeChat nested_ol = s2b "<p>1. <ol><li>A</p></li></ol>" /\
  contains (flattenListsForWeChat nested_ol) (s2b "<ol") = true.
Proof. split; vm_compute; reflexivity. Qed.

End ListProps.

(** ** Image references in Markdown *)
Module ImageProps.
Import GoStrings Regexp Publisher Publish SpecDefs RegexpProps EngineProps ListProps.

Lemma img_match_shape inp a e cp :
  match_at imgPattern inp a = Some (e, cp) ->
  exists i j, cp 1%nat = Some (i, j) /\ (a + 4 <= i)%nat /\ (i < j)%nat
    /\ e = S j /\ nth_error inp (i - 2) = Some 93 /\ nth_error inp (i - 1) = Some 40
    /\ nth_error inp j = Some 41.
Proof.
  unfold match_at, imgPattern. cbn [mt]. intros H.
  destruct (nth_error inp a) as [d0|]; [|discriminate].
  destruct (33 =? d0); [|discriminate].
  destruct (nth_error inp (S a)) as [d1|]; [|discriminate].
  destruct (91 =? d1); [|discriminate].
  apply first_some_Some in H. destruct H as (j0 & _ & H).
  destruct (nth_error inp (S (S a) + j0)%nat) as [d2|] eqn:E2; [|discriminate].
  destruct (93 =? d2) eqn:B2; [|discriminate].
  destruct (nth_error inp (S (S (S a) + j0))%nat) as [d3|] eqn:E3; [|discriminate].
  destruct (40 =? d3) eqn:B3; [|discriminate].
  apply first_some_Some in H. destruct H as (j1 & Hj1 & H).
  apply in_rev, in_seq in Hj1.
  destruct (nth_error inp (S (S (S (S a) + j0)) + j1))%nat as [d4|] eqn:E4; [|discriminate].
  destruct (41 =? d4) eqn:B4; [|discriminate].
  injection H as <- <-.
  apply Z.eqb_eq in B2, B3, B4. subst d2 d3 d4.
  exists (S (S (S (S a) + j0)))%nat, (S (S (S (S a) + j0)) + j1)%nat.
  split; [apply cap_set_eq|].
  repeat split; try lia; try exact E4.
  - rewrite <- E2. f_equal; lia.
  - rewrite <- E3. f_equal; lia.
Qed.

Lemma all_n_chain md : forall n pos prev, img_chain md pos (all_n imgPattern md n pos prev).
Proof.
  induction n as [|n IH]; intros pos prev; cbn [all_n]; [exact I|].
  destruct (length md <? pos)%nat; [exact I|].
  destruct (search imgPattern md pos) as [[[a e] cp]|] eqn:Hs; [|exact I].
  destruct (search_Some _ _ _ _ _ _ Hs) as [Hpa Hm].
  destruct (img_match_shape _ _ _ _ Hm) as (i & j & Hc & H1 & H2 & He & N1 & N2 & N3).
  replace (e =? pos)%nat with false by (symmetry; apply Nat.eqb_neq; lia).
  cbn [andb negb img_chain]. exists i, j. repeat split; auto.
Qed.

Lemma allMatches_chain md : img_chain md 0 (allMatches imgPattern md).
Proof. apply all_n_chain. Qed.

Lemma img_chain_weaken md L : forall pos pos',
  (pos' <= pos)%nat -> img_chain md pos L -> img_chain md pos' L.
Proof.
  destruct L as [|[[a e] cp] L]; intros pos pos' Hle H; [exact I|].
  destruct H as (i & j & H). exists i, j. intuition lia.
Qed.

Lemma go_slice_ok (s : gostring) x y :
  (x <= y <= length s)%nat -> go_slice s (Z.of_nat x) (Z.of_nat y) = Some (slice s x y).
Proof.
  intros H. unfold go_slice.
  replace ((0 <=? Z.of_nat x) && (Z.of_nat x <=? Z.of_nat y)
           && (Z.of_nat y <=? Z.of_nat (length s))) with true
    by (symmetry; repeat rewrite andb_true_iff; repeat split; apply Z.leb_le; lia).
  rewrite !Nat2Z.id. reflexivity.
Qed.

Lemma slice_to_end (s : gostring) x : slice s x (length s) = skipn x s.
Proof. unfold slice. apply firstn_all2. rewrite length_skipn. lia. Qed.

Lemma skipn_slice (s : gostring) x y :
  (x <= y <= length s)%nat -> skipn x s = slice s x y ++ skipn y s.
Proof.
  intros H. unfold slice. rewrite <- (firstn_skipn (y - x) (skipn x s)) at 1.
  rewrite skipn_skipn. f_equal. f_equal. lia.
Qed.

Lemma nth_error_lt (s : gostring) j d : nth_error s j = Some d -> (j < length s)%nat.
Proof. intros H. apply nth_error_Some. congruence. Qed.

Lemma filter_cons_eq {A} (p : A -> bool) x l :
  List.filter p (x :: l) = if p x then x :: List.filter p l else List.filter p l.
Proof. reflexivity. Qed.

Section Images.
Variable Stat_ok : gostring -> bool.
Variable join : gostring -> gostring -> gostring.
Variable dir : gostring -> gostring.
Variable upload : gostring -> result gostring.

Lemma loop_all_ok md base (f : nat * nat * caps -> list Z) :
  (forall a e (cp : caps) i j, cp 1%nat = Some (i, j) ->
     f (a, e, cp) = [Z.of_nat a; Z.of_nat e; Z.of_nat i; Z.of_nat j]) ->
  (forall p, exists u, upload p = Ok u) ->
  forall L last builder,
  img_chain md last L -> (last <= length md)%nat ->
  img_loop Stat_ok join upload md base (map f L) (Z.of_nat last) builder
  = (Some (Ok (builder
               ++ concat (map (fun '(g, r) => g ++ resolved Stat_ok join upload base r)
                              (pieces md last (map img_span L)))
               ++ skipn (spans_end last (map img_span L)) md)),
     map (fun r => EvUploadContentImage (resolve_path Stat_ok join base (TrimSpace r)))
         (List.filter (fun r => negb (is_absolute (TrimSpace r)))
                 (map snd (pieces md last (map img_span L))))).
Proof.
  intros Hf Hup. induction L as [|[[a e] cp] L IH]; intros last builder Hc Hl.
  - cbn [map img_loop pieces spans_end concat List.filter].
    rewrite go_slice_ok by lia. rewrite slice_to_end. reflexivity.
  - destruct Hc as (i & j & Hcp & Hpa & Hai & Hij & He & N1 & N2 & N3 & Hc').
    pose proof (nth_error_lt _ _ _ N3) as Hj.
    assert (Hc'' : img_chain md j L) by (apply (img_chain_weaken _ _ e); [lia|exact Hc']).
    cbn [map img_loop img_span]. rewrite (Hf a e cp i j Hcp), Hcp.
    cbn [app nth length Nat.ltb Nat.leb pieces spans_end].
    rewrite go_slice_ok by lia. rewrite go_slice_ok by lia.
    cbn [map concat snd].
    rewrite filter_cons_eq. cbv beta.
    set (t := TrimSpace (slice md i j)).
    destruct (HasPrefix t (s2b "http://") || HasPrefix t (s2b "https://")) eqn:E1;
      [|destruct (HasPrefix t (s2b "data:")) eqn:E2].
    + assert (Ea : is_absolute t = true) by (unfold is_absolute; rewrite E1; reflexivity).
      assert (Rs : resolved Stat_ok join upload base (slice md i j) = t)
        by (unfold resolved; cbv zeta; change (TrimSpace (slice md i j)) with t;
            rewrite Ea; reflexivity).
      rewrite Rs, Ea. cbn [negb].
      rewrite IH by (assumption || lia). rewrite <- !app_assoc. reflexivity.
    + assert (Ea : is_absolute t = true)
        by (unfold is_absolute; rewrite E1, E2; reflexivity).
      assert (Rs : resolved Stat_ok join upload base (slice md i j) = t)
        by (unfold resolved; cbv zeta; change (TrimSpace (slice md i j)) with t;
            rewrite Ea; reflexivity).
      rewrite Rs, Ea. cbn [negb].
      rewrite IH by (assumption || lia). rewrite <- !app_assoc. reflexivity.
    + assert (Ea : is_absolute t = false)
        by (unfold is_absolute; rewrite E1, E2; reflexivity).
      change (if negb (IsAbs t) && negb (Stat_ok t) then join base t else t)
        with (resolve_path Stat_ok join base t).
      destruct (Hup (resolve_path Stat_ok join base t)) as [u Hu].
      assert (Rs : resolved Stat_ok join upload base (slice md i j) = u)
        by (unfold resolved; cbv zeta; change (TrimSpace (slice md i j)) with t;
            rewrite Ea, Hu; reflexivity).
      rewrite Rs, Ea, Hu. cbn [negb pbind map].
      rewrite IH by (assumption || lia). rewrite <- !app_assoc. reflexivity.
Qed.

Lemma loop_result md base (f : nat * nat * caps -> list Z) :
  (forall a e (cp : caps) i j, cp 1%nat = Some (i, j) ->
     f (a, e, cp) = [Z.of_nat a; Z.of_nat e; Z.of_nat i; Z.of_nat j]) ->
  forall L last builder out evs,
  img_chain md last L -> (last <= length md)%nat ->
  img_loop Stat_ok join upload md base (map f L) (Z.of_nat last) builder
    = (Some (Ok out), evs) ->
  out = builder
        ++ concat (map (fun '(g, r) => g ++ resolved Stat_ok join upload base r)
                       (pieces md last (map img_span L)))
        ++ skipn (spans_end last (map img_span L)) md.
Proof.
  intros Hf. induction L as [|[[a e] cp] L IH]; intros last builder out evs Hc Hl.
  - cbn [map img_loop pieces spans_end concat].
    rewrite go_slice_ok by lia. rewrite slice_to_end. intros H. injection H as <- _.
    reflexivity.
  - destruct Hc as (i & j & Hcp & Hpa & Hai & Hij & He & N1 & N2 & N3 & Hc').
    pose proof (nth_error_lt _ _ _ N3) as Hj.
    assert (Hc'' : img_chain md j L) by (apply (img_chain_weaken _ _ e); [lia|exact Hc']).
    cbn [map img_loop img_span]. rewrite (Hf a e cp i j Hcp), Hcp.
    cbn [app nth length Nat.ltb Nat.leb pieces spans_end].
    rewrite go_slice_ok by lia. rewrite go_slice_ok by lia.
    cbn [map concat].
    set (t := TrimSpace (slice md i j)).
    destruct (HasPrefix t (s2b "http://") || HasPrefix t (s2b "https://")) eqn:E1;
      [|destruct (HasPrefix t (s2b "data:")) eqn:E2].
    + assert (Ea : is_absolute t = true) by (unfold is_absolute; rewrite E1; reflexivity).
      assert (Rs : resolved Stat_ok join upload base (slice md i j) = t)
        by (unfold resolved; cbv zeta; change (TrimSpace (slice md i j)) with t;
            rewrite Ea; reflexivity).
      rewrite Rs. intros H. rewrite (IH _ _ _ _ Hc'' ltac:(lia) H).
      rewrite <- !app_assoc. reflexivity.
    + assert (Ea : is_absolute t = true)
        by (unfold is_absolute; rewrite E1, E2; reflexivity).
      assert (Rs : resolved Stat_ok join upload base (slice md i j) = t)
        by (unfold resolved; cbv zeta; change (TrimSpace (slice md i j)) with t;
            rewrite Ea; reflexivity).
      rewrite Rs. intros H. rewrite (IH _ _ _ _ Hc'' ltac:(lia) H).
      rewrite <- !app_assoc. reflexivity.
    + assert (Ea : is_absolute t = false)
        by (unfold is_absolute; rewrite E1, E2; reflexivity).
      change (if negb (IsAbs t) && negb (Stat_ok t) then join base t else t)
        with (resolve_path Stat_ok join base t).
      destruct (upload (resolve_path Stat_ok join base t)) as [u|err] eqn:Hu;
        cbn [pbind]; [|discriminate].
      assert (Rs : resolved Stat_ok join upload base (slice md i j) = u)
        by (unfold resolved; cbv zeta; change (TrimSpace (slice md i j)) with t;
            rewrite Ea, Hu; reflexivity).
      rewrite Rs.
      destruct (img_loop Stat_ok join upload md base (map f L) (Z.of_nat j)
                  ((builder ++ slice md last i) ++ u)) as [r ev'] eqn:EL.
      intros H. injection H as -> _.
      rewrite (IH _ _ _ _ Hc'' ltac:(lia) EL). rewrite <- !app_assoc. reflexivity.
Qed.

Lemma replace_as_loop md mdPath :
  replaceMarkdownImages Stat_ok join dir upload md mdPath
  = img_loop Stat_ok join upload md (dir mdPath)
      (FindAllStringSubmatchIndex imgPattern 1 md) (Z.of_nat 0) [].
Proof.
  unfold replaceMarkdownImages.
  destruct (FindAllStringSubmatchIndex imgPattern 1 md) as [|m ms]; [|reflexivity].
  cbn [img_loop]. rewrite go_slice_ok by lia. rewrite slice_to_end. reflexivity.
Qed.

End Images.

Lemma skipn_pieces md L : forall last,
  img_chain md last L -> (last <= length md)%nat ->
  skipn last md
  = concat (map (fun '(g, r) => g ++ r) (pieces md last (map img_span L)))
    ++ skipn (spans_end last (map img_span L)) md.
Proof.
  induction L as [|[[a e] cp] L IH]; intros last Hc Hl; [reflexivity|].
  destruct Hc as (i & j & Hcp & Hpa & Hai & Hij & He & N1 & N2 & N3 & Hc').
  pose proof (nth_error_lt _ _ _ N3) as Hj.
  cbn [map img_span]. rewrite Hcp. cbn [pieces spans_end map concat].
  rewrite (skipn_slice md last i) by lia. rewrite (skipn_slice md i j) by lia.
  rewrite (IH j) by (try (apply (img_chain_weaken _ _ e); [lia|exact Hc']); lia).
  rewrite <- !app_assoc. reflexivity.
Qed.

Lemma slice_two (s : gostring) k x y :
  nth_error s k = Some x -> nth_error s (S k) = Some y -> slice s k (S (S k)) = [x; y].
Proof.
  intros H1 H2. unfold slice. replace (S (S k) - k)%nat with 2%nat by lia.
  rewrite (skipn_nth_error _ _ _ H1), (skipn_nth_error _ _ _ H2). reflexivity.
Qed.

Lemma slice_one (s : gostring) k x : nth_error s k = Some x -> slice s k (S k) = [x].
Proof.
  intros H. unfold slice. replace (S k - k)%nat with 1%nat by lia.
  rewrite (skipn_nth_error _ _ _ H). reflexivity.
Qed.

Lemma chain_ref_delims md L : forall last,
  img_chain md last L ->
  Forall (fun '(i, j) => slice md (i - 2) i = s2b "](" /\ slice md j (S j) = s2b ")")
         (map img_span L).
Proof.
  induction L as [|[[a e] cp] L IH]; intros last Hc; [constructor|].
  destruct Hc as (i & j & Hcp & Hpa & Hai & Hij & He & N1 & N2 & N3 & Hc').
  cbn [map img_span]. rewrite Hcp. constructor; [|exact (IH _ Hc')].
  split.
  - replace i with (S (S (i - 2))) at 2 by lia. apply slice_two; [exact N1|].
    replace (S (i - 2)) with (i - 1)%nat by lia. exact N2.
  - apply slice_one. exact N3.
Qed.

Lemma findall_img_shape (a e : nat) (cp : caps) i j : cp 1%nat = Some (i, j) ->
  (fun '(a, e, cp) =>
     Z.of_nat a :: Z.of_nat e
     :: flat_map (fun g => match (cp : caps) g with
                           | Some (i, j) => [Z.of_nat i; Z.of_nat j]
                           | None => [-1; -1] end) (seq 1 1)) (a, e, cp)
  = [Z.of_nat a; Z.of_nat e; Z.of_nat i; Z.of_nat j].
Proof. intros H. cbn. rewrite H. reflexivity. Qed.

(** C3 (amended): when every upload succeeds, [replaceMarkdownImages]
    uploads once per reference whose trimmed text is not absolute, left to
    right with no deduplication, puts each returned URL in the reference's
    place, and writes every absolute reference back as its trimmed text. *)
Theorem images_upload_each_local_ref Stat_ok join dir upload (md mdPath : gostring) :
  (forall p, exists u, upload p = Ok u) ->
  replaceMarkdownImages Stat_ok join dir upload md mdPath
  = (Some (Ok (rewritten Stat_ok join upload (dir mdPath) md)),
     upload_events Stat_ok join (dir mdPath) md).
Proof.
  intros Hup. rewrite replace_as_loop. unfold FindAllStringSubmatchIndex.
  exact (loop_all_ok Stat_ok join upload md (dir mdPath) _ findall_img_shape Hup
           (allMatches imgPattern md) 0 [] (allMatches_chain md) ltac:(lia)).
Qed.

(** C10 (amended): the text outside the reference spans (each between
    ["]("] and [")"]) is kept in place and in order; a successful run only
    replaces each span by what it resolves to (absolute references by their
    trimmed text), and Markdown without references comes back unchanged. *)
Theorem images_rewrite_only_refs Stat_ok join dir upload (md mdPath : gostring) :
  md = concat (map (fun '(g, r) => g ++ r) (img_pieces md)) ++ img_tail md
  /\ Forall (fun '(i, j) => slice md (i - 2) i = s2b "](" /\ slice md j (S j) = s2b ")")
            (ref_spans md)
  /\ (forall out evs, replaceMarkdownImages Stat_ok join dir upload md mdPath
                      = (Some (Ok out), evs) ->
                      out = rewritten Stat_ok join upload (dir mdPath) md)
  /\ (ref_spans md = [] ->
      replaceMarkdownImages Stat_ok join dir upload md mdPath = (Some (Ok md), [])).
Proof.
  pose proof (allMatches_chain md) as HC.
  split; [|split; [|split]].
  - unfold img_pieces, img_tail, ref_spans.
    rewrite <- (skipn_pieces md _ 0 HC) by lia. reflexivity.
  - exact (chain_ref_delims md _ 0 HC).
  - intros out evs H. rewrite replace_as_loop in H. unfold FindAllStringSubmatchIndex in H.
    exact (loop_result Stat_ok join upload md (dir mdPath) _ findall_img_shape
             (allMatches imgPattern md) 0 [] out evs HC ltac:(lia) H).
  - unfold ref_spans. intros H. apply map_eq_nil in H.
    unfold replaceMarkdownImages, FindAllStringSubmatchIndex. rewrite H. reflexivity.
Qed.

Lemma images_upload_each_local_ref_witness :
  (forall p, exists u, upload_fx p = Ok u)
  /\ replaceMarkdownImages stat_none join_fx dir_fx upload_fx (s2b "![a](x.png)") (s2b "posts/a.md")
     = (Some (Ok (rewritten stat_none join_fx upload_fx (s2b "posts") (s2b "![a](x.png)"))),
        upload_events stat_none join_fx (s2b "posts") (s2b "![a](x.png)")).
Proof.
  split; [intros p; exists (s2b "https://mmbiz.example/" ++ p); reflexivity|].
  apply (images_upload_each_local_ref stat_none join_fx dir_fx upload_fx).
  intros p; exists (s2b "https://mmbiz.example/" ++ p); reflexivity.
Defined.

(** C3 counterexample: the absolute reference [" http://x"] is not left
    unchanged; its leading space is trimmed away. *)
Lemma images_trim_absolute_ref :
  replaceMarkdownImages stat_none join_fx dir_fx upload_fx spaced_md (s2b "posts/a.md")
  = (Some (Ok (s2b "![a](http://x)")), [])
  /\ s2b "![a](http://x)" <> spaced_md.
Proof. split; [vm_compute; reflexivity | discriminate]. Qed.

(** C10 counterexample: the span [" http://x"] of an absolute reference,
    which is not uploaded, is rewritten to ["http://x"]. *)
Lemma images_rewrite_changes_absolute_ref :
  ref_spans spaced_md = [(5%nat, 14%nat)]
  /\ slice spaced_md 5 14 = s2b " http://x"
  /\ replaceMarkdownImages stat_none join_fx dir_fx upload_fx spaced_md (s2b "posts/a.md")
     = (Some (Ok (s2b "![a](http://x)")), []).
Proof. vm_compute. repeat split; reflexivity. Qed.

Lemma images_rewrite_only_refs_witness :
  replaceMarkdownImages stat_none join_fx dir_fx upload_fx (s2b "no images") (s2b "posts/a.md")
  = (Some (Ok (s2b "no images")), []).
Proof.
  apply (images_rewrite_only_refs stat_none join_fx dir_fx upload_fx (s2b "no images") (s2b "posts/a.md")).
  vm_compute. reflexivity.
Defined.

End ImageProps.

(** ** Session expiry *)
Module StoreProps.
Import GoStrings Store SessionModel SpecDefs StoreDefs.

Lemma step_ttl st to : ttl (store (step st to)) = ttl (store st).
Proof.
  destruct to as [t []]; cbn [step];
    unfold set, get, heartbeat, addUpload, delete, deleteLocked, purgeExpired, purgeLocked;
    cbv zeta; repeat case_match; reflexivity.
Qed.

Lemma purge_removed now st :
  removed (purgeLocked now st)
  = removed st ++ concat (map (fun kv => uploads kv.2)
                            (filter (is_expired now) (map_to_list (sessions (store st))))).
Proof. reflexivity. Qed.

Lemma purge_lookup_Some now st i e :
  sessions (store (purgeLocked now st)) !! i = Some e ->
  sessions (store st) !! i = Some e /\ ~ expiresAt e < now.
Proof. unfold purgeLocked. cbn. intros H. apply map_lookup_filter_Some in H. exact H. Qed.

Lemma purge_lookup_kept now st i e :
  sessions (store st) !! i = Some e -> ~ expiresAt e < now ->
  sessions (store (purgeLocked now st)) !! i = Some e.
Proof. intros H1 H2. unfold purgeLocked. cbn. apply map_lookup_filter_Some. auto. Qed.

Lemma purge_lookup_None now st i :
  (forall e, sessions (store st) !! i = Some e -> expiresAt e < now) ->
  sessions (store (purgeLocked now st)) !! i = None.
Proof.
  intros H. unfold purgeLocked. cbn. apply map_lookup_filter_None.
  right. intros x Hx Hn. apply Hn. exact (H x Hx).
Qed.

Lemma purge_expired_in now st i e p :
  sessions (store st) !! i = Some e -> expiresAt e < now -> In p (uploads e) ->
  In p (removed (purgeLocked now st)).
Proof.
  intros He Hx Hp. rewrite purge_removed. apply in_or_app. right.
  apply in_concat. exists (uploads e). split; [|exact Hp].
  apply in_map_iff. exists (i, e). split; [reflexivity|].
  apply list_elem_of_In. apply list_elem_of_filter. split; [exact Hx|].
  apply elem_of_map_to_list. exact He.
Qed.

Lemma purge_keeps id now st p :
  In p (held_uploads id st) \/ In p (removed st) ->
  In p (held_uploads id (purgeLocked now st)) \/ In p (removed (purgeLocked now st)).
Proof.
  unfold held_uploads. intros H.
  destruct (sessions (store st) !! id) as [e|] eqn:E.
  - destruct (decide (expiresAt e < now)) as [Hx|Hx].
    + right. destruct H as [H|H].
      * exact (purge_expired_in now st id e p E Hx H).
      * rewrite purge_removed. apply in_or_app. left. exact H.
    + rewrite (purge_lookup_kept now st id e E Hx). destruct H as [H|H]; [left; exact H|].
      right. rewrite purge_removed. apply in_or_app. left. exact H.
  - destruct H as [[]|H]. right. rewrite purge_removed. apply in_or_app. left. exact H.
Qed.

Lemma held_refresh id id' st e x :
  sessions (store st) !! id' = Some e ->
  held_uploads id (with_sessions st (<[id' := mkEntry (sess e) x (uploads e)]> (sessions (store st))))
  = held_uploads id st.
Proof.
  intros E. unfold held_uploads, with_sessions. cbn [store sessions].
  destruct (decide (id' = id)) as [<-|Hne].
  - rewrite lookup_insert_eq, E. reflexivity.
  - rewrite lookup_insert_ne by exact Hne. reflexivity.
Qed.

Lemma step_keeps id st t o p :
  (forall s, o = OSet id s -> sessions (store st) !! id = None) ->
  In p (held_uploads id st) \/ In p (removed st) ->
  In p (held_uploads id (step st (t, o))) \/ In p (removed (step st (t, o))).
Proof.
  intros Hset H. destruct o as [id' s|id'|id'|id' path|id'|]; cbn [step].
  - unfold set, held_uploads, with_sessions. cbn [store sessions removed].
    destruct (decide (id' = id)) as [<-|Hne].
    + unfold held_uploads in H. rewrite (Hset s eq_refl) in H.
      destruct H as [[]|H]. right. exact H.
    + rewrite lookup_insert_ne by exact Hne. exact H.
  - unfold get. cbv zeta. apply (purge_keeps id t) in H.
    destruct (sessions (store (purgeLocked t st)) !! id') as [e|] eqn:E; cbn [snd]; [|exact H].
    rewrite held_refresh by exact E. exact H.
  - unfold heartbeat. cbv zeta. apply (purge_keeps id t) in H.
    destruct (sessions (store (purgeLocked t st)) !! id') as [e|] eqn:E; cbn [snd]; [|exact H].
    rewrite held_refresh by exact E. exact H.
  - unfold addUpload. destruct (streq id' [] || streq path []); [exact H|].
    destruct (sessions (store st) !! id') as [e|] eqn:E; [|exact H].
    unfold held_uploads, with_sessions in *. cbn [store sessions removed uploads].
    destruct (decide (id' = id)) as [<-|Hne].
    + rewrite lookup_insert_eq. rewrite E in H. destruct H as [H|H]; [|right; exact H].
      left. cbn [uploads]. apply in_or_app. left. exact H.
    + rewrite lookup_insert_ne by exact Hne. exact H.
  - unfold delete, deleteLocked.
    destruct (sessions (store st) !! id') as [e|] eqn:E; [|exact H].
    unfold held_uploads, with_sessions, cleanupUploads in *. cbn [store sessions removed].
    destruct (decide (id' = id)) as [<-|Hne].
    + rewrite lookup_delete_eq. rewrite E in H. right. apply in_or_app.
      destruct H as [H|H]; [right|left]; exact H.
    + rewrite lookup_delete_ne by exact Hne. destruct H as [H|H]; [left; exact H|].
      right. apply in_or_app. left. exact H.
  - unfold purgeExpired. apply purge_keeps. exact H.
Qed.

Lemma streq_refl (s : gostring) : streq s s = true.
Proof. unfold streq. apply bool_decide_eq_true_2. reflexivity. Qed.

Lemma refresh_lookup id id' st e' x (e : sessionEntry) :
  sessions (store st) !! id' = Some e ->
  sessions (store (with_sessions st (<[id' := mkEntry (sess e) x (uploads e)]>
                                        (sessions (store st))))) !! id = Some e' ->
  (id' = id /\ expiresAt e' = x) \/ sessions (store st) !! id = Some e'.
Proof.
  intros E. unfold with_sessions. cbn [store sessions].
  destruct (decide (id' = id)) as [<-|Hne].
  - rewrite lookup_insert_eq. intros [= <-]. left. split; reflexivity.
  - rewrite lookup_insert_ne by exact Hne. right. exact H.
Qed.

Lemma step_lookup id st t o e' :
  sessions (store (step st (t, o))) !! id = Some e' ->
  (exists s, o = OSet id s /\ expiresAt e' = t + ttl (store st)) \/
  (exists e, sessions (store st) !! id = Some e /\
     (expiresAt e' = expiresAt e
      \/ (is_access id o = true /\ expiresAt e' = t + ttl (store st)))).
Proof.
  destruct o as [id' s|id'|id'|id' path|id'|]; cbn [step].
  - unfold set, with_sessions. cbn [store sessions ttl].
    destruct (decide (id' = id)) as [<-|Hne].
    + rewrite lookup_insert_eq. intros [= <-]. left. exists s. split; reflexivity.
    + rewrite lookup_insert_ne by exact Hne. intros H. right. exists e'. auto.
  - unfold get. cbv zeta.
    destruct (sessions (store (purgeLocked t st)) !! id') as [e|] eqn:E; cbn [snd].
    + intros H. destruct (refresh_lookup id id' _ e' _ e E H) as [[<- Hx]|H'].
      * right. exists e. split; [exact (proj1 (purge_lookup_Some _ _ _ _ E))|].
        right. split; [apply streq_refl|exact Hx].
      * right. exists e'. split; [exact (proj1 (purge_lookup_Some _ _ _ _ H'))|left; reflexivity].
    + intros H. right. exists e'. split; [exact (proj1 (purge_lookup_Some _ _ _ _ H))|].
      left; reflexivity.
  - unfold heartbeat. cbv zeta.
    destruct (sessions (store (purgeLocked t st)) !! id') as [e|] eqn:E; cbn [snd].
    + intros H. destruct (refresh_lookup id id' _ e' _ e E H) as [[<- Hx]|H'].
      * right. exists e. split; [exact (proj1 (purge_lookup_Some _ _ _ _ E))|].
        right. split; [apply streq_refl|exact Hx].
      * right. exists e'. split; [exact (proj1 (purge_lookup_Some _ _ _ _ H'))|left; reflexivity].
    + intros H. right. exists e'. split; [exact (proj1 (purge_lookup_Some _ _ _ _ H))|].
      left; reflexivity.
  - unfold addUpload. intros H. right.
    destruct (streq id' [] || streq path []); [exists e'; auto|].
    destruct (sessions (store st) !! id') as [e|] eqn:E; [|exists e'; auto].
    revert H. unfold with_sessions. cbn [store sessions].
    destruct (decide (id' = id)) as [<-|Hne].
    + rewrite lookup_insert_eq. intros [= <-]. exists e. auto.
    + rewrite lookup_insert_ne by exact Hne. intros H. exists e'. auto.
  - unfold delete, deleteLocked. intros H. right.
    destruct (sessions (store st) !! id') as [e|] eqn:E; [|exists e'; auto].
    revert H. unfold with_sessions, cleanupUploads. cbn [store sessions].
    destruct (decide (id' = id)) as [<-|Hne].
    + rewrite lookup_delete_eq. discriminate.
    + rewrite lookup_delete_ne by exact Hne. intros H. exists e'. auto.
  - unfold purgeExpired. intros H. right. exists e'.
    split; [exact (proj1 (purge_lookup_Some _ _ _ _ H))|left; reflexivity].
Qed.

Lemma exec_app_one st tr to : exec st (tr ++ [to]) = step (exec st tr) to.
Proof. unfold exec. rewrite fold_left_app. reflexivity. Qed.

Lemma states_app_one st tr to :
  states st (tr ++ [to]) = states st tr ++ [exec st (tr ++ [to])].
Proof.
  revert st. induction tr as [|x tr IH]; intros st; [reflexivity|].
  cbn [app states]. rewrite IH. reflexivity.
Qed.

Lemma set_count_app id tr1 tr2 :
  set_count id (tr1 ++ tr2) = (set_count id tr1 + set_count id tr2)%nat.
Proof. unfold set_count. rewrite List.filter_app, length_app. reflexivity. Qed.

Lemma set_count_set id t s : set_count id [(t, OSet id s)] = 1%nat.
Proof. unfold set_count. cbn. rewrite streq_refl. reflexivity. Qed.

Lemma store_invariant id : forall tr, (set_count id tr <= 1)%nat ->
  ttl (store (exec newStore tr)) = 300 /\
  (forall e, sessions (store (exec newStore tr)) !! id = Some e ->
     (1 <= set_count id tr)%nat /\
     exists t o, In (t, o) tr /\ is_access id o = true /\ expiresAt e = t + 300) /\
  (forall p, recorded id tr p ->
     In p (held_uploads id (exec newStore tr)) \/ In p (removed (exec newStore tr))).
Proof.
  induction tr as [|[t o] tr IH] using rev_ind; intros Hc.
  - split; [reflexivity|split].
    + intros e H. cbn in H. rewrite lookup_empty in H. discriminate.
    + intros p (st & [<-|[]] & Hp). unfold held_uploads in Hp. cbn in Hp.
      rewrite lookup_empty in Hp. destruct Hp.
  - rewrite set_count_app in Hc. destruct IH as (Ht & Hi & Hr); [lia|].
    rewrite exec_app_one. set (st := exec newStore tr) in *.
    split; [rewrite step_ttl; exact Ht|split].
    + intros e' He'. apply step_lookup in He'.
      destruct He' as [(s & -> & Hx)|(e & He & Hx)].
      * rewrite set_count_app, set_count_set. split; [lia|].
        exists t, (OSet id s). split; [apply in_or_app; right; left; reflexivity|].
        split; [apply streq_refl|]. rewrite Hx, Ht. reflexivity.
      * destruct (Hi e He) as (Hc1 & t0 & o0 & Hin & Ha & Hex).
        rewrite set_count_app. split; [lia|].
        destruct Hx as [Hx|[Ha' Hx]].
        -- exists t0, o0. split; [apply in_or_app; left; exact Hin|]. split; [exact Ha|].
           rewrite Hx. exact Hex.
        -- exists t, o. split; [apply in_or_app; right; left; reflexivity|]. split; [exact Ha'|].
           rewrite Hx, Ht. reflexivity.
    + assert (Hset : forall s, o = OSet id s -> sessions (store st) !! id = None).
      { intros s ->. case_eq (sessions (store st) !! id); [intros e E|reflexivity].
        destruct (Hi e E) as [Hc1 _]. rewrite set_count_set in Hc. lia. }
      intros p (st' & Hin & Hp). rewrite states_app_one in Hin.
      destruct Hin as [<-|Hin].
      * apply (step_keeps id st t o p Hset). apply Hr. exists newStore.
        split; [left; reflexivity|exact Hp].
      * apply in_app_or in Hin. destruct Hin as [Hin|[<-|[]]].
        -- apply (step_keeps id st t o p Hset). apply Hr. exists st'.
           split; [right; exact Hin|exact Hp].
        -- left. rewrite exec_app_one in Hp. exact Hp.
Qed.

(** C8: run from [newStore], when every [set], [get] or [heartbeat] of [id]
    happened more than the TTL before [now] (and [id] is registered at most
    once, as the server does with fresh ids), a [get] at [now] returns
    nothing, and every upload path the store ever held for [id] is among the
    removed files. *)
Theorem ttl_expired_session_gone id tr now :
  (set_count id tr <= 1)%nat ->
  (forall t o, In (t, o) tr -> is_access id o = true -> t + ttl (store newStore) < now) ->
  fst (get id now (exec newStore tr)) = None /\
  (forall p, recorded id tr p -> In p (removed (snd (get id now (exec newStore tr))))).
Proof.
  intros Hc Hold. destruct (store_invariant id tr Hc) as (Ht & Hi & Hr).
  set (st := exec newStore tr) in *.
  assert (Hx : forall e, sessions (store st) !! id = Some e -> expiresAt e < now).
  { intros e E. destruct (Hi e E) as (_ & t & o & Hin & Ha & Hex).
    pose proof (Hold t o Hin Ha) as Hlt. cbn in Hlt. lia. }
  unfold get. cbv zeta. rewrite (purge_lookup_None now st id Hx).
  split; [reflexivity|]. cbn [snd].
  intros p Hp. destruct (Hr p Hp) as [Hh|Hm].
  - unfold held_uploads in Hh.
    case_eq (sessions (store st) !! id); [intros e E|intros E]; rewrite E in Hh;
      [|destruct Hh].
    exact (purge_expired_in now st id e p E (Hx e E) Hh).
  - rewrite purge_removed. apply in_or_app. left. exact Hm.
Qed.

Lemma ttl_expired_session_gone_witness :
  (set_count (s2b "s1") ttl_trace <= 1)%nat /\
  (forall t o, In (t, o) ttl_trace -> is_access (s2b "s1") o = true ->
               t + ttl (store newStore) < 400) /\
  fst (get (s2b "s1") 400 (exec newStore ttl_trace)) = None /\
  In (s2b "/tmp/u1.png") (removed (snd (get (s2b "s1") 400 (exec newStore ttl_trace)))).
Proof.
  assert (H1 : (set_count (s2b "s1") ttl_trace <= 1)%nat)
    by (apply Nat.leb_le; vm_compute; reflexivity).
  assert (H2 : forall t o, In (t, o) ttl_trace -> is_access (s2b "s1") o = true ->
                           t + ttl (store newStore) < 400).
  { intros t o Hin Ha. cbn in Hin.
    destruct Hin as [E|[E|[E|[E|[]]]]]; injection E as <- <-;
      vm_compute in Ha |- *; first [reflexivity | discriminate]. }
  split; [exact H1|split; [exact H2|]].
  destruct (ttl_expired_session_gone (s2b "s1") ttl_trace 400 H1 H2) as [G1 G2].
  split; [exact G1|]. apply G2.
  exists (nth 2 (newStore :: states newStore ttl_trace) newStore). split.
  - apply nth_In. cbn. lia.
  - vm_compute. left. reflexivity.
Defined.

End StoreProps.

(** ** Further properties of the session store *)
Module StoreExtra.
Import GoStrings Store SessionModel SpecDefs StoreDefs StoreProps ExtraDefs.

Lemma lookup_set id id' s t st :
  sessions (store (set id s t st)) !! id'
  = if decide (id = id') then Some (mkEntry s (t + ttl (store st)) [])
    else sessions (store st) !! id'.
Proof.
  unfold set, with_sessions. cbn [store sessions].
  destruct (decide (id = id')) as [<-|Hne].
  - apply lookup_insert_eq.
  - apply lookup_insert_ne. exact Hne.
Qed.

Lemma get_lookup id now st :
  get id now st
  = match sessions (store st) !! id with
    | Some e =>
      if decide (expiresAt e < now) then (None, purgeLocked now st)
      else (Some (sess e),
            with_sessions (purgeLocked now st)
              (<[id := mkEntry (sess e) (now + ttl (store st)) (uploads e)]>
                 (sessions (store (purgeLocked now st)))))
    | None => (None, purgeLocked now st)
    end.
Proof.
  unfold get. cbv zeta.
  destruct (sessions (store st) !! id) as [e|] eqn:E.
  - destruct (decide (expiresAt e < now)) as [Hx|Hx].
    + rewrite purge_lookup_None; [reflexivity|]. intros e' E'. rewrite E in E'.
      injection E' as <-. exact Hx.
    + rewrite (purge_lookup_kept now st id e E Hx). reflexivity.
  - rewrite purge_lookup_None; [reflexivity|]. intros e' E'. rewrite E in E'. discriminate.
Qed.

(** A session read back after [set] at [t] is there until [t + ttl] and gone after. *)
Theorem get_after_set id s t now st :
  fst (get id now (set id s t st))
  = if now <=? t + ttl (store st) then Some s else None.
Proof.
  rewrite get_lookup, lookup_set. rewrite decide_True by reflexivity. cbn [expiresAt sess].
  destruct (decide (t + ttl (store st) < now)) as [H|H];
    destruct (now <=? t + ttl (store st)) eqn:E; cbn [fst]; try reflexivity;
    apply Z.leb_le in E || apply Z.leb_gt in E; lia.
Qed.

(** A successful [get] at [t] renews the session: a later [get] finds it until [t + ttl]. *)
Theorem get_renews id t t' st s :
  fst (get id t st) = Some s ->
  fst (get id t' (snd (get id t st)))
  = if t' <=? t + ttl (store st) then Some s else None.
Proof.
  rewrite (get_lookup id t st).
  destruct (sessions (store st) !! id) as [e|] eqn:E; [|discriminate].
  destruct (decide (expiresAt e < t)) as [Hx|Hx]; [discriminate|].
  cbn [fst snd]. intros [= <-].
  rewrite get_lookup. unfold with_sessions at 1. cbn [store sessions].
  rewrite lookup_insert_eq. cbn [expiresAt sess].
  change (ttl (store (purgeLocked t st))) with (ttl (store st)).
  destruct (decide (t + ttl (store st) < t')) as [H|H];
    destruct (t' <=? t + ttl (store st)) eqn:E'; cbn [fst]; try reflexivity;
    apply Z.leb_le in E' || apply Z.leb_gt in E'; lia.
Qed.

(** [heartbeat] reports whether [get] finds the session, and leaves the store as [get] does. *)
Theorem heartbeat_is_get id now st :
  heartbeat id now st
  = (match fst (get id now st) with Some _ => true | None => false end, snd (get id now st)).
Proof.
  unfold heartbeat, get. cbv zeta.
  destruct (sessions (store (purgeLocked now st)) !! id); reflexivity.
Qed.

(** After [delete], [get] finds nothing; the deleted session's uploads are removed; other sessions are untouched. *)
Theorem delete_then_get id id' now st :
  fst (get id now (delete id st)) = None
  /\ (forall e p, sessions (store st) !! id = Some e -> In p (uploads e) ->
                  In p (removed (delete id st)))
  /\ (id' <> id -> sessions (store (delete id st)) !! id' = sessions (store st) !! id').
Proof.
  unfold delete, deleteLocked.
  destruct (sessions (store st) !! id) as [e|] eqn:E.
  - unfold with_sessions, cleanupUploads. cbn [store sessions removed].
    split; [|split].
    + rewrite get_lookup. cbn [store sessions]. rewrite lookup_delete_eq. reflexivity.
    + intros e' p E' Hp. injection E' as <-. apply in_or_app. right. exact Hp.
    + intros Hne. apply lookup_delete_ne. congruence.
  - split; [|split].
    + rewrite get_lookup, E. reflexivity.
    + intros e' p E'. discriminate.
    + intros _. reflexivity.
Qed.

(** [set] over a live session replaces its entry by one with no uploads,
    and removes no file: an upload of the old entry stays on disk, unknown
    to the store. *)
Theorem set_forgets_uploads id s t st e p :
  sessions (store st) !! id = Some e -> In p (uploads e) -> ~ In p (removed st) ->
  sessions (store (set id s t st)) !! id = Some (mkEntry s (t + ttl (store st)) [])
  /\ removed (set id s t st) = removed st
  /\ ~ In p (removed (set id s t st)).
Proof.
  intros _ _ Hr. rewrite lookup_set, decide_True by reflexivity.
  split; [reflexivity|split; [reflexivity|exact Hr]].
Qed.

(** [addUpload] removes no file and keeps the TTL and the set of
    sessions; only the entry of [id] changes, with [path] appended to its
    uploads, and only when [id] and [path] are non-empty. *)
Theorem addUpload_frame id path st :
  removed (addUpload id path st) = removed st
  /\ ttl (store (addUpload id path st)) = ttl (store st)
  /\ forall id', sessions (store (addUpload id path st)) !! id'
     = match sessions (store st) !! id' with
       | Some e =>
         Some (if bool_decide (id' = id /\ id <> [] /\ path <> [])
               then mkEntry (sess e) (expiresAt e) (uploads e ++ [path]) else e)
       | None => None
       end.
Proof.
  unfold addUpload, streq.
  destruct (bool_decide (id = []) || bool_decide (path = [])) eqn:B.
  { split; [reflexivity|split; [reflexivity|]]. intros id'.
    destruct (sessions (store st) !! id'); [|reflexivity].
    rewrite bool_decide_eq_false_2; [reflexivity|]. intros (_ & H1 & H2).
    apply orb_true_iff in B. destruct B as [B|B]; apply bool_decide_eq_true in B; contradiction. }
  apply orb_false_iff in B. destruct B as [B1 B2].
  apply bool_decide_eq_false in B1, B2.
  destruct (sessions (store st) !! id) as [e|] eqn:E.
  - unfold with_sessions. cbn [store sessions removed ttl].
    split; [reflexivity|split; [reflexivity|]]. intros id'.
    destruct (decide (id' = id)) as [->|Hne].
    + rewrite lookup_insert_eq, E, bool_decide_eq_true_2 by auto. reflexivity.
    + rewrite lookup_insert_ne by congruence.
      destruct (sessions (store st) !! id'); [|reflexivity].
      rewrite bool_decide_eq_false_2 by tauto. reflexivity.
  - split; [reflexivity|split; [reflexivity|]]. intros id'.
    destruct (decide (id' = id)) as [->|Hne]; [rewrite E; reflexivity|].
    destruct (sessions (store st) !! id'); [|reflexivity].
    rewrite bool_decide_eq_false_2 by tauto. reflexivity.
Qed.

(** [purgeExpired] keeps exactly the unexpired sessions and removes exactly the uploads of the expired ones. *)
Theorem purge_exact now st :
  (forall i, sessions (store (purgeExpired now st)) !! i
             = match sessions (store st) !! i with
               | Some e => if decide (expiresAt e < now) then None else Some e
               | None => None
               end)
  /\ (forall p, In p (removed (purgeExpired now st))
                <-> In p (removed st)
                    \/ exists i e, sessions (store st) !! i = Some e /\ expiresAt e < now
                                   /\ In p (uploads e)).
Proof.
  unfold purgeExpired. split.
  - intros i. destruct (sessions (store st) !! i) as [e|] eqn:E.
    + destruct (decide (expiresAt e < now)) as [Hx|Hx].
      * apply purge_lookup_None. intros e' E'. rewrite E in E'. injection E' as <-. exact Hx.
      * apply purge_lookup_kept; assumption.
    + apply purge_lookup_None. intros e' E'. rewrite E in E'. discriminate.
  - intros p. rewrite purge_removed. rewrite in_app_iff. split.
    + intros [H|H]; [left; exact H|right].
      apply in_concat in H. destruct H as (l & Hl & Hp).
      apply in_map_iff in Hl. destruct Hl as ([i e] & <- & Hin).
      apply list_elem_of_In, list_elem_of_filter in Hin. destruct Hin as [Hx Hin].
      apply elem_of_map_to_list in Hin. exists i, e. auto.
    + intros [H|(i & e & E & Hx & Hp)]; [left; exact H|right].
      apply in_concat. exists (uploads e). split; [|exact Hp].
      apply in_map_iff. exists (i, e). split; [reflexivity|].
      apply list_elem_of_In, list_elem_of_filter. split; [exact Hx|].
      apply elem_of_map_to_list. exact E.
Qed.

Lemma get_renews_witness :
  fst (get (s2b "s1") 100 store_fx) = Some sess_fx /\
  fst (get (s2b "s1") 350 (snd (get (s2b "s1") 100 store_fx))) = Some sess_fx.
Proof.
  assert (H : fst (get (s2b "s1") 100 store_fx) = Some sess_fx) by (vm_compute; reflexivity).
  split; [exact H|]. rewrite (get_renews (s2b "s1") 100 350 store_fx sess_fx H).
  vm_compute. reflexivity.
Defined.

Lemma set_forgets_uploads_witness :
  sessions (store (set (s2b "s1") sess_fx 50 upload_store_fx)) !! s2b "s1"
  = Some (mkEntry sess_fx (50 + ttl (store upload_store_fx)) [])
  /\ removed (set (s2b "s1") sess_fx 50 upload_store_fx) = removed upload_store_fx
  /\ ~ In (s2b "/tmp/u1.png") (removed (set (s2b "s1") sess_fx 50 upload_store_fx)).
Proof.
  apply (set_forgets_uploads (s2b "s1") sess_fx 50 upload_store_fx
           (mkEntry sess_fx 300 [s2b "/tmp/u1.png"]) (s2b "/tmp/u1.png")).
  - vm_compute. reflexivity.
  - left. reflexivity.
  - vm_compute. intros [].
Defined.

End StoreExtra.

(** ** Further properties of the publisher *)
Module PublishExtra.
Import GoStrings Regexp Publisher Publish SpecDefs RegexpProps EngineProps ListProps ImageProps ExtraDefs.

Section Loop.
Variable Stat_ok : gostring -> bool.
Variable join : gostring -> gostring -> gostring.
Variable upload : gostring -> result gostring.

Lemma img_loop_events md base ms : forall last builder,
  exists ps, snd (img_loop Stat_ok join upload md base ms last builder)
             = map EvUploadContentImage ps.
Proof.
  induction ms as [|m ms IH]; intros last builder; cbn [img_loop].
  - destruct (go_slice md last (Z.of_nat (length md))); exists []; reflexivity.
  - destruct (length m <? 4)%nat; [apply IH|].
    destruct (go_slice md last (nth 2 m 0)) as [gap|]; [|exists []; reflexivity].
    destruct (go_slice md (nth 2 m 0) (nth 3 m 0)) as [ref|]; [|exists []; reflexivity].
    destruct (HasPrefix (TrimSpace ref) (s2b "http://")
              || HasPrefix (TrimSpace ref) (s2b "https://")); [apply IH|].
    destruct (HasPrefix (TrimSpace ref) (s2b "data:")); [apply IH|].
    set (lp := if negb (IsAbs (TrimSpace ref)) && negb (Stat_ok (TrimSpace ref))
               then join base (TrimSpace ref) else TrimSpace ref).
    destruct (upload lp) as [u|err]; cbn [pbind]; [|exists [lp]; reflexivity].
    destruct (img_loop Stat_ok join upload md base ms (nth 3 m 0) _) as [r ev] eqn:EL.
    destruct (IH (nth 3 m 0) (builder ++ gap ++ u)) as [ps Hps].
    rewrite <- app_assoc in EL. rewrite EL in Hps. cbn [snd] in Hps.
    exists (lp :: ps). cbn [snd]. rewrite Hps. reflexivity.
Qed.

Lemma img_loop_err md base ms : forall last builder e,
  fst (img_loop Stat_ok join upload md base ms last builder) = Some (Err e) ->
  exists ps p, snd (img_loop Stat_ok join upload md base ms last builder)
               = map EvUploadContentImage ps ++ [EvUploadContentImage p]
               /\ upload p = Err e.
Proof.
  induction ms as [|m ms IH]; intros last builder e; cbn [img_loop].
  - destruct (go_slice md last (Z.of_nat (length md))); discriminate.
  - destruct (length m <? 4)%nat; [apply IH|].
    destruct (go_slice md last (nth 2 m 0)) as [gap|]; [|discriminate].
    destruct (go_slice md (nth 2 m 0) (nth 3 m 0)) as [ref|]; [|discriminate].
    destruct (HasPrefix (TrimSpace ref) (s2b "http://")
              || HasPrefix (TrimSpace ref) (s2b "https://")); [apply IH|].
    destruct (HasPrefix (TrimSpace ref) (s2b "data:")); [apply IH|].
    set (lp := if negb (IsAbs (TrimSpace ref)) && negb (Stat_ok (TrimSpace ref))
               then join base (TrimSpace ref) else TrimSpace ref).
    destruct (upload lp) as [u|err] eqn:U; cbn [pbind].
    + destruct (img_loop Stat_ok join upload md base ms (nth 3 m 0) _) as [r ev] eqn:EL.
      cbn [fst snd]. intros Hr.
      destruct (IH (nth 3 m 0) ((builder ++ gap) ++ u) e) as (ps & p & Hps & Hp);
        [rewrite EL; exact Hr|].
      rewrite EL in Hps. cbn [snd] in Hps.
      exists (lp :: ps), p. rewrite Hps. split; [reflexivity|exact Hp].
    + cbn [fst snd]. intros [= <-]. exists [], lp. split; [reflexivity|exact U].
Qed.

Lemma img_loop_some md base (f : nat * nat * caps -> list Z) :
  (forall a e (cp : caps) i j, cp 1%nat = Some (i, j) ->
     f (a, e, cp) = [Z.of_nat a; Z.of_nat e; Z.of_nat i; Z.of_nat j]) ->
  forall L last builder, img_chain md last L -> (last <= length md)%nat ->
  fst (img_loop Stat_ok join upload md base (map f L) (Z.of_nat last) builder) <> None.
Proof.
  intros Hf. induction L as [|[[a e] cp] L IH]; intros last builder Hc Hl.
  - cbn [map img_loop]. rewrite go_slice_ok by lia. discriminate.
  - destruct Hc as (i & j & Hcp & Hpa & Hai & Hij & He & N1 & N2 & N3 & Hc').
    pose proof (nth_error_lt _ _ _ N3) as Hj.
    assert (Hc'' : img_chain md j L) by (apply (img_chain_weaken _ _ e); [lia|exact Hc']).
    cbn [map img_loop]. rewrite (Hf a e cp i j Hcp).
    cbn [app nth length Nat.ltb Nat.leb].
    rewrite go_slice_ok by lia. rewrite go_slice_ok by lia.
    set (ref := slice md i j).
    destruct (HasPrefix (TrimSpace ref) (s2b "http://")
              || HasPrefix (TrimSpace ref) (s2b "https://")); [apply IH; [exact Hc''|lia]|].
    destruct (HasPrefix (TrimSpace ref) (s2b "data:")); [apply IH; [exact Hc''|lia]|].
    set (lp := if negb (IsAbs (TrimSpace ref)) && negb (Stat_ok (TrimSpace ref))
               then join base (TrimSpace ref) else TrimSpace ref).
    destruct (upload lp) as [u|err]; cbn [pbind]; [|discriminate].
    destruct (img_loop Stat_ok join upload md base (map f L) (Z.of_nat j) _) as [r ev] eqn:EL.
    cbn [fst]. intros Hr. subst r.
    apply (IH j (((builder ++ slice md last i) ++ u))); [exact Hc''|lia|].
    rewrite EL. reflexivity.
Qed.

End Loop.

(** Image resolution never panics: every slice it takes is in range. *)
Theorem images_never_panic Stat_ok join dir upload (md mdPath : gostring) :
  fst (replaceMarkdownImages Stat_ok join dir upload md mdPath) <> None.
Proof.
  rewrite replace_as_loop. unfold FindAllStringSubmatchIndex.
  exact (img_loop_some Stat_ok join upload md (dir mdPath) _ findall_img_shape
           (allMatches imgPattern md) 0 [] (allMatches_chain md) ltac:(lia)).
Qed.

(** When image resolution fails, the last call it made is the upload that failed, with that error; only uploads came before. *)
Theorem images_stop_at_failed_upload Stat_ok join dir upload (md mdPath : gostring) e :
  fst (replaceMarkdownImages Stat_ok join dir upload md mdPath) = Some (Err e) ->
  exists ps p, snd (replaceMarkdownImages Stat_ok join dir upload md mdPath)
               = map EvUploadContentImage ps ++ [EvUploadContentImage p]
               /\ upload p = Err e.
Proof.
  rewrite replace_as_loop. apply img_loop_err.
Qed.

Lemma replace_events Stat_ok join dir upload (md mdPath : gostring) :
  exists ps, snd (replaceMarkdownImages Stat_ok join dir upload md mdPath)
             = map EvUploadContentImage ps.
Proof. rewrite replace_as_loop. apply img_loop_events. Qed.

(** [PublishDraft] without a Markdown path, a title or a cover path fails with the required-fields error and calls nothing. *)
Theorem publish_requires_fields Stat_ok join dir upload read html upImg add params :
  MarkdownPath params = [] \/ PTitle params = [] \/ CoverPath params = [] ->
  PublishDraft Stat_ok join dir upload read html upImg add params
  = (Some (Err required_error), []).
Proof.
  intros H. unfold PublishDraft.
  assert (E : streq [] [] = true) by reflexivity.
  destruct H as [H|[H|H]]; rewrite H, E; rewrite ?orb_true_r, ?orb_true_l; reflexivity.
Qed.

Lemma publish_checked Stat_ok join dir upload read html upImg add params :
  MarkdownPath params <> [] -> PTitle params <> [] -> CoverPath params <> [] ->
  PublishDraft Stat_ok join dir upload read html upImg add params
  = pbind (Some (read (MarkdownPath params)), []) (fun md =>
    pbind (replaceMarkdownImages Stat_ok join dir upload md (MarkdownPath params)) (fun md' =>
    pbind (Some (html md'), []) (fun h =>
    pbind (Some (upImg (CoverPath params)), [EvUploadImage (CoverPath params)]) (fun thumb =>
    let art := mkArticle (PTitle params) (Author params) (final_digest params md)
                         (normalizeForWeChat h) thumb 0 0 in
    pbind (Some (add art), [EvAddDraft art]) (fun id => pret id))))).
Proof.
  intros H1 H2 H3. unfold PublishDraft, streq.
  rewrite !bool_decide_eq_false_2 by assumption. reflexivity.
Qed.

(** [PublishDraft] calls the content-image uploads first, then the cover
    upload, then [addDraft] with the cover's media id, the title and the
    author. With the required fields set, a failed read, image upload, HTML
    conversion, cover upload or [addDraft] returns that error, and no call
    after the failing one is made. *)
Theorem publish_event_order Stat_ok join dir upload read html upImg add params :
  (exists ps rest,
    snd (PublishDraft Stat_ok join dir upload read html upImg add params)
    = map EvUploadContentImage ps ++ rest
    /\ (rest = [] \/ rest = [EvUploadImage (CoverPath params)]
        \/ exists art, rest = [EvUploadImage (CoverPath params); EvAddDraft art]
                       /\ upImg (CoverPath params) = Ok (AThumbMediaID art)
                       /\ ATitle art = PTitle params /\ AAuthor art = Author params))
  /\ (MarkdownPath params <> [] -> PTitle params <> [] -> CoverPath params <> [] ->
      (forall e, read (MarkdownPath params) = Err e ->
         PublishDraft Stat_ok join dir upload read html upImg add params = (Some (Err e), []))
      /\ (forall md evs e, read (MarkdownPath params) = Ok md ->
            replaceMarkdownImages Stat_ok join dir upload md (MarkdownPath params)
            = (Some (Err e), evs) ->
            PublishDraft Stat_ok join dir upload read html upImg add params
            = (Some (Err e), evs))
      /\ (forall md md' evs e, read (MarkdownPath params) = Ok md ->
            replaceMarkdownImages Stat_ok join dir upload md (MarkdownPath params)
            = (Some (Ok md'), evs) ->
            html md' = Err e ->
            PublishDraft Stat_ok join dir upload read html upImg add params
            = (Some (Err e), evs))
      /\ (forall md md' evs h e, read (MarkdownPath params) = Ok md ->
            replaceMarkdownImages Stat_ok join dir upload md (MarkdownPath params)
            = (Some (Ok md'), evs) ->
            html md' = Ok h -> upImg (CoverPath params) = Err e ->
            PublishDraft Stat_ok join dir upload read html upImg add params
            = (Some (Err e), evs ++ [EvUploadImage (CoverPath params)]))
      /\ (forall md md' evs h thumb e, read (MarkdownPath params) = Ok md ->
            replaceMarkdownImages Stat_ok join dir upload md (MarkdownPath params)
            = (Some (Ok md'), evs) ->
            html md' = Ok h -> upImg (CoverPath params) = Ok thumb ->
            add (mkArticle (PTitle params) (Author params) (final_digest params md)
                           (normalizeForWeChat h) thumb 0 0) = Err e ->
            PublishDraft Stat_ok join dir upload read html upImg add params
            = (Some (Err e),
               evs ++ [EvUploadImage (CoverPath params);
                       EvAddDraft (mkArticle (PTitle params) (Author params)
                                    (final_digest params md) (normalizeForWeChat h)
                                    thumb 0 0)]))).
Proof.
  split.
  - unfold PublishDraft.
    destruct (streq (MarkdownPath params) [] || streq (PTitle params) []
              || streq (CoverPath params) []);
      [close_events (@nil gostring) (@nil event); left; reflexivity|].
    destruct (read (MarkdownPath params)) as [md|err]; cbn [pbind];
      [|close_events (@nil gostring) (@nil event); left; reflexivity].
    destruct (replace_events Stat_ok join dir upload md (MarkdownPath params)) as [ps Hps].
    destruct (replaceMarkdownImages Stat_ok join dir upload md (MarkdownPath params))
      as [r ev] eqn:ER. cbn [snd] in Hps. subst ev.
    destruct r as [[md'|err]|]; cbn [pbind];
      [|close_events ps (@nil event); left; reflexivity
       |close_events ps (@nil event); left; reflexivity].
    destruct (html md') as [h|err]; cbn [pbind];
      [|close_events ps (@nil event); left; reflexivity].
    destruct (upImg (CoverPath params)) as [thumb|err] eqn:UI; cbn [pbind];
      [|close_events ps [EvUploadImage (CoverPath params)]; right; left; reflexivity].
    set (art := mkArticle (PTitle params) (Author params)
                  (match PDigest params with [] => defaultDigest md 120 | d => d end)
                  (normalizeForWeChat h) thumb 0 0).
    destruct (add art) as [id|err]; cbn [pbind pret];
      close_events ps [EvUploadImage (CoverPath params); EvAddDraft art]; right; right;
      exists art; (split; [reflexivity|split; [reflexivity|split; reflexivity]]).
  - intros H1 H2 H3. rewrite (publish_checked _ _ _ _ _ _ _ _ _ H1 H2 H3).
    split; [|split; [|split; [|split]]].
    + intros e HR. rewrite HR. reflexivity.
    + intros md evs e HR HI. rewrite HR. cbn [pbind]. rewrite HI. reflexivity.
    + intros md md' evs e HR HI HH. rewrite HR. cbn [pbind]. rewrite HI. cbn [pbind].
      rewrite HH. cbn [pbind]. cbn [app]; rewrite ?app_nil_r. reflexivity.
    + intros md md' evs h e HR HI HH HU. rewrite HR. cbn [pbind]. rewrite HI. cbn [pbind].
      rewrite HH. cbn [pbind]. rewrite HU. cbn [pbind]. cbn [app]; rewrite ?app_nil_r. reflexivity.
    + intros md md' evs h thumb e HR HI HH HU HA. rewrite HR. cbn [pbind]. rewrite HI.
      cbn [pbind]. rewrite HH. cbn [pbind]. rewrite HU. cbn [pbind]. rewrite HA.
      cbn [pbind]. cbn [app]; rewrite ?app_nil_r. reflexivity.
Qed.

(** When every call succeeds, [PublishDraft] returns the draft id of [addDraft], called with the normalized HTML and the final digest. *)
Theorem publish_success Stat_ok join dir upload read html upImg add params
    md md' evs h thumb id :
  read (MarkdownPath params) = Ok md ->
  replaceMarkdownImages Stat_ok join dir upload md (MarkdownPath params) = (Some (Ok md'), evs) ->
  html md' = Ok h -> upImg (CoverPath params) = Ok thumb ->
  add (mkArticle (PTitle params) (Author params) (final_digest params md)
                 (normalizeForWeChat h) thumb 0 0) = Ok id ->
  MarkdownPath params <> [] -> PTitle params <> [] -> CoverPath params <> [] ->
  PublishDraft Stat_ok join dir upload read html upImg add params
  = (Some (Ok id),
     evs ++ [EvUploadImage (CoverPath params);
             EvAddDraft (mkArticle (PTitle params) (Author params) (final_digest params md)
                                   (normalizeForWeChat h) thumb 0 0)]).
Proof.
  intros HR HI HH HU HA H1 H2 H3. unfold PublishDraft.
  unfold streq. rewrite !bool_decide_eq_false_2 by assumption. cbn [orb].
  rewrite HR. cbn [pbind]. rewrite HI. cbn [pbind]. rewrite HH. cbn [pbind].
  rewrite HU. cbn [pbind]. unfold final_digest in HA. rewrite HA. cbn [pbind pret].
  rewrite !app_nil_r. reflexivity.
Qed.

Lemma images_stop_at_failed_upload_witness :
  exists ps p,
    snd (replaceMarkdownImages pub_stat_fx pub_join_fx pub_dir_fx upload_err_fx img_md_fx (s2b "docs/a.md"))
    = map EvUploadContentImage ps ++ [EvUploadContentImage p]
    /\ upload_err_fx p = Err (Error (s2b "quota")).
Proof.
  apply (images_stop_at_failed_upload pub_stat_fx pub_join_fx pub_dir_fx upload_err_fx img_md_fx
           (s2b "docs/a.md") (Error (s2b "quota"))).
  vm_compute. reflexivity.
Defined.

Lemma publish_requires_fields_witness :
  PublishDraft pub_stat_fx pub_join_fx pub_dir_fx upload_ok_fx pub_read_fx pub_html_fx pub_cover_fx pub_add_fx
    (mkParams (s2b "docs/a.md") [] (s2b "cover.jpg") (s2b "me") [])
  = (Some (Err required_error), []).
Proof.
  apply publish_requires_fields. right. left. reflexivity.
Defined.

Lemma publish_success_witness :
  PublishDraft pub_stat_fx pub_join_fx pub_dir_fx upload_ok_fx pub_read_fx pub_html_fx pub_cover_fx pub_add_fx params_fx
  = (Some (Ok (s2b "draft1")),
     [EvUploadContentImage (s2b "docs/x.png"); EvUploadContentImage (s2b "docs/y.png")]
     ++ [EvUploadImage (s2b "cover.jpg");
         EvAddDraft (mkArticle (s2b "Title") (s2b "me") (final_digest params_fx img_md_fx)
                      (normalizeForWeChat (s2b "<p>" ++ img_md_out_fx ++ s2b "</p>"))
                      (s2b "thumb1") 0 0)]).
Proof.
  apply (publish_success pub_stat_fx pub_join_fx pub_dir_fx upload_ok_fx pub_read_fx pub_html_fx pub_cover_fx pub_add_fx
           params_fx img_md_fx img_md_out_fx);
    first [vm_compute; reflexivity | discriminate].
Defined.

End PublishExtra.

(** ** Further properties of the post-processor and the agent *)
Module TextExtra.
Import GoStrings Regexp Generator SpecDefs PostProcessProps RegexpProps EngineProps ListProps
       AgentModel ExtraDefs.

Lemma DecodeRune_ascii s r w :
  DecodeRune s = (r, w) -> forall x, In x (firstn w s) -> x < 128 -> r = x.
Proof.
  destruct s as [|b0 t]; cbn [DecodeRune].
  { intros [= <- <-] x []. }
  destruct (b0 <? 128) eqn:H0.
  { intros [= <- <-] x [<-|[]] _. reflexivity. }
  apply Z.ltb_ge in H0.
  repeat match goal with
  | |- context [match (if ?c then _ else _) with _ => _ end] => destruct c
  end; cbn zeta iota;
  repeat case_match; intros [= <- <-];
  cbn [firstn In]; intros x Hx Hlt;
  repeat (destruct Hx as [Hx|Hx]; [subst x|]); try contradiction;
  unfold in_range in *;
  repeat match goal with
  | H : negb _ = false |- _ => apply negb_false_iff in H
  | H : (_ && _) = true |- _ => apply andb_true_iff in H; destruct H
  | H : (_ <=? _) = true |- _ => apply Z.leb_le in H
  end; lia.
Qed.

Lemma chunks_fuel_ascii f s : Forall ascii_rune (chunks_fuel f s).
Proof.
  revert s. induction f as [|f IH]; intros s; cbn [chunks_fuel]; [constructor|].
  destruct s as [|b t]; [constructor|].
  destruct (DecodeRune (b :: t)) as [r w] eqn:D.
  constructor; [|apply IH].
  unfold ascii_rune; cbn [fst snd]. exact (DecodeRune_ascii _ _ _ D).
Qed.

Lemma fields_aux_ascii cs cur :
  Forall ascii_rune cs -> no_ascii_space cur ->
  Forall no_ascii_space (fields_aux cs cur).
Proof.
  revert cur. induction cs as [|[r b] cs IH]; intros cur HF Hc; cbn [fields_aux].
  - destruct cur; repeat constructor; assumption.
  - inversion HF as [|? ? Hr Hcs]; subst.
    destruct (IsSpace r) eqn:Sp.
    + assert (N : no_ascii_space []) by (intros x []).
      destruct cur; [apply IH; assumption|constructor; [exact Hc|apply IH; assumption]].
    + apply IH; [exact Hcs|]. intros x Hx Hlt. apply in_app_or in Hx.
      destruct Hx as [Hx|Hx]; [exact (Hc x Hx Hlt)|].
      rewrite <- (Hr x Hx Hlt). exact Sp.
Qed.

Lemma Fields_ascii s : Forall no_ascii_space (Fields s).
Proof.
  apply fields_aux_ascii; [apply chunks_fuel_ascii|intros x []].
Qed.

Lemma Join_in xs sep x :
  In x (Join xs sep) -> In x sep \/ exists f, In f xs /\ In x f.
Proof.
  induction xs as [|f xs IH]; cbn [Join]; [intros []|].
  destruct xs as [|g xs].
  - intros H. right. exists f. split; [left; reflexivity|exact H].
  - intros H. apply in_app_or in H. destruct H as [H|H].
    + right. exists f. split; [left; reflexivity|exact H].
    + apply in_app_or in H. destruct H as [H|H]; [left; exact H|].
      destruct (IH H) as [Hs|[g' [Hg Hx]]]; [left; exact Hs|].
      right. exists g'. split; [right; exact Hg|exact Hx].
Qed.

Lemma firstn_in {A} n (l : list A) x : In x (firstn n l) -> In x l.
Proof.
  intros H. rewrite <- (firstn_skipn n l). apply in_or_app. left. exact H.
Qed.

(** [defaultDigest] (the same code in the generator and the publisher) returns at most [limit] bytes, a prefix of the text's fields joined by single spaces, with no tab, line feed, vertical tab, form feed or carriage return. *)
Theorem defaultDigest_single_line md limit :
  Publisher.defaultDigest md limit = defaultDigest md limit /\
  (length (defaultDigest md limit) <= limit)%nat /\
  (exists rest, Join (Fields md) [32] = defaultDigest md limit ++ rest) /\
  (forall x, In x (defaultDigest md limit) -> ~ (9 <= x <= 13)).
Proof.
  split; [reflexivity|].
  unfold defaultDigest. set (joined := Join (Fields md) [32]).
  assert (J : forall x, In x joined -> ~ (9 <= x <= 13)).
  { intros x Hx Hr. destruct (Join_in _ _ _ Hx) as [[<-|[]]|[f [Hf Hxf]]]; [lia|].
    pose proof (proj1 (List.Forall_forall _ _) (Fields_ascii md) f Hf x Hxf ltac:(lia)) as N.
    unfold IsSpace in N. repeat rewrite orb_false_iff in N.
    destruct N as [[[[[[[[[[[[[[N1 N2] N3] N4] N5] N6] _] _] _] _] _] _] _] _] _].
    rewrite !Z.eqb_neq in *. lia. }
  destruct (length joined <=? limit)%nat eqn:L.
  - apply Nat.leb_le in L. split; [exact L|]. split; [exists []; rewrite app_nil_r; reflexivity|exact J].
  - apply Nat.leb_gt in L. split; [rewrite firstn_length_le; lia|].
    split; [exists (skipn limit joined); symmetry; apply firstn_skipn|].
    intros x Hx. apply J. exact (firstn_in _ _ _ Hx).
Qed.

Lemma extractDigest_loop_find lines :
  extractDigest_loop lines [] =
  match List.find digest_line lines with Some l => TrimSpace l | None => [] end.
Proof.
  induction lines as [|l t IH]; cbn [extractDigest_loop List.find]; [reflexivity|].
  unfold digest_line. destruct (HasPrefix (TrimSpace l) (s2b "#")); cbn [negb andb]; [exact IH|].
  destruct (TrimSpace l) as [|c tl] eqn:E; [exact IH|].
  unfold streq. rewrite bool_decide_false by discriminate. cbn. rewrite E. reflexivity.
Qed.

Lemma Split1_no_sep s sep : Forall (fun l => ~ In sep l) (Split1 s sep).
Proof.
  induction s as [|c t IH]; cbn [Split1]; [repeat constructor; intros []|].
  destruct (c =? sep) eqn:E; [constructor; [intros []|exact IH]|].
  apply Z.eqb_neq in E.
  destruct (Split1 t sep) as [|x xs]; [repeat constructor; intros [H|[]]; congruence|].
  inversion IH; subst. constructor; [|assumption].
  intros [H|H]; [congruence|tauto].
Qed.

(** [extractDigest] is the trimmed first line that is neither blank nor a heading once trimmed, or [""] without one; it never holds a line feed. *)
Theorem extractDigest_first_line md :
  extractDigest md =
    match List.find digest_line (Split1 md 10) with Some l => TrimSpace l | None => [] end /\
  ~ In 10 (extractDigest md).
Proof.
  unfold extractDigest. rewrite extractDigest_loop_find. split; [reflexivity|].
  destruct (List.find digest_line (Split1 md 10)) as [l|] eqn:F; [|intros []].
  apply List.find_some in F. destruct F as [Hl _].
  pose proof (proj1 (List.Forall_forall _ _) (Split1_no_sep md 10) l Hl) as N.
  assert (T : Forall (fun x => x <> 10) (TrimSpace l)).
  { apply TrimSpace_Forall. apply List.Forall_forall. intros x Hx E. subst x. exact (N Hx). }
  intros H. exact (proj1 (List.Forall_forall _ _) T 10 H eq_refl).
Qed.

Lemma run_len_firstn (p : Z -> bool) s j :
  (j <= run_len p s)%nat -> Forall (fun x => p x = true) (firstn j s).
Proof.
  revert j. induction s as [|c t IH]; intros j Hj; cbn [run_len] in Hj.
  - rewrite firstn_nil. constructor.
  - destruct j as [|j]; [constructor|]. cbn [firstn].
    destruct (p c) eqn:P; [|lia]. constructor; [exact P|apply IH; lia].
Qed.

Lemma titleRe_group inp a e cp :
  match_at titleRe inp a = Some (e, cp) ->
  exists i j, cp 1%nat = Some (i, j) /\ Forall (fun x => x <> 10) (slice inp i j).
Proof.
  unfold match_at, titleRe. cbn [mt].
  destruct (at_line_start inp a); [|discriminate].
  destruct (nth_error inp a) as [d|]; [|discriminate].
  destruct (35 =? d); [|discriminate].
  intros H. apply first_some_Some in H. destruct H as [j1 [_ H]].
  apply first_some_Some in H. destruct H as [j2 [Hj2 H]].
  destruct (at_line_end inp (S a + j1 + j2)); [|discriminate].
  injection H as _ <-.
  exists (S a + j1)%nat, (S a + j1 + j2)%nat. split; [reflexivity|].
  apply in_rev in Hj2. apply in_seq in Hj2.
  unfold slice. replace (S a + j1 + j2 - (S a + j1))%nat with j2 by lia.
  eapply List.Forall_impl; [|apply (run_len_firstn (fun c => negb (c =? 10))); lia].
  intros x Hx. cbn in Hx. intros E. subst x. discriminate.
Qed.

(** The title [extractTitle] finds never holds a line feed. *)
Theorem extractTitle_single_line md : ~ In 10 (extractTitle md).
Proof.
  unfold extractTitle, FindStringSubmatch.
  destruct (search titleRe md 0) as [[[a e] cp]|] eqn:S; [|intros []].
  apply search_Some in S. destruct S as [_ M].
  destruct (titleRe_group _ _ _ _ M) as [i [j [C F]]].
  cbn [length map seq nth Nat.leb]. unfold group_text. rewrite C.
  intros H. apply (TrimSpace_Forall (fun x => x <> 10)) in F.
  exact (proj1 (List.Forall_forall _ _) F 10 H eq_refl).
Qed.

Lemma postprocess_ok raw spec d :
  PostProcess raw spec = Ok d -> model_draft raw d.
Proof.
  unfold PostProcess. destruct (TrimSpace raw) as [|c t] eqn:T; [discriminate|].
  intros H. injection H as <-. unfold model_draft; cbn [Markdown Title Digest].
  split; [symmetry; exact T|]. split; [discriminate|]. split; [reflexivity|].
  split; [apply extractTitle_single_line|].
  destruct (extractDigest (c :: t)) eqn:D.
  - intros Hx. apply (proj2 (proj2 (proj2 (defaultDigest_single_line (c :: t) 120))) 10 Hx). lia.
  - rewrite <- D. apply extractDigest_first_line.
Qed.

Section Sessions.
Context {Prompt : Type}.
Variable BuildInitialPrompt : Spec -> Prompt.
Variable BuildRevisionPrompt : Spec -> Draft -> gostring -> list Turn -> Prompt.
Variable Complete : Prompt -> result gostring.

(** With the agent's [Generate], a successful [Propose] or [Revise] stores the draft made from the model's answer to the matching prompt: the trimmed, non-empty answer, with a one-line title and digest. *)
Theorem session_draft_from_model s comment now d s' :
  (SessionModel.Propose (Generate BuildInitialPrompt BuildRevisionPrompt Complete) s now = (Ok d, s') ->
   exists raw, Complete (BuildInitialPrompt (SSpec s)) = Ok raw /\ model_draft raw d /\ SDraft s' = d) /\
  (SessionModel.Revise (Generate BuildInitialPrompt BuildRevisionPrompt Complete) s comment now = (Ok d, s') ->
   exists raw, Complete (BuildRevisionPrompt (SSpec s) (SDraft s) comment (History s)) = Ok raw /\
               model_draft raw d /\ SDraft s' = d).
Proof.
  unfold SessionModel.Propose, SessionModel.Revise, Generate. split.
  - destruct (Complete (BuildInitialPrompt (SSpec s))) as [raw|e]; [|discriminate].
    destruct (PostProcess raw (SSpec s)) as [d0|e] eqn:P; [|discriminate].
    intros H. injection H as <- <-. exists raw.
    split; [reflexivity|]. split; [exact (postprocess_ok _ _ _ P)|reflexivity].
  - destruct (Complete (BuildRevisionPrompt (SSpec s) (SDraft s) comment (History s))) as [raw|e];
      [|discriminate].
    destruct (PostProcess raw (SSpec s)) as [d0|e] eqn:P; [|discriminate].
    intros H. injection H as <- <-. exists raw.
    split; [reflexivity|]. split; [exact (postprocess_ok _ _ _ P)|reflexivity].
Qed.
End Sessions.

Lemma session_draft_from_model_witness :
  exists raw, complete_fx (bi_fx (SSpec sess_fx)) = Ok raw
    /\ model_draft raw (mkDraft (s2b "T") (s2b "Hello world")
                                (s2b "# T" ++ [10; 10] ++ s2b "Hello world") [] [])
    /\ SDraft (snd (SessionModel.Propose (Generate bi_fx br_fx complete_fx) sess_fx 0))
       = mkDraft (s2b "T") (s2b "Hello world") (s2b "# T" ++ [10; 10] ++ s2b "Hello world") [] [].
Proof.
  apply (proj1 (session_draft_from_model bi_fx br_fx complete_fx sess_fx [] 0 _
           (snd (SessionModel.Propose (Generate bi_fx br_fx complete_fx) sess_fx 0)))).
  vm_compute. reflexivity.
Defined.

End TextExtra.

(** ** Properties of [sanitizeFilename] *)
Module UploadNameExtra.
Import GoStrings PathStrings ExtraDefs.

Lemma Index_Some s sep j :
  Index s sep = Some j ->
  HasPrefix (skipn j s) sep = true /\ (forall i, (i < j)%nat -> HasPrefix (skipn i s) sep = false)
  /\ (j <= length s)%nat.
Proof.
  revert j. induction s as [|c t IH]; intros j; cbn [Index].
  - destruct (HasPrefix [] sep) eqn:H; [|discriminate]. intros [= <-].
    split; [exact H|split; [intros; lia|cbn; lia]].
  - destruct (HasPrefix (c :: t) sep) eqn:H.
    + intros [= <-]. split; [exact H|split; [intros; lia|cbn; lia]].
    + destruct (Index t sep) as [j'|]; cbn [option_map]; [|discriminate].
      intros [= <-]. destruct (IH j' eq_refl) as (H1 & H2 & H3).
      split; [exact H1|split; [|cbn; lia]].
      intros [|i] Hi; [exact H|]. cbn [skipn]. apply H2. lia.
Qed.

Lemma Index_None s sep : Index s sep = None -> forall i, HasPrefix (skipn i s) sep = false.
Proof.
  induction s as [|c t IH]; cbn [Index].
  - destruct (HasPrefix [] sep) eqn:H; [discriminate|]. intros _ i.
    rewrite skipn_nil. exact H.
  - destruct (HasPrefix (c :: t) sep) eqn:H; [discriminate|].
    destruct (Index t sep); cbn [option_map]; [discriminate|]. intros _ [|i]; [exact H|].
    cbn [skipn]. apply IH. reflexivity.
Qed.

Lemma replace_keeps_absent x f s old new :
  ~ In x s -> ~ In x new -> ~ In x (replace_fuel f s old new).
Proof.
  revert s. induction f as [|f IH]; intros s Hs Hn; cbn [replace_fuel]; [exact Hs|].
  destruct (Index s old) as [j|]; [|exact Hs].
  intros H. apply in_app_or in H. destruct H as [H|H].
  - apply Hs. rewrite <- (firstn_skipn j s). apply in_or_app. left. exact H.
  - apply in_app_or in H. destruct H as [H|H]; [exact (Hn H)|].
    revert H. apply IH; [|exact Hn].
    intros H. apply Hs. rewrite <- (firstn_skipn (j + length old) s). apply in_or_app. right. exact H.
Qed.

Lemma HasPrefix_one s c : HasPrefix s [c] = true <-> exists t, s = c :: t.
Proof.
  destruct s as [|d t]; cbn; [split; [discriminate|intros [? [=]]]|].
  rewrite andb_true_r. split.
  - intros H. apply Z.eqb_eq in H. subst. exists t. reflexivity.
  - intros [t' [= -> _]]. apply Z.eqb_refl.
Qed.

Lemma no_byte_of_prefix s c : (forall i, HasPrefix (skipn i s) [c] = false) -> ~ In c s.
Proof.
  intros H Hin. apply In_nth_error in Hin. destruct Hin as [i Hi].
  apply RegexpProps.skipn_nth_error in Hi.
  specialize (H i). rewrite Hi in H. cbn in H. rewrite Z.eqb_refl in H. discriminate.
Qed.

Lemma replace_removes_byte c new f s :
  (length s < f)%nat -> ~ In c new -> ~ In c (replace_fuel f s [c] new).
Proof.
  revert s. induction f as [|f IH]; intros s Hl Hn; [lia|]. cbn [replace_fuel].
  destruct (Index s [c]) as [j|] eqn:I.
  - destruct (Index_Some _ _ _ I) as (H1 & H2 & H3).
    intros H. apply in_app_or in H. destruct H as [H|H].
    + apply In_nth_error in H. destruct H as [i Hi].
      assert (Hij : (i < j)%nat).
      { assert (Hne : nth_error (firstn j s) i <> None) by congruence.
        apply nth_error_Some in Hne. rewrite firstn_length_le in Hne by lia. exact Hne. }
      rewrite nth_error_firstn in Hi. destruct (i <? j)%nat; [|discriminate].
      apply RegexpProps.skipn_nth_error in Hi. specialize (H2 i Hij).
      rewrite Hi in H2. cbn in H2. rewrite Z.eqb_refl in H2. discriminate.
    + apply in_app_or in H. destruct H as [H|H]; [exact (Hn H)|].
      revert H. apply IH; [|exact Hn]. rewrite length_skipn. cbn [length] in *.
      apply HasPrefix_one in H1. destruct H1 as [t Ht].
      assert (j < length s)%nat.
      { destruct (Nat.lt_ge_cases j (length s)) as [L|L]; [exact L|].
        rewrite skipn_all2 in Ht by exact L. discriminate. }
      lia.
  - apply no_byte_of_prefix. apply Index_None. exact I.
Qed.

Lemma HasPrefix_dotdot s i :
  HasPrefix (skipn i s) [46; 46] = true <->
  nth_error s i = Some 46 /\ nth_error s (S i) = Some 46.
Proof.
  revert s. induction i as [|i IH]; intros s.
  - destruct s as [|a [|b t]]; cbn [skipn HasPrefix nth_error].
    + split; [discriminate|intros [[=] _]].
    + rewrite andb_false_r. split; [discriminate|intros [_ [=]]].
    + rewrite andb_true_r, andb_true_iff, !Z.eqb_eq. split.
      * intros [<- <-]. split; reflexivity.
      * intros [H1 H2]. inversion H1. inversion H2. split; reflexivity.
  - destruct s as [|a t]; cbn [skipn nth_error]; [|apply IH].
    cbn. split; [discriminate|intros [[=] _]].
Qed.

Lemma no_dotdot_app x y :
  no_dotdot x -> no_dotdot y ->
  (forall k, S k = length x -> nth_error x k <> Some 46) -> no_dotdot (x ++ y).
Proof.
  intros Hx Hy Hl i Hi Hi'.
  destruct (Nat.lt_ge_cases (S i) (length x)) as [L|L].
  - rewrite nth_error_app1 in Hi, Hi' by lia. exact (Hx i Hi Hi').
  - destruct (Nat.eq_dec (S i) (length x)) as [E|E].
    + rewrite nth_error_app1 in Hi by lia. exact (Hl i E Hi).
    + rewrite nth_error_app2 in Hi, Hi' by lia.
      replace (S i - length x)%nat with (S (i - length x)) in Hi' by lia.
      exact (Hy _ Hi Hi').
Qed.

Lemma replace_removes_dotdot f s :
  (length s < f)%nat -> no_dotdot (replace_fuel f s (s2b "..") []).
Proof.
  revert s. induction f as [|f IH]; intros s Hl; [lia|]. cbn [replace_fuel].
  change (s2b "..") with [46; 46].
  destruct (Index s [46; 46]) as [j|] eqn:I.
  - destruct (Index_Some _ _ _ I) as (H1 & H2 & H3).
    apply HasPrefix_dotdot in H1. destruct H1 as [D1 D2].
    assert (Jl : (S j < length s)%nat) by (apply nth_error_Some; congruence).
    cbn [app]. apply no_dotdot_app.
    + intros i Hi Hi'.
      assert (Hne : nth_error (firstn j s) (S i) <> None) by congruence.
      apply nth_error_Some in Hne. rewrite firstn_length_le in Hne by lia.
      rewrite nth_error_firstn in Hi, Hi'.
      destruct (i <? j)%nat eqn:A; [|discriminate]. destruct (S i <? j)%nat; [|discriminate].
      apply Nat.ltb_lt in A.
      pose proof (H2 i A) as N. apply not_true_iff_false in N. rewrite HasPrefix_dotdot in N. tauto.
    + apply IH. rewrite length_skipn. cbn [length]. lia.
    + intros k Hk Hx. rewrite firstn_length_le in Hk by lia.
      rewrite nth_error_firstn in Hx. destruct (k <? j)%nat; [|discriminate].
      assert (Hkj : (k < j)%nat) by lia.
      pose proof (H2 k Hkj) as N. apply not_true_iff_false in N. rewrite HasPrefix_dotdot in N. apply N.
      split; [exact Hx|]. replace (S k) with j by lia. exact D1.
  - intros i Hi Hi'. pose proof (Index_None _ _ I i) as N.
    apply not_true_iff_false in N. rewrite HasPrefix_dotdot in N. tauto.
Qed.

Lemma last_elem_no_slash r : ~ In 47 (last_elem r).
Proof.
  induction r as [|c t IH]; cbn [last_elem]; [intros []|].
  destruct (c =? 47) eqn:E; [intros []|].
  intros [H|H]; [subst c; discriminate|exact (IH H)].
Qed.

Lemma Base_shape p : Base p = s2b "/" \/ ~ In 47 (Base p).
Proof.
  unfold Base. destruct p as [|c t]; [right; intros [H|[]]; discriminate|].
  destruct (rev (last_elem (drop_slashes (rev (c :: t))))) as [|d u] eqn:E; [left; reflexivity|].
  right. rewrite <- E. rewrite <- in_rev. apply last_elem_no_slash.
Qed.

(** [sanitizeFilename] returns a name without spaces and without two consecutive dots, holding a slash only when it is ["/"] itself. *)
Theorem sanitizeFilename_safe name :
  ~ In 32 (sanitizeFilename name)
  /\ (forall i, nth_error (sanitizeFilename name) i = Some 46 ->
                nth_error (sanitizeFilename name) (S i) <> Some 46)
  /\ (In 47 (sanitizeFilename name) -> sanitizeFilename name = s2b "/").
Proof.
  unfold sanitizeFilename. set (b := Base name).
  set (r1 := ReplaceAll b (s2b " ") (s2b "_")).
  split; [|split].
  - apply replace_keeps_absent; [|intros []].
    apply replace_removes_byte; [cbn; lia|]. intros [H|[]]; discriminate.
  - apply replace_removes_dotdot. lia.
  - destruct (Base_shape name) as [E|N].
    + unfold r1, b. rewrite E. intros _. reflexivity.
    + intros H. exfalso. revert H. apply replace_keeps_absent; [|intros []].
      apply replace_keeps_absent; [exact N|]. intros [H|[]]; discriminate.
Qed.

End UploadNameExtra.

(** ** Further properties of the list pass *)
Module ListExtra.
Import GoStrings Regexp Publisher SpecDefs RegexpProps EngineProps ListProps ExtraDefs.

Lemma ul_paragraphs_items (items : list (gostring * gostring)) :
  ul_paragraphs (map (fun '(t, _) => [s2b "<li>" ++ t ++ s2b "</li>"; t]) items)
  = bulleted (map fst items).
Proof.
  induction items as [|[t sep] items IH]; [reflexivity|].
  cbn [map ul_paragraphs bulleted fst nth]. rewrite IH. reflexivity.
Qed.

Lemma ul_block_list sep0 items :
  lt_free sep0 = true ->
  forallb (fun '(t, sep) => lt_free t && lt_free sep) items = true ->
  ul_block (s2b "<ul>" ++ sep0 ++ li_items items ++ s2b "</ul>")
  = match items with
    | [] => s2b "<ul>" ++ sep0 ++ li_items items ++ s2b "</ul>"
    | _ => bulleted (map fst items)
    end.
Proof.
  intros Hsep0 Hok. set (blk := s2b "<ul>" ++ sep0 ++ li_items items ++ s2b "</ul>").
  assert (H := all_items blk (s2b "</ul>")
                 ltac:(apply avoid_check_sound; reflexivity)
                 items [] (s2b "<ul>" ++ sep0) (S (S (length blk))) None).
  cbn [length] in H. unfold ul_block, FindAllStringSubmatch, allMatches. rewrite H.
  - destruct items as [|it items']; [reflexivity|].
    rewrite <- ul_paragraphs_items. reflexivity.
  - unfold blk. rewrite app_nil_l, <- !app_assoc. reflexivity.
  - apply avoids_app; [apply avoid_check_sound; reflexivity|].
    apply avoids_lt_free. exact Hsep0.
  - exact Hok.
  - pose proof (length_li_items items). unfold blk. rewrite !length_app. lia.
Qed.


End ListExtra.

(** ** Further properties of the heading pass *)
Module HeadingExtra.
Import GoStrings Regexp Publisher SpecDefs RegexpProps EngineProps ListProps ExtraDefs.

Lemma hRe_at inp a d body d' w :
  skipn a inp = s2b "<h" ++ [d] ++ [62] ++ body ++ s2b "</h" ++ [d'] ++ [62] ++ w ->
  digit16 d = true -> digit16 d' = true -> lt_free body = true ->
  match_at hRe inp a
  = Some ((a + 4 + length body + 5)%nat,
          cap_set 2 (a + 4, a + 4 + length body)%nat (cap_set 1 (a + 2, a + 3)%nat nocaps)).
Proof.
  intros Hs Hd Hd' Hb. unfold match_at, hRe.
  rewrite mt_lit_ok by (rewrite Hs; apply HasPrefix_app).
  change (length (s2b "<h")) with 2%nat.
  assert (H2 : skipn (a + 2) inp = d :: 62 :: body ++ s2b "</h" ++ [d'] ++ [62] ++ w).
  { rewrite Nat.add_comm, <- skipn_skipn, Hs. reflexivity. }
  destruct (nth_error_skipn_cons _ _ _ _ H2) as [N1 H3].
  destruct (nth_error_skipn_cons _ _ _ _ H3) as [N2 H4].
  cbn [mt]. rewrite N1, Hd, H3, run_len_gt.
  change (rev (seq 0 (S 0 - 0))) with [0%nat]. cbn [first_some].
  rewrite Nat.add_0_r, option_match_id, N2, Z.eqb_refl, H4, run_len_any_byte, Nat.sub_0_r.
  apply (first_some_seq_at _ (length body)).
  - rewrite !length_app. lia.
  - intros j Hj. apply mt_lit_fail.
    rewrite Nat.add_comm, <- skipn_skipn, H4.
    change (s2b "</h") with (60 :: s2b "/h").
    apply avoids_lt_free; [exact Hb|exact Hj].
  - rewrite Nat.add_0_l. rewrite mt_lit_ok.
    2:{ rewrite Nat.add_comm, <- skipn_skipn, H4, skipn_length_app. apply HasPrefix_app. }
    change (length (s2b "</h")) with 3%nat.
    assert (H5 : skipn (S (S (a + 2)) + length body + 3) inp = d' :: 62 :: w).
    { rewrite <- Nat.add_assoc, (Nat.add_comm (S (S (a + 2)))), <- skipn_skipn, H4.
      rewrite Nat.add_comm, <- skipn_skipn, skipn_length_app. reflexivity. }
    destruct (nth_error_skipn_cons _ _ _ _ H5) as [N3 H6].
    destruct (nth_error_skipn_cons _ _ _ _ H6) as [N4 _].
    cbn [mt]. rewrite N3, Hd', N4, Z.eqb_refl.
    f_equal. f_equal; [lia|]. f_equal; [f_equal; lia|]. f_equal. f_equal; lia.
Qed.

Lemma length_h_block d body d' :
  length (s2b "<h" ++ [d] ++ [62] ++ body ++ s2b "</h" ++ [d'] ++ [62])
  = (4 + length body + 5)%nat.
Proof. rewrite !length_app. cbn. lia. Qed.

Lemma heading_block_one d body d' :
  digit16 d = true -> digit16 d' = true -> lt_free body = true ->
  heading_block (s2b "<h" ++ [d] ++ [62] ++ body ++ s2b "</h" ++ [d'] ++ [62])
  = styled_p (sizes [d]) (TrimSpace body).
Proof.
  intros Hd Hd' Hb.
  set (blk := s2b "<h" ++ [d] ++ [62] ++ body ++ s2b "</h" ++ [d'] ++ [62]).
  assert (Hm : match_at hRe blk 0
               = Some ((0 + 4 + length body + 5)%nat,
                       cap_set 2 (0 + 4, 0 + 4 + length body)%nat
                         (cap_set 1 (0 + 2, 0 + 3)%nat nocaps))).
  { apply (hRe_at blk 0 d body d' []); [|exact Hd|exact Hd'|exact Hb].
    unfold blk. rewrite skipn_0, !app_assoc, app_nil_r. reflexivity. }
  assert (Hs : search hRe blk 0
               = Some (0%nat, (0 + 4 + length body + 5)%nat,
                       cap_set 2 (0 + 4, 0 + 4 + length body)%nat
                         (cap_set 1 (0 + 2, 0 + 3)%nat nocaps))).
  { apply search_at; [lia|lia|intros i Hi; lia|exact Hm]. }
  unfold heading_block, FindStringSubmatch. rewrite Hs.
  cbn [seq map length Nat.eqb negb nth]. unfold group_text.
  unfold cap_set. cbn [Nat.eqb].
  assert (E1 : slice blk (0 + 2) (0 + 3) = [d]) by reflexivity.
  assert (E2 : slice blk (0 + 4) (0 + 4 + length body) = body).
  { unfold blk. change (0 + 4)%nat with (length (s2b "<h" ++ [d] ++ [62])).
    rewrite (app_assoc (s2b "<h")), (app_assoc (s2b "<h" ++ [d])).
    apply slice_mid. }
  rewrite E1, E2.
  assert (Sz : sizes [d] <> []).
  { unfold digit16, in_range in Hd. apply andb_true_iff in Hd. destruct Hd as [H1 H2].
    apply Z.leb_le in H1. apply Z.leb_le in H2.
    assert (d = 49 \/ d = 50 \/ d = 51 \/ d = 52 \/ d = 53 \/ d = 54) by lia.
    repeat destruct H as [->|H]; try (subst d); vm_compute; discriminate. }
  destruct (sizes [d]) as [|c t] eqn:ES; [contradiction|]. reflexivity.
Qed.

(** A heading [<hN>text</hN'>] with no other tag around it or inside it becomes one styled paragraph, its size taken from the opening level [N] (the closing level may differ) and its text trimmed. *)
Theorem convert_one_heading pre d body d' post :
  digit16 d = true -> digit16 d' = true ->
  lt_free pre = true -> lt_free body = true -> lt_free post = true ->
  convertHeadingsForWeChat (h_html pre d body d' post)
  = pre ++ styled_p (sizes [d]) (TrimSpace body) ++ post.
Proof.
  intros Hd Hd' Hpre Hb Hpost.
  set (blk := s2b "<h" ++ [d] ++ [62] ++ body ++ s2b "</h" ++ [d'] ++ [62]).
  set (inp := pre ++ blk ++ post).
  assert (Hinp : h_html pre d body d' post = inp).
  { unfold h_html, inp, blk. rewrite <- !app_assoc. reflexivity. }
  assert (Hlen : length blk = (4 + length body + 5)%nat) by apply length_h_block.
  assert (Hm : match_at hRe inp (length pre)
               = Some ((length pre + 4 + length body + 5)%nat,
                       cap_set 2 (length pre + 4, length pre + 4 + length body)%nat
                         (cap_set 1 (length pre + 2, length pre + 3)%nat nocaps))).
  { apply (hRe_at inp (length pre) d body d' post); [|exact Hd|exact Hd'|exact Hb].
    unfold inp, blk. rewrite skipn_length_app, <- !app_assoc. reflexivity. }
  unfold convertHeadingsForWeChat. rewrite Hinp. unfold ReplaceAllStringFunc.
  erewrite (repl_n_step _ _ _ _ 0%nat [] (length pre) (length pre + 4 + length body + 5)%nat);
    [| lia | | lia | lia].
  2:{ apply search_at; [lia| unfold inp; rewrite !length_app; lia | |exact Hm].
      intros i Hi. unfold match_at, hRe. apply mt_lit_fail.
      apply (avoids_at _ [] pre); [apply avoids_lt_free; exact Hpre|cbn; lia]. }
  rewrite repl_n_none.
  2:{ unfold search. apply search_n_none. intros i Hi.
      unfold match_at, hRe. apply mt_lit_fail.
      destruct (Nat.lt_ge_cases i (length inp)) as [Hl|Hl].
      - unfold inp. rewrite app_assoc, <- (app_nil_r post).
        apply (avoids_at _ (pre ++ blk) post []); [apply avoids_lt_free; exact Hpost|].
        unfold inp in Hl. rewrite !length_app in *. lia.
      - apply past_end; [discriminate|exact Hl]. }
  unfold inp. cbn [app].
  assert (E1 : slice (pre ++ blk ++ post) 0 (length pre) = pre).
  { unfold slice. rewrite Nat.sub_0_r, skipn_0.
    rewrite firstn_app, firstn_all, Nat.sub_diag, firstn_0. apply app_nil_r. }
  replace (length pre + 4 + length body + 5)%nat with (length pre + length blk)%nat by lia.
  rewrite E1, slice_mid.
  rewrite app_assoc, <- length_app, skipn_length_app. rewrite <- !app_assoc.
  unfold blk. rewrite heading_block_one by assumption. reflexivity.
Qed.

Lemma convert_one_heading_witness :
  convertHeadingsForWeChat (s2b "Intro <h2> Setup </h3> end")
  = s2b "Intro " ++ styled_p (s2b "22px") (s2b "Setup") ++ s2b " end".
Proof.
  change (s2b "Intro <h2> Setup </h3> end")
    with (h_html (s2b "Intro ") 50 (s2b " Setup ") 51 (s2b " end")).
  rewrite (convert_one_heading (s2b "Intro ") 50 (s2b " Setup ") 51 (s2b " end"));
    [|reflexivity..].
  vm_compute. reflexivity.
Defined.

End HeadingExtra.

Module DocLists.
Import GoStrings Regexp Publisher SpecDefs RegexpProps EngineProps ListProps ExtraDefs DocDefs.

Lemma run_len_attrs attrs t :
  forallb (fun c => negb (c =? 62)) attrs = true ->
  run_len (not_byte 62) (attrs ++ 62 :: t) = length attrs.
Proof.
  induction attrs as [|c attrs IH]; cbn [forallb]; [reflexivity|].
  intros H. apply andb_prop in H. destruct H as [H1 H2].
  cbn [app run_len length]. unfold not_byte at 1. rewrite H1. f_equal. apply IH. exact H2.
Qed.

Lemma first_some_rev_top {A} (f : nat -> option A) n x :
  f n = Some x -> first_some f (rev (seq 0 (S n))) = Some x.
Proof. intros H. rewrite seq_S, rev_app_distr. cbn. rewrite H. reflexivity. Qed.


Lemma HasPrefix_app_l (a w q : gostring) :
  (length q <= length a)%nat -> HasPrefix (a ++ w) q = HasPrefix a q.
Proof.
  revert a. induction q as [|c q IH]; intros [|d a] H; cbn in *; try reflexivity; [lia|].
  rewrite IH by lia. reflexivity.
Qed.

Lemma HasPrefix_cross (a w' q : gostring) b :
  HasPrefix (a ++ b :: w') q = true -> (length a < length q)%nat ->
  nth_error q (length a) = Some b.
Proof.
  revert a. induction q as [|c q IH]; intros [|d a] H Hl; cbn in *; try lia.
  - destruct (c =? b) eqn:E; [|discriminate]. apply Z.eqb_eq in E. subst. reflexivity.
  - apply andb_prop in H. destruct H as [_ H]. apply IH; [exact H|lia].
Qed.

Lemma HasPrefix_length (s q : gostring) : HasPrefix s q = true -> (length q <= length s)%nat.
Proof.
  revert s. induction q as [|c q IH]; intros [|d s] H; cbn in *; try lia; try discriminate.
  apply andb_prop in H. destruct H as [_ H]. apply IH in H. lia.
Qed.

Lemma contains_avoids_lt q' u :
  contains u (60 :: q') = false -> ~ In 60 q' -> avoids_lt (60 :: q') u.
Proof.
  intros Hc Hq w i Hw Hi. rewrite skipn_app.
  replace (i - length u)%nat with 0%nat by lia. rewrite skipn_0.
  destruct (HasPrefix (skipn i u ++ w) (60 :: q')) eqn:E; [|reflexivity]. exfalso.
  destruct (Nat.le_gt_cases (length (60 :: q')) (length (skipn i u))) as [L|L].
  - rewrite HasPrefix_app_l in E by exact L.
    rewrite (contains_false_no_prefix u (60 :: q') i Hc ltac:(discriminate)) in E.
    discriminate.
  - destruct Hw as [->|[w'' ->]].
    + rewrite app_nil_r in E. destruct (skipn i u) eqn:Es.
      * apply (f_equal (@length Z)) in Es. rewrite length_skipn in Es. cbn in Es. lia.
      * pose proof (HasPrefix_length _ _ E). cbn [length] in *. lia.
    + apply HasPrefix_cross in E; [|exact L].
      rewrite length_skipn in E. destruct (length u - i)%nat as [|m] eqn:Em; [lia|].
      cbn [nth_error] in E. apply Hq. eapply nth_error_In. exact E.
Qed.

Lemma tagRe_block_at tag inp a attrs body w :
  skipn a inp = tag_block tag attrs body ++ w ->
  forallb (fun c => negb (c =? 62)) attrs = true ->
  avoids (s2b "</" ++ s2b tag ++ [62]) body ->
  exists cp, match_at (tagRe tag) inp a = Some ((a + length (tag_block tag attrs body))%nat, cp).
Proof.
  intros Hs Ha Hb. unfold match_at, tagRe.
  set (O := s2b "<" ++ s2b tag).
  set (C := s2b "</" ++ s2b tag).
  assert (HO : skipn a inp = O ++ attrs ++ 62 :: body ++ C ++ 62 :: w).
  { rewrite Hs. unfold tag_block, O, C. rewrite <- !app_assoc. reflexivity. }
  rewrite mt_lit_ok by (rewrite HO; apply HasPrefix_app).
  assert (HP : skipn (a + length O) inp = attrs ++ 62 :: body ++ C ++ 62 :: w).
  { rewrite Nat.add_comm, <- skipn_skipn, HO, skipn_length_app. reflexivity. }
  cbn [mt]. rewrite HP, run_len_attrs by exact Ha. rewrite Nat.sub_0_r.
  eexists. apply first_some_rev_top.
  assert (HQ : skipn (a + length O + length attrs) inp = 62 :: body ++ C ++ 62 :: w).
  { rewrite Nat.add_comm, <- skipn_skipn, HP, skipn_length_app. reflexivity. }
  destruct (nth_error_skipn_cons _ _ _ _ HQ) as [N1 N2].
  rewrite N1, Z.eqb_refl, N2, run_len_any_byte, Nat.sub_0_r.
  set (S0 := S (a + length O + length attrs)).
  apply (first_some_seq_at _ (length body)).
  - rewrite !length_app. cbn [length]. lia.
  - intros j Hj. apply lit_byte_fail.
    replace (C ++ [62]) with (s2b "</" ++ s2b tag ++ [62])
      by (unfold C; rewrite <- app_assoc; reflexivity).
    rewrite Nat.add_comm, <- skipn_skipn. unfold S0. rewrite N2.
    replace (C ++ 62 :: w) with ((s2b "</" ++ s2b tag ++ [62]) ++ w)
      by (unfold C; rewrite <- !app_assoc; reflexivity).
    apply Hb. exact Hj.
  - rewrite mt_lit_ok.
    2:{ rewrite Nat.add_0_l, Nat.add_comm, <- skipn_skipn. unfold S0.
        rewrite N2, skipn_length_app. apply HasPrefix_app. }
    cbn [mt]. rewrite Nat.add_0_l.
    assert (N3 : skipn (length body + length C + S0) inp = 62 :: w).
    { rewrite <- skipn_skipn. unfold S0. rewrite N2.
      rewrite app_assoc, <- length_app, skipn_length_app. reflexivity. }
    replace (S0 + length body + length C)%nat with (length body + length C + S0)%nat by lia.
    destruct (nth_error_skipn_cons _ _ _ _ N3) as [N4 _]. rewrite N4, Z.eqb_refl.
    do 2 f_equal. unfold S0, tag_block, O, C. rewrite !length_app. cbn [length]. lia.
Qed.

Lemma avoids_lt_app q u v :
  avoids_lt q u -> avoids_lt q v -> (v = [] \/ exists v', v = 60 :: v') ->
  avoids_lt q (u ++ v).
Proof.
  intros Hu Hv Hs w i Hw Hi. rewrite <- app_assoc.
  destruct (Nat.lt_ge_cases i (length u)) as [H|H].
  - apply Hu; [|exact H].
    destruct Hs as [->|[v' ->]]; [exact Hw|right; eexists; reflexivity].
  - rewrite skipn_app, skipn_all2 by exact H. cbn [app].
    apply Hv; [exact Hw|rewrite length_app in Hi; lia].
Qed.

Lemma avoids_then_lt q u v : avoids q u -> avoids_lt q v -> avoids_lt q (u ++ v).
Proof.
  intros Hu Hv w i Hw Hi. rewrite <- app_assoc.
  destruct (Nat.lt_ge_cases i (length u)) as [H|H]; [apply Hu; exact H|].
  rewrite skipn_app, skipn_all2 by exact H. cbn [app].
  apply Hv; [exact Hw|rewrite length_app in Hi; lia].
Qed.

Lemma avoids_to_lt q u : avoids q u -> avoids_lt q u.
Proof. intros H w i _ Hi. apply H, Hi. Qed.

Lemma tag_block_start tag a body : exists r, tag_block tag a body = 60 :: r.
Proof. eexists. reflexivity. Qed.

Lemma length_tag_block tag a body : (5 <= length (tag_block tag a body))%nat.
Proof. unfold tag_block. rewrite !length_app. cbn [length s2b map list_ascii_of_string]. lia. Qed.

Lemma segs_render_cons tag g a body t segs :
  segs_render tag g ((a, body, t) :: segs)
  = g (tag_block tag a body) ++ t ++ segs_render tag g segs.
Proof. unfold segs_render. cbn [map concat]. rewrite <- app_assoc. reflexivity. Qed.

Lemma repl_segs tag f inp segs : forall x pre buf n,
  inp = x ++ pre ++ segs_render tag (fun s => s) segs ->
  avoids_lt (s2b "<" ++ s2b tag) pre ->
  Forall (seg_ok tag) segs ->
  (length segs < n)%nat ->
  repl_n (tagRe tag) inp f n (length x) (length x) buf
  = buf ++ pre ++ segs_render tag f segs.
Proof.
  induction segs as [|[[a body] t] segs IH]; intros x pre buf n Hinp Hpre Hok Hn.
  - unfold segs_render in *. cbn [map concat] in *.
    rewrite repl_n_none.
    + rewrite Hinp, skipn_length_app. reflexivity.
    + unfold search. apply search_n_none. intros i Hi. unfold match_at, tagRe.
      apply mt_lit_fail.
      destruct (Nat.lt_ge_cases i (length x + length pre)) as [H|H].
      * rewrite Hinp. replace i with (length x + (i - length x))%nat by lia.
        rewrite skipn_add_app. apply Hpre; [left; reflexivity|lia].
      * apply past_end; [discriminate|]. rewrite Hinp, !length_app. cbn [length]. lia.
  - destruct n as [|n]; [cbn in Hn; lia|].
    apply List.Forall_cons_iff in Hok. destruct Hok as [Hs Hok']. destruct Hs as (Ha & Hb & Ht).
    set (blk := tag_block tag a body) in *.
    set (rest := segs_render tag (fun s => s) segs).
    assert (Hi1 : inp = x ++ pre ++ (blk ++ t ++ rest))
      by (rewrite Hinp, segs_render_cons; reflexivity).
    assert (Hi2 : inp = (x ++ pre) ++ blk ++ t ++ rest)
      by (rewrite Hi1, <- !app_assoc; reflexivity).
    assert (Hs0 : skipn (length (x ++ pre)) inp = tag_block tag a body ++ t ++ rest)
      by (rewrite Hi2, skipn_length_app; reflexivity).
    destruct (tagRe_block_at tag inp _ a body (t ++ rest) Hs0 Ha Hb) as [cp Hm].
    pose proof (length_tag_block tag a body) as Lb. fold blk in Lb, Hm.
    rewrite (repl_n_step _ _ _ _ _ _ (length (x ++ pre)) (length (x ++ pre) + length blk)%nat cp).
    + assert (E1 : slice inp (length x) (length (x ++ pre)) = pre)
        by (rewrite Hi1, length_app; apply slice_mid).
      assert (E2 : slice inp (length (x ++ pre)) (length (x ++ pre) + length blk) = blk)
        by (rewrite Hi2; apply slice_mid).
      rewrite E1, E2.
      replace (length (x ++ pre) + length blk)%nat with (length ((x ++ pre) ++ blk))
        by (rewrite length_app; reflexivity).
      rewrite (IH ((x ++ pre) ++ blk) t (buf ++ pre ++ f blk) n).
      * rewrite segs_render_cons. rewrite <- !app_assoc. reflexivity.
      * rewrite Hi2, <- !app_assoc. reflexivity.
      * exact Ht.
      * exact Hok'.
      * cbn in Hn. lia.
    + rewrite Hi2, !length_app. lia.
    + apply search_at; [rewrite length_app; lia|rewrite Hi2, !length_app; lia| |exact Hm].
      intros i Hi. unfold match_at, tagRe. apply mt_lit_fail.
      rewrite Hi1. replace i with (length x + (i - length x))%nat by lia.
      rewrite skipn_add_app. apply Hpre; [|rewrite length_app in Hi; lia].
      right. destruct (tag_block_start tag a body) as [r Er]. fold blk in Er.
      rewrite Er. eexists. reflexivity.
    + rewrite length_app. lia.
    + lia.
Qed.

Lemma length_segs tag segs : (length segs <= length (segs_render tag (fun s => s) segs))%nat.
Proof.
  induction segs as [|[[a body] t] segs IH]; [cbn; lia|].
  rewrite segs_render_cons, !length_app. pose proof (length_tag_block tag a body).
  cbn [length]. lia.
Qed.

Lemma replace_segs tag f pre segs :
  avoids_lt (s2b "<" ++ s2b tag) pre -> Forall (seg_ok tag) segs ->
  ReplaceAllStringFunc (tagRe tag) (pre ++ segs_render tag (fun s => s) segs) f
  = pre ++ segs_render tag f segs.
Proof.
  intros Hpre Hok. unfold ReplaceAllStringFunc.
  apply (repl_segs tag f _ segs [] pre [] _); [reflexivity|exact Hpre|exact Hok|].
  pose proof (length_segs tag segs). rewrite length_app. lia.
Qed.

Lemma kind_eqb_true k k' : kind_eqb k k' = true -> k = k'.
Proof. destruct k, k'; cbn; congruence. Qed.

Lemma kind_eqb_refl k : kind_eqb k k = true.
Proof. destruct k; reflexivity. Qed.

Lemma segs_of_render k rf g bs : forall pre p segs,
  segs_of k rf pre bs = (p, segs) ->
  p ++ segs_render (kind_tag k) g segs
  = pre ++ concat (map (fun b => (if kind_eqb (lkind b) k then g (list_html b) else rf b)
                                 ++ ltext b) bs).
Proof.
  induction bs as [|b bs IH]; intros pre p segs E; cbn [segs_of] in E.
  - injection E as <- <-. reflexivity.
  - cbn [map concat]. destruct (kind_eqb (lkind b) k) eqn:K.
    + destruct (segs_of k rf (ltext b) bs) as [t segs'] eqn:E'. injection E as <- <-.
      rewrite segs_render_cons, (IH _ _ _ E'). apply kind_eqb_true in K.
      unfold list_html. rewrite K. rewrite <- !app_assoc. reflexivity.
    + rewrite (IH _ _ _ E). rewrite <- !app_assoc. reflexivity.
Qed.

Lemma flat_list_parts b :
  flat_list b = true ->
  lt_free (lattrs b) = true /\ forallb (fun c => negb (c =? 62)) (lattrs b) = true
  /\ lt_free (lsep0 b) = true
  /\ forallb (fun '(t, sep) => lt_free t && lt_free sep) (litems b) = true
  /\ no_list_tag (ltext b) = true.
Proof.
  unfold flat_list. intros H.
  apply andb_prop in H. destruct H as [H Ht].
  apply andb_prop in H. destruct H as [H Hi].
  apply andb_prop in H. destruct H as [Ha Hs].
  assert (A : forall c, In c (lattrs b) -> negb (c =? 60) = true /\ negb (c =? 62) = true).
  { rewrite forallb_forall in Ha. intros c Hc. specialize (Ha c Hc).
    apply andb_prop in Ha. exact Ha. }
  split; [|split; [|split; [exact Hs|split; [exact Hi|exact Ht]]]];
    unfold lt_free; apply forallb_forall; intros c Hc; apply A, Hc.
Qed.

Lemma flat_body_avoids b :
  flat_list b = true ->
  avoids (s2b "</" ++ s2b (kind_tag (lkind b)) ++ [62]) (lsep0 b ++ li_items (litems b)).
Proof.
  intros H. destruct (flat_list_parts b H) as (_ & _ & Hs & Hi & _).
  apply avoids_app; [apply avoids_lt_free; exact Hs|].
  destruct (lkind b); (apply avoids_li_items; [reflexivity|reflexivity|exact Hi]).
Qed.

Lemma no_list_tag_avoids k s :
  no_list_tag s = true -> avoids_lt (s2b "<" ++ s2b (kind_tag k)) s.
Proof.
  unfold no_list_tag. intros H. apply andb_prop in H. destruct H as [H1 H2].
  apply negb_true_iff in H1, H2.
  destruct k; (apply contains_avoids_lt; [assumption|cbn; intuition discriminate]).
Qed.

Lemma segs_of_ok k rf bs : forall pre p segs,
  segs_of k rf pre bs = (p, segs) ->
  avoids_lt (s2b "<" ++ s2b (kind_tag k)) pre ->
  forallb flat_list bs = true ->
  (forall b, In b bs -> kind_eqb (lkind b) k = false ->
     avoids (s2b "<" ++ s2b (kind_tag k)) (rf b) /\ exists r, rf b = 60 :: r) ->
  avoids_lt (s2b "<" ++ s2b (kind_tag k)) p /\ Forall (seg_ok (kind_tag k)) segs.
Proof.
  induction bs as [|b bs IH]; intros pre p segs E Hpre Hok Hrf; cbn [segs_of] in E.
  - injection E as <- <-. split; [exact Hpre|constructor].
  - cbn [forallb] in Hok. apply andb_prop in Hok. destruct Hok as [Hb Hok].
    destruct (flat_list_parts b Hb) as (_ & Ha & _ & _ & Ht).
    destruct (kind_eqb (lkind b) k) eqn:K.
    + destruct (segs_of k rf (ltext b) bs) as [t segs'] eqn:E'. injection E as <- <-.
      destruct (IH _ _ _ E') as [H1 H2].
      * apply no_list_tag_avoids. exact Ht.
      * exact Hok.
      * intros b' Hin. apply Hrf. right. exact Hin.
      * split; [exact Hpre|]. constructor; [|exact H2].
        cbn [seg_ok]. apply kind_eqb_true in K.
        split; [exact Ha|split; [rewrite <- K; apply flat_body_avoids; exact Hb|exact H1]].
    + destruct (Hrf b (or_introl eq_refl) K) as [Hr [r Er]].
      apply (IH _ _ _ E).
      * apply avoids_lt_app; [exact Hpre| |right; exists (r ++ ltext b); rewrite Er; reflexivity].
        apply avoids_then_lt; [exact Hr|apply no_list_tag_avoids; exact Ht].
      * exact Hok.
      * intros b' Hin. apply Hrf. right. exact Hin.
Qed.

Lemma li_block_items tag attrs sep0 items :
  lt_free attrs = true -> lt_free sep0 = true ->
  forallb (fun '(t, sep) => lt_free t && lt_free sep) items = true ->
  avoid_check (s2b "<li") (s2b "<" ++ s2b tag) = true ->
  avoid_check (s2b "<li") (s2b "</" ++ s2b tag ++ [62]) = true ->
  FindAllStringSubmatch liRe 1 (tag_block tag attrs (sep0 ++ li_items items))
  = map (fun '(t, _) => [s2b "<li>" ++ t ++ s2b "</li>"; t]) items.
Proof.
  intros Ha Hs Hi H1 H2. set (blk := tag_block tag attrs (sep0 ++ li_items items)).
  unfold FindAllStringSubmatch, allMatches.
  apply (all_items blk (s2b "</" ++ s2b tag ++ [62]) (avoid_check_sound _ _ H2)
           items [] ((s2b "<" ++ s2b tag) ++ attrs ++ [62] ++ sep0)).
  - unfold blk, tag_block. rewrite app_nil_l, <- !app_assoc. reflexivity.
  - apply avoids_app; [apply avoid_check_sound; exact H1|].
    apply avoids_app; [apply avoids_lt_free; exact Ha|].
    apply avoids_app; [apply avoid_check_sound; reflexivity|].
    apply avoids_lt_free. exact Hs.
  - exact Hi.
  - pose proof (length_li_items items). unfold blk, tag_block. rewrite !length_app. lia.
Qed.

Lemma list_block_out b :
  flat_list b = true ->
  match lkind b with
  | KOl => ol_block (list_html b)
  | KUl => ul_block (list_html b)
  end = list_out b.
Proof.
  intros H. destruct (flat_list_parts b H) as (Ha & _ & Hs & Hi & _).
  unfold ol_block, ul_block, list_out, list_html.
  destruct (lkind b) eqn:K; rewrite li_block_items by (reflexivity || assumption);
    destruct (litems b) as [|it items] eqn:I; try reflexivity.
  - exact (ol_paragraphs_items 0 (it :: items)).
  - exact (ListExtra.ul_paragraphs_items (it :: items)).
Qed.

Lemma list_html_avoids q' b :
  flat_list b = true ->
  avoid_check (60 :: q') (s2b "<" ++ s2b (kind_tag (lkind b))) = true ->
  avoid_check (60 :: q') (s2b "</" ++ s2b (kind_tag (lkind b)) ++ [62]) = true ->
  avoid_check (60 :: q') [62] = true ->
  avoid_check (60 :: q') (s2b "<li>") = true -> avoid_check (60 :: q') (s2b "</li>") = true ->
  avoids (60 :: q') (list_html b).
Proof.
  intros H H1 H2 H3 H4 H5. destruct (flat_list_parts b H) as (Ha & _ & Hs & Hi & _).
  unfold list_html, tag_block. rewrite app_assoc.
  apply avoids_app; [apply avoid_check_sound; exact H1|].
  apply avoids_app; [apply avoids_lt_free; exact Ha|].
  apply avoids_app; [apply avoid_check_sound; exact H3|].
  apply avoids_app; [|apply avoid_check_sound; exact H2].
  apply avoids_app; [apply avoids_lt_free; exact Hs|].
  apply avoids_li_items; [exact H4|exact H5|exact Hi].
Qed.

Lemma ul_html_avoids_ol b :
  flat_list b = true -> lkind b = KUl ->
  avoids (s2b "<" ++ s2b (kind_tag KOl)) (list_html b) /\ exists r, list_html b = 60 :: r.
Proof.
  intros H K. split; [|apply tag_block_start].
  apply list_html_avoids; [exact H|..]; rewrite ?K; reflexivity.
Qed.

Lemma ol_out_avoids_ul b :
  flat_list b = true -> lkind b = KOl ->
  avoids (s2b "<" ++ s2b (kind_tag KUl)) (list_out b) /\ exists r, list_out b = 60 :: r.
Proof.
  intros H K. destruct (flat_list_parts b H) as (_ & _ & _ & Hi & _).
  unfold list_out. rewrite K. destruct (litems b) as [|it items] eqn:I.
  - split; [|apply tag_block_start].
    apply list_html_avoids; [exact H|..]; rewrite ?K; reflexivity.
  - split; [|eexists; reflexivity].
    apply avoids_numbered, items_fst_lt_free. exact Hi.
Qed.

(** [flattenListsForWeChat] on a document whose lists hold no nested tag and
    whose other text opens no list: every list with items becomes its
    paragraphs ([<p>n. t</p>] for [<ol>], [<p>• t</p>] for [<ul>]), a list
    without items stays, and the text around the lists is kept. *)
Theorem flatten_lists_doc pre bs :
  flat_doc pre bs = true -> flattenListsForWeChat (doc_html pre bs) = doc_out pre bs.
Proof.
  unfold flat_doc. intros H. apply andb_prop in H. destruct H as [Hpre Hbs].
  assert (Hin : forall b, In b bs -> flat_list b = true)
    by (rewrite forallb_forall in Hbs; exact Hbs).
  unfold flattenListsForWeChat.
  destruct (segs_of KOl list_html pre bs) as [p1 s1] eqn:S1.
  destruct (segs_of_ok KOl list_html bs pre p1 s1 S1) as [Hp1 Hs1].
  { apply no_list_tag_avoids. exact Hpre. }
  { exact Hbs. }
  { intros b Hb K. destruct (lkind b) eqn:Kb; [discriminate|].
    apply ul_html_avoids_ol; [apply Hin; exact Hb|exact Kb]. }
  assert (D1 : doc_html pre bs = p1 ++ segs_render (kind_tag KOl) (fun s => s) s1).
  { rewrite (segs_of_render KOl list_html (fun s => s) bs pre p1 s1 S1). unfold doc_html.
    f_equal. f_equal. apply map_ext. intros b.
    destruct (kind_eqb (lkind b) KOl); reflexivity. }
  rewrite D1. unfold olRe. change (tagRe "ol") with (tagRe (kind_tag KOl)).
  rewrite replace_segs by assumption.
  rewrite (segs_of_render KOl list_html ol_block bs pre p1 s1 S1).
  assert (M : map (fun b => (if kind_eqb (lkind b) KOl then ol_block (list_html b)
                             else list_html b) ++ ltext b) bs
              = map (fun b => (if kind_eqb (lkind b) KUl then list_html b
                               else list_out b) ++ ltext b) bs).
  { apply map_ext_in. intros b Hb. pose proof (list_block_out b (Hin b Hb)) as E.
    destruct (lkind b); cbn [kind_eqb]; [rewrite E; reflexivity|reflexivity]. }
  rewrite M.
  destruct (segs_of KUl list_out pre bs) as [p2 s2] eqn:S2.
  destruct (segs_of_ok KUl list_out bs pre p2 s2 S2) as [Hp2 Hs2].
  { apply no_list_tag_avoids. exact Hpre. }
  { exact Hbs. }
  { intros b Hb K. destruct (lkind b) eqn:Kb; [|discriminate].
    apply ol_out_avoids_ul; [apply Hin; exact Hb|exact Kb]. }
  rewrite <- (segs_of_render KUl list_out (fun s => s) bs pre p2 s2 S2).
  unfold ulRe. change (tagRe "ul") with (tagRe (kind_tag KUl)).
  rewrite replace_segs by assumption.
  rewrite (segs_of_render KUl list_out ul_block bs pre p2 s2 S2).
  unfold doc_out. f_equal. f_equal. apply map_ext_in. intros b Hb.
  pose proof (list_block_out b (Hin b Hb)) as E.
  destruct (lkind b); cbn [kind_eqb]; [reflexivity|rewrite E; reflexivity].
Qed.

Lemma flatten_lists_doc_witness :
  flat_doc doc_fx_pre doc_fx_bs = true
  /\ flattenListsForWeChat (doc_html doc_fx_pre doc_fx_bs) = doc_out doc_fx_pre doc_fx_bs.
Proof.
  split; [vm_compute; reflexivity|].
  apply flatten_lists_doc. vm_compute. reflexivity.
Defined.

Lemma doc_fx_values :
  doc_html doc_fx_pre doc_fx_bs = s2b "<h2>Intro</h2><ol>
<li>A</li>
<li> B </li></ol><p>mid</p><ul class=x><li>C</li></ul><ol></ol>end"
  /\ doc_out doc_fx_pre doc_fx_bs = s2b "<h2>Intro</h2><p>1. A</p><p>2. B</p><p>mid</p><p>• C</p><ol></ol>end".
Proof. split; vm_compute; reflexivity. Qed.

End DocLists.
